(** * De Bruijn assembler ([debruijn/debruijn.py]): a shallow embedding

    The Python program builds a k-mer count mapping from reads, turns it
    into a weighted directed graph, simplifies the graph (bubbles, tips) and
    extracts contigs.  This file embeds the functions of [debruijn.py] as
    Rocq functions and states the properties of the specification on them.

    Conventions of the embedding
    - a Python [str] is a [list ascii]; a slice [s[a:b]] is [slice s a b]
      with Python's index normalisation, [x[1:]] is [tl x] and [x[:-1]] is
      [removelast x];
    - a generator is the list of the values it yields;
    - a [dict] / [Counter] is an association list in insertion order;
    - Python [int]s are [Z]; a finite [float] is the rational [Q] it
      denotes, and the operations that produce one ([int / int],
      [statistics.stdev]) round to the nearest double and raise
      [OverflowError] as CPython 3.11 does;
    - a raised exception is the [Raise] result; functions that mutate the
      graph return an [outcome] that records the state of the graph object
      also when an exception leaves the function. *)

From Stdlib Require Import String Ascii.
From Stdlib Require Import List ZArith QArith Qminmax Bool Lia Arith Permutation.
From Stdlib Require Import Lqa.
Import ListNotations.

Open Scope Z_scope.

(** ** Exceptions and results *)

Inductive exn : Type :=
| UnboundLocalError
| StatisticsError
| ValueError
| IndexError
| ZeroDivisionError
| KeyError
| RecursionError
| NetworkXError
| NetworkXPointlessConcept
| NodeNotFound
| OverflowError.

Inductive result (A : Type) : Type :=
| OK (a : A)
| Raise (e : exn).
Arguments OK {A} a.
Arguments Raise {A} e.

Definition bind {A B : Type} (r : result A) (f : A -> result B) : result B :=
  match r with
  | OK a => f a
  | Raise e => Raise e
  end.

Notation "x <- e ;; k" := (bind e (fun x => k))
  (at level 61, e at next level, right associativity).

Fixpoint mapM {A B : Type} (f : A -> result B) (l : list A) : result (list B) :=
  match l with
  | [] => OK []
  | x :: l' => y <- f x ;; ys <- mapM f l' ;; OK (y :: ys)
  end.

(** ** Strings *)

Definition str : Type := list ascii.

Definition py (s : string) : str := list_ascii_of_string s.

Fixpoint str_eqb (a b : str) : bool :=
  match a, b with
  | [], [] => true
  | x :: a', y :: b' => Ascii.eqb x y && str_eqb a' b'
  | _, _ => false
  end.

(** Python's normalisation of a slice bound [i] for a sequence of length
    [len]: negative bounds count from the end, and everything is clipped to
    [0 .. len]. *)
Definition clip (len i : Z) : Z :=
  if i <? 0 then Z.max 0 (i + len) else Z.min i len.

(** [s[lo:hi]] *)
Definition slice {A : Type} (s : list A) (lo hi : Z) : list A :=
  let n := Z.of_nat (length s) in
  let a := clip n lo in
  let b := clip n hi in
  firstn (Z.to_nat (b - a)) (skipn (Z.to_nat a) s).

(** [range(n)] *)
Definition range (n : Z) : list Z := map Z.of_nat (seq 0 (Z.to_nat n)).

Definition len {A : Type} (l : list A) : Z := Z.of_nat (length l).

(** ** [collections.Counter] and [dict], as association lists in insertion
    order *)

Definition Counter : Type := list (str * Z).

(** [c[key] = c[key] + n], a missing key counting as 0 and being appended. *)
Fixpoint counter_add (c : Counter) (key : str) (n : Z) : Counter :=
  match c with
  | [] => [(key, n)]
  | (k, v) :: c' =>
      if str_eqb k key then (k, v + n) :: c' else (k, v) :: counter_add c' key n
  end.

(** [Counter(iterable)] *)
Definition Counter_of (l : list str) : Counter :=
  fold_left (fun c k => counter_add c k 1) l [].

Definition keep_positive (c : Counter) : Counter :=
  filter (fun kv => 0 <? snd kv) c.

(** [self += other] on Counters: add the counts, then drop the entries that
    are not positive. *)
Definition Counter_iadd (self other : Counter) : Counter :=
  keep_positive (fold_left (fun c kv => counter_add c (fst kv) (snd kv)) other self).

Definition total (c : Counter) : Z := fold_right Z.add 0 (map snd c).

(** ** K-mer counter *)

(** [cut_kmer]: [for idx in range(len(read)-kmer_size+1): yield read[idx:idx+kmer_size]] *)
Definition cut_kmer (read : str) (kmer_size : Z) : list str :=
  map (fun idx => slice read idx (idx + kmer_size))
      (range (len read - kmer_size + 1)).

(** [build_kmer_dict], on the reads that [read_fastq] yields.  The local
    [kmer_count] is bound by the loop body only, so it is [None] (unbound)
    until a first read has been seen; the statement [kmer_dict += kmer_count]
    stands after the loop. *)
Definition build_kmer_dict (read_gen : list str) (kmer_size : Z) : result Counter :=
  let kmer_dict : Counter := [] in
  let kmer_count : option Counter :=
    fold_left (fun _ read => Some (Counter_of (cut_kmer read kmer_size)))
              read_gen None in
  match kmer_count with
  | None => Raise UnboundLocalError
  | Some kmer_count => OK (Counter_iadd kmer_dict kmer_count)
  end.

(** The number of length-[k] windows of all reads. *)
Definition windows (reads : list str) (k : Z) : Z :=
  fold_right Z.add 0 (map (fun read => Z.max 0 (len read - k + 1)) reads).

(** ** The directed graph ([networkx.DiGraph])

    The graph object keeps its nodes in insertion order and, for every node,
    its successors and predecessors in the order in which the edges were
    added.  One list of nodes and one list of weighted edges, both in
    insertion order, carry the same information: the successors of [u] are
    the targets of the edges leaving [u], in edge order, and removing a node
    keeps the relative order of what remains. *)

Definition node : Type := str.
Definition edge : Type := (node * node * Z)%type.

Definition src (e : edge) : node := fst (fst e).
Definition dst (e : edge) : node := snd (fst e).
Definition weight (e : edge) : Z := snd e.

Record DiGraph : Type := mkDiGraph {
  nodes : list node;
  edges : list edge
}.

Definition empty_graph : DiGraph := mkDiGraph [] [].

Definition mem (n : node) (l : list node) : bool := existsb (str_eqb n) l.

(** [n in graph] *)
Definition has_node (g : DiGraph) (n : node) : bool := mem n (nodes g).

Definition add_node (g : DiGraph) (n : node) : DiGraph :=
  if has_node g n then g else mkDiGraph (nodes g ++ [n]) (edges g).

(** The edge [(u, v)] gets the weight [w]: an existing edge keeps its place
    and has its attribute overwritten, a new one is appended. *)
Fixpoint set_weight (es : list edge) (u v : node) (w : Z) : list edge :=
  match es with
  | [] => [(u, v, w)]
  | e :: es' =>
      if str_eqb (src e) u && str_eqb (dst e) v
      then (u, v, w) :: es'
      else e :: set_weight es' u v w
  end.

(** [graph.add_edge(u, v, weight=w)] *)
Definition add_edge (g : DiGraph) (u v : node) (w : Z) : DiGraph :=
  let g' := add_node (add_node g u) v in
  mkDiGraph (nodes g') (set_weight (edges g') u v w).

(** [graph.remove_node(n)], silent on an absent node as inside
    [remove_nodes_from]. *)
Definition remove_node (g : DiGraph) (n : node) : DiGraph :=
  mkDiGraph
    (filter (fun x => negb (str_eqb x n)) (nodes g))
    (filter (fun e => negb (str_eqb (src e) n) && negb (str_eqb (dst e) n)) (edges g)).

(** [graph.remove_nodes_from(ns)] *)
Definition remove_nodes_from (g : DiGraph) (ns : list node) : DiGraph :=
  fold_left remove_node ns g.

Definition succs (g : DiGraph) (n : node) : list node :=
  map dst (filter (fun e => str_eqb (src e) n) (edges g)).

Definition preds (g : DiGraph) (n : node) : list node :=
  map src (filter (fun e => str_eqb (dst e) n) (edges g)).

(** [graph.successors(n)] and [graph.predecessors(n)] *)
Definition successors (g : DiGraph) (n : node) : result (list node) :=
  if has_node g n then OK (succs g n) else Raise NetworkXError.

Definition predecessors (g : DiGraph) (n : node) : result (list node) :=
  if has_node g n then OK (preds g n) else Raise NetworkXError.

(** [graph[u][v]['weight']] *)
Definition edge_weight (g : DiGraph) (u v : node) : result Z :=
  match find (fun e => str_eqb (src e) u && str_eqb (dst e) v) (edges g) with
  | Some e => OK (weight e)
  | None => Raise KeyError
  end.

(** The edges of [graph.subgraph(path)]: the edges of the graph whose two
    ends are both nodes of [path].  (The view lists them grouped by source
    node; the callers only add the weights up.) *)
Definition subgraph_edges (g : DiGraph) (path : list node) : list edge :=
  filter (fun e => mem (src e) path && mem (dst e) path) (edges g).

(** *** Reachability *)

Definition add_new (seen : list node) (n : node) : list node :=
  if mem n seen then seen else seen ++ [n].

(** [fuel] rounds of closing [seen] under [next]. *)
Fixpoint closure (fuel : nat) (next : node -> list node) (seen : list node) : list node :=
  match fuel with
  | O => seen
  | S fuel' => closure fuel' next (fold_left add_new (flat_map next seen) seen)
  end.

(** The nodes reachable from [n], [n] included. *)
Definition reachable (g : DiGraph) (n : node) : list node :=
  closure (length (nodes g)) (succs g) [n].

(** The nodes from which [n] is reachable, [n] included:
    [nx.ancestors(g, n) | {n}]. *)
Definition ancestors_or_self (g : DiGraph) (n : node) : list node :=
  closure (length (nodes g)) (preds g) [n].

(** [nx.has_path(g, source, target)] *)
Definition has_path (g : DiGraph) (source target : node) : result bool :=
  if has_node g source && has_node g target
  then OK (mem target (reachable g source))
  else Raise NodeNotFound.

(** [nx.is_directed_acyclic_graph(g)]: no node is reachable from one of its
    own successors. *)
Definition is_directed_acyclic_graph (g : DiGraph) : bool :=
  forallb
    (fun n => negb (mem n (closure (length (nodes g)) (succs g)
                                   (fold_left add_new (succs g n) []))))
    (nodes g).

(** *** Enumeration of simple paths

    [nx.all_simple_paths(g, source, target)] is a depth-first search that
    follows the successors in adjacency order (as of networkx 3.2, where the
    path of one node is listed when [source] is a target).  [current_path] holds the
    nodes entered so far, [next_node] is the node being entered; the search
    goes on through [next_node] while fewer than [cutoff = len(g) - 1] nodes
    have been entered and a target is still outside the path.  [budget] is
    that remaining depth, [cutoff - len(current_path)]. *)
Fixpoint simple_paths_from (budget : nat) (g : DiGraph) (targets : list node)
    (current_path : list node) (next_node : node) : list (list node) :=
  let found :=
    if mem next_node targets then [current_path ++ [next_node]] else [] in
  match budget with
  | O => found
  | S budget' =>
      if existsb (fun t => negb (mem t current_path) && negb (str_eqb t next_node)) targets
      then found ++
           flat_map
             (fun w =>
                if mem w (current_path ++ [next_node]) then []
                else simple_paths_from budget' g targets (current_path ++ [next_node]) w)
             (succs g next_node)
      else found
  end.

Definition all_simple_paths (g : DiGraph) (source target : node) : result (list (list node)) :=
  if negb (has_node g source) then Raise NodeNotFound
  else
    (* a target that is not a node is taken as a container of targets: for a
       string, its one-character substrings *)
    let targets :=
      if has_node g target then [target]
      else fold_left add_new (map (fun c => [c]) target) [] in
    OK (simple_paths_from (Nat.pred (length (nodes g))) g targets [] source).

(** [itertools.combinations(l, 2)]; also the order in which the nested
    index loops [for i ... for j in range(i + 1, ...)] visit the pairs. *)
Fixpoint combinations2 {A : Type} (l : list A) : list (A * A) :=
  match l with
  | [] => []
  | x :: l' => map (pair x) l' ++ combinations2 l'
  end.

(** ** Floats

    A finite double is [m * 2 ** e] with [m < 2 ** 53] and
    [-1074 <= e <= 971]. *)

(** [n.bit_length()] *)
Definition bit_length (n : Z) : Z :=
  if n =? 0 then 0 else Z.log2 (Z.abs n) + 1.

(** The integer nearest to [n / d], the even one on a tie; [0 <= n] and
    [0 < d]. *)
Definition round_half_even (n d : Z) : Z :=
  let q := n / d in
  let r := n mod d in
  if 2 * r <? d then q
  else if d <? 2 * r then q + 1
  else if Z.even q then q else q + 1.

Definition pow2 (e : Z) : Z := 2 ^ Z.max 0 e.

(** [n / d] on two [int]s, [0 < d]: the double nearest to the quotient, ties
    to even, subnormal or zero when the quotient is tiny; a quotient that
    rounds to [2 ** 1024] or more is an [OverflowError]. *)
Definition true_divide (n d : Z) : result Q :=
  let a := Z.abs n in
  let e0 := bit_length a - bit_length d - 53 in
  let e1 := if a * pow2 (- e0) <? d * pow2 e0 * 2 ^ 53 then e0 else e0 + 1 in
  let e := Z.max e1 (-1074) in
  let m := round_half_even (a * pow2 (- e)) (d * pow2 e) in
  if 2 ^ 1024 <=? m * pow2 e then Raise OverflowError
  else OK (Qred (Qmake (Z.sgn n * m * pow2 e) (Z.to_pos (pow2 (- e))))).

(** ** The [statistics] module

    The sums are exact fractions, as in the module; [mean] and [stdev]
    convert once, at the end. *)

Definition Qltb (x y : Q) : bool := negb (Qle_bool y x).

Definition Qsum (l : list Q) : Q := fold_right Qplus 0%Q l.

(** [statistics.mean(data)] on [int]s: the exact mean, converted to the
    type of the data: itself when it is an integer, the float nearest to it
    when it is not. *)
Definition mean (data : list Z) : result Q :=
  match data with
  | [] => Raise StatisticsError
  | _ =>
      let total := fold_right Z.add 0 data in
      if total mod len data =? 0 then OK (inject_Z (total / len data))
      else true_divide total (len data)
  end.

(** [statistics.variance(data)], the sample variance. *)
Definition variance (data : list Q) : result Q :=
  if len data <? 2 then Raise StatisticsError
  else
    let m := (Qsum data / inject_Z (len data))%Q in
    OK (Qsum (map (fun x => (x - m) * (x - m)) data) / inject_Z (len data - 1))%Q.

(** [statistics._integer_sqrt_of_frac_rto(n, m)]: the square root of
    [n / m] as an integer, rounded to odd. *)
Definition integer_sqrt_of_frac_rto (n m : Z) : Z :=
  let a := Z.sqrt (n / m) in
  Z.lor a (if a * a * m =? n then 0 else 1).

(** [statistics._float_sqrt_of_frac(n, m)]: the square root of [n / m] as a
    float. *)
Definition float_sqrt_of_frac (n m : Z) : result Q :=
  let q := (bit_length n - bit_length m - 109) / 2 in
  if 0 <=? q then
    true_divide (Z.shiftl (integer_sqrt_of_frac_rto n (Z.shiftl m (2 * q))) q) 1
  else
    true_divide (integer_sqrt_of_frac_rto (Z.shiftl n (-2 * q)) m) (Z.shiftl 1 (- q)).

(** [statistics.stdev(data)]: the exact sample variance, as a fraction in
    lowest terms, then its square root as a float. *)
Definition stdev (data : list Q) : result Q :=
  v <- variance data ;;
  let mss := Qred v in
  float_sqrt_of_frac (Qnum mss) (Zpos (Qden mss)).

(** The test [statistics.stdev(data) > 0]. *)
Definition stdev_positive (data : list Q) : result bool :=
  s <- stdev data ;; OK (Qltb 0 s).

(** [max(l)]: the first of the largest elements. *)
Definition py_max {A : Type} (ltb : A -> A -> bool) (l : list A) : result A :=
  match l with
  | [] => Raise ValueError
  | x :: l' => OK (fold_left (fun m y => if ltb m y then y else m) l' x)
  end.

(** [l.index(x)]: the first position holding a value equal to [x]. *)
Fixpoint index {A : Type} (eqb : A -> A -> bool) (l : list A) (x : A) : result Z :=
  match l with
  | [] => Raise ValueError
  | y :: l' => if eqb y x then OK 0 else i <- index eqb l' x ;; OK (i + 1)
  end.

(** [enumerate(l)] *)
Definition enumerate {A : Type} (l : list A) : list (Z * A) :=
  combine (range (len l)) l.

(** ** The assembler *)

(** [build_graph]: one edge per k-mer, from its prefix [kmer[:-1]] to its
    suffix [kmer[1:]], weighted by the count. *)
Definition build_graph (kmer_dict : Counter) : DiGraph :=
  fold_left
    (fun digraph kv =>
       let kmer := fst kv in
       let occurrence := snd kv in
       let prefix := removelast kmer in
       let suffix := tl kmer in
       add_edge digraph prefix suffix occurrence)
    kmer_dict empty_graph.

(** What one path loses in [remove_paths]: the path without its first node
    unless [delete_entry_node], without its last node unless
    [delete_sink_node]. *)
Definition stripped (delete_entry_node delete_sink_node : bool) (path : list node) : list node :=
  let path := if negb delete_entry_node then tl path else path in
  let path := if negb delete_sink_node then removelast path else path in
  path.

(** [remove_paths] *)
Definition remove_paths (graph : DiGraph) (path_list : list (list node))
    (delete_entry_node delete_sink_node : bool) : DiGraph :=
  fold_left
    (fun graph path =>
       remove_nodes_from graph (stripped delete_entry_node delete_sink_node path))
    path_list graph.

(** [path_average_weight]: the mean weight of the edges of
    [graph.subgraph(path)]. *)
Definition path_average_weight (graph : DiGraph) (path : list node) : result Q :=
  mean (map weight (subgraph_edges graph path)).

(** [get_starting_nodes] and [get_sink_nodes].  The nodes tested are nodes
    of the graph, for which [predecessors] and [successors] do not raise. *)
Definition get_starting_nodes (graph : DiGraph) : list node :=
  filter (fun n => match preds graph n with [] => true | _ => false end) (nodes graph).

Definition get_sink_nodes (graph : DiGraph) : list node :=
  filter (fun n => match succs graph n with [] => true | _ => false end) (nodes graph).

(** [contig = path[0]; for node in path[1:]: contig += node[-1]] *)
Fixpoint extend_contig (contig : str) (rest : list node) : result str :=
  match rest with
  | [] => OK contig
  | n :: rest' =>
      match rev n with
      | [] => Raise IndexError
      | c :: _ => extend_contig (contig ++ [c]) rest'
      end
  end.

Definition contig_of_path (path : list node) : result (str * Z) :=
  match path with
  | [] => Raise IndexError
  | first :: rest =>
      contig <- extend_contig first rest ;; OK (contig, len contig)
  end.

(** [get_contigs] *)
Definition get_contigs (graph : DiGraph) (starting_nodes ending_nodes : list node)
    : result (list (str * Z)) :=
  per_start <-
    mapM (fun start =>
      per_end <-
        mapM (fun end_ =>
          connected <- has_path graph start end_ ;;
          if (connected : bool) then
            paths <- all_simple_paths graph start end_ ;;
            mapM contig_of_path paths
          else OK [])
        ending_nodes ;;
      OK (concat per_end))
    starting_nodes ;;
  OK (concat per_start).

(** ** The parts that depend on the Python run time

    Two library behaviours are fixed by the run time and not by the program:
    the values drawn from the module-level random source (seeded once by
    [random.seed(9001)]), and the order in which a [set] of strings is
    iterated.  Both are parameters here. *)

Section Assembler.

(** The state of the random source, and [random._randbelow]: a draw below
    [n] and the next state. *)
Context {rng : Type}.
Variable randbelow : Z -> rng -> Z * rng.

(** The position, in the listing of a set, of the element that iteration
    yields first. *)
Variable set_order : list node -> nat.

(** [random.randint(a, b)] is [randrange(a, b + 1)]: an empty range is a
    [ValueError], raised before anything is drawn. *)
Definition randint (a b : Z) (r : rng) : result (Z * rng) :=
  if 0 <? b + 1 - a
  then let (x, r') := randbelow (b + 1 - a) r in OK (a + x, r')
  else Raise ValueError.

(** [next(iter(s))] on a non-empty set *)
Definition set_first (s : list node) : option node :=
  nth_error s (set_order s mod length s)%nat.

(** *** [nx.lowest_common_ancestor]

    From a first common ancestor, move to a successor that is a common
    ancestor too, as long as there is one. *)
Fixpoint lowest (fuel : nat) (g : DiGraph) (common : list node) (a : node) : node :=
  match fuel with
  | O => a
  | S fuel' =>
      match find (fun w => mem w common) (succs g a) with
      | Some w => lowest fuel' g common w
      | None => a
      end
  end.

Definition lowest_common_ancestor (g : DiGraph) (node1 node2 : node) : result (option node) :=
  if negb (is_directed_acyclic_graph g) then Raise NetworkXError
  else if (len (nodes g) =? 0) then Raise NetworkXPointlessConcept
  else if negb (has_node g node1 && has_node g node2) then Raise NodeNotFound
  else
    let common :=
      filter (fun a => mem a (ancestors_or_self g node2)) (ancestors_or_self g node1) in
    match set_first common with
    | None => OK None
    | Some a => OK (Some (lowest (length (nodes g)) g common a))
    end.

(** *** Outcomes of the functions that mutate the graph

    [Done g r]: the call returns, the graph object is [g] and the random
    source is in state [r].  [Fail e g r]: the exception [e] leaves the call
    with the graph object in state [g]. *)
Inductive outcome : Type :=
| Done (g : DiGraph) (r : rng)
| Fail (e : exn) (g : DiGraph) (r : rng).

(** The index of the winner in [select_best_path], with the state of the
    random source after the choice. *)
Definition best_path_index (path_list : list (list node)) (path_length : list Z)
    (weight_avg_list : list Q) (r : rng) : result (Z * rng) :=
  weight_stdev_pos <- stdev_positive weight_avg_list ;;
  if (weight_stdev_pos : bool) then
    m <- py_max Qltb weight_avg_list ;;
    i <- index Qeq_bool weight_avg_list m ;;
    OK (i, r)
  else
    length_stdev_pos <- stdev_positive (map inject_Z path_length) ;;
    if (length_stdev_pos : bool) then
      m <- py_max Z.ltb path_length ;;
      i <- index Z.eqb path_length m ;;
      OK (i, r)
    else randint 0 (len path_list - 1) r.

(** [[path for i, path in enumerate(path_list) if i != best_path_index]] *)
Definition paths_to_remove (path_list : list (list node)) (best_path_index : Z)
    : list (list node) :=
  map snd (filter (fun ip => negb (fst ip =? best_path_index)) (enumerate path_list)).

(** [select_best_path] *)
Definition select_best_path (graph : DiGraph) (path_list : list (list node))
    (path_length : list Z) (weight_avg_list : list Q)
    (delete_entry_node delete_sink_node : bool) (r : rng) : outcome :=
  if len path_list =? 1 then Done graph r
  else
    match best_path_index path_list path_length weight_avg_list r with
    | Raise e => Fail e graph r
    | OK (best, r') =>
        Done (remove_paths graph (paths_to_remove path_list best)
                           delete_entry_node delete_sink_node) r'
    end.

(** [sum(edge_weights) / len(edge_weights)] for the edges
    [zip(path[:-1], path[1:])] of one path. *)
Definition consecutive_average (graph : DiGraph) (path : list node) : result Q :=
  edge_weights <-
    mapM (fun uv => edge_weight graph (fst uv) (snd uv))
         (combine (removelast path) (tl path)) ;;
  match edge_weights with
  | [] => Raise ZeroDivisionError
  | _ => true_divide (fold_right Z.add 0%Z edge_weights) (len edge_weights)
  end.

(** [solve_bubble] *)
Definition solve_bubble (graph : DiGraph) (ancestor_node descendant_node : node)
    (r : rng) : outcome :=
  match all_simple_paths graph ancestor_node descendant_node with
  | Raise e => Fail e graph r
  | OK paths =>
      let lengths := map (fun path => len path) paths in
      match mapM (consecutive_average graph) paths with
      | Raise e => Fail e graph r
      | OK weights => select_best_path graph paths lengths weights false false r
      end
  end.

(** The search of [simplify_bubbles]: the first node, in node order, with
    more than one predecessor and a pair of predecessors [(i, j)], [i < j],
    that has a lowest common ancestor; the result is that ancestor and the
    node. *)
Fixpoint first_ancestor (graph : DiGraph) (pairs : list (node * node)) : result (option node) :=
  match pairs with
  | [] => OK None
  | (p1, p2) :: pairs' =>
      noeud_ancetre <- lowest_common_ancestor graph p1 p2 ;;
      match noeud_ancetre with
      | Some a => OK (Some a)
      | None => first_ancestor graph pairs'
      end
  end.

Fixpoint find_bubble (graph : DiGraph) (ns : list node) : result (option (node * node)) :=
  match ns with
  | [] => OK None
  | noeud :: ns' =>
      let liste_predecesseurs := preds graph noeud in
      if 1 <? len liste_predecesseurs then
        noeud_ancetre <- first_ancestor graph (combinations2 liste_predecesseurs) ;;
        match noeud_ancetre with
        | Some a => OK (Some (a, noeud))
        | None => find_bubble graph ns'
        end
      else find_bubble graph ns'
  end.

(** [simplify_bubbles].  The function calls itself once per resolved bubble;
    [depth] is the number of nested calls the interpreter still allows
    ([sys.setrecursionlimit]), and running out of it is a [RecursionError]. *)
Fixpoint simplify_bubbles (depth : nat) (graph : DiGraph) (r : rng) : outcome :=
  match depth with
  | O => Fail RecursionError graph r
  | S depth' =>
      match find_bubble graph (nodes graph) with
      | Raise e => Fail e graph r
      | OK None => Done graph r
      | OK (Some (noeud_ancetre, noeud)) =>
          match solve_bubble graph noeud_ancetre noeud r with
          | Done graph' r' => simplify_bubbles depth' graph' r'
          | Fail e graph' r' => Fail e graph' r'
          end
      end
  end.

(** The truth value of [common_ancestor]: [None] and the empty string are
    false. *)
Definition truthy (a : option node) : option node :=
  match a with
  | Some [] => None
  | _ => a
  end.

(** The inner loop of [solve_entry_tips], over the pairs of predecessors of
    [node]. *)
Fixpoint entry_tips_pairs (graph : DiGraph) (n : node) (pairs : list (node * node))
    (r : rng) : outcome :=
  match pairs with
  | [] => Done graph r
  | (pred1, pred2) :: pairs' =>
      match lowest_common_ancestor graph pred1 pred2 with
      | Raise e => Fail e graph r
      | OK common_ancestor =>
          match truthy common_ancestor with
          | None => entry_tips_pairs graph n pairs' r
          | Some a =>
              match all_simple_paths graph a n with
              | Raise e => Fail e graph r
              | OK paths =>
                  if 1 <? len paths then
                    let path_lengths := map (fun path => len path) paths in
                    let path_weights :=
                      map (fun path =>
                             inject_Z (fold_right Z.add 0
                                         (map weight (subgraph_edges graph path))))
                          paths in
                    match select_best_path graph paths path_lengths path_weights
                                           true false r with
                    | Done graph' r' => entry_tips_pairs graph' n pairs' r'
                    | Fail e graph' r' => Fail e graph' r'
                    end
                  else entry_tips_pairs graph n pairs' r
              end
          end
      end
  end.

(** [solve_entry_tips] *)
Fixpoint solve_entry_tips (graph : DiGraph) (starting_nodes : list node) (r : rng) : outcome :=
  match starting_nodes with
  | [] => Done graph r
  | n :: starting_nodes' =>
      match predecessors graph n with
      | Raise e => Fail e graph r
      | OK predecessors =>
          if 1 <? len predecessors then
            match entry_tips_pairs graph n (combinations2 predecessors) r with
            | Done graph' r' => solve_entry_tips graph' starting_nodes' r'
            | Fail e graph' r' => Fail e graph' r'
            end
          else solve_entry_tips graph starting_nodes' r
      end
  end.

End Assembler.




(** A small random source and set order, to run the functions: a linear
    congruential generator, and sets listed from their first element. *)
Module Sample.

Definition rng : Type := Z.

Definition randbelow (n : Z) (r : rng) : Z * rng :=
  (r mod n, (r * 1103515245 + 12345) mod 2147483648).

Definition set_order (s : list node) : nat := 0%nat.

Definition seed : rng := 9001.

End Sample.

(** ** The rest of the program *)

(** Two more ways for a loop to end.  An iterator over a [dict] that has
    changed size since the iteration began raises [RuntimeError] when it is
    asked for its next element, and so does a generator whose body lets a
    [StopIteration] escape (Python 3.7 and later). *)
Inductive crash : Type :=
| PyExn (e : exn)
| RuntimeError.

Inductive run (A : Type) : Type :=
| Returned (a : A)
| Crashed (c : crash).
Arguments Returned {A} a.
Arguments Crashed {A} c.

(** *** [read_fastq]

    The generator works on the lines that [handle.readlines()] returns.
    Characters are the code points below 256. *)

(** [c.isspace()] *)
Definition isspace (c : ascii) : bool :=
  let n := nat_of_ascii c in
  ((9 <=? n) && (n <=? 13) || (28 <=? n) && (n <=? 32) || (n =? 133) || (n =? 160))%nat.

Fixpoint lstrip (s : str) : str :=
  match s with
  | c :: s' => if isspace c then lstrip s' else s
  | [] => []
  end.

(** [s.strip()] *)
Definition strip (s : str) : str := rev (lstrip (rev (lstrip s))).

(** [read_fastq]: the loop takes one line, the body takes three more with
    [next(lines)] and yields the first of them, stripped.  The result is the
    list of the reads yielded and the way the generator ends: [None] when the
    lines are used up by the loop, [Some RuntimeError] when a [next(lines)]
    of the body finds no line. *)
Fixpoint read_fastq (lines : list str) : list str * option crash :=
  match lines with
  | [] => ([], None)
  | _ :: [] => ([], Some RuntimeError)
  | _ :: sequence :: [] => ([strip sequence], Some RuntimeError)
  | _ :: sequence :: _ :: [] => ([strip sequence], Some RuntimeError)
  | _ :: sequence :: _ :: _ :: rest =>
      let (reads, ending) := read_fastq rest in (strip sequence :: reads, ending)
  end.

(** [build_kmer_dict] on the lines of the file: an exception that leaves the
    generator leaves the loop over the reads, and the function. *)
Definition build_kmer_dict_of_lines (lines : list str) (kmer_size : Z) : run Counter :=
  let (read_gen, ending) := read_fastq lines in
  match ending with
  | Some c => Crashed c
  | None =>
      match build_kmer_dict read_gen kmer_size with
      | OK kmer_dict => Returned kmer_dict
      | Raise e => Crashed (PyExn e)
      end
  end.

Section Pipeline.

Context {rng : Type}.
Variable randbelow : Z -> rng -> Z * rng.
Variable set_order : list node -> nat.

(** *** [solve_out_tips] *)

Inductive tips_outcome : Type :=
| TipsDone (g : DiGraph) (r : rng)
| TipsFail (c : crash) (g : DiGraph) (r : rng).

(** The inner loop of [solve_out_tips], over [ending_nodes], for the node
    [noeud] and the first of its successors that are ending nodes,
    [liste_successeurs[0]]. *)
Fixpoint out_tips_ends (graph : DiGraph) (noeud target : node) (ends : list node)
    (r : rng) : outcome :=
  match ends with
  | [] => Done graph r
  | end_node :: ends' =>
      match has_path graph noeud end_node with
      | Raise e => Fail e graph r
      | OK false => out_tips_ends graph noeud target ends' r
      | OK true =>
          match all_simple_paths graph noeud target with
          | Raise e => Fail e graph r
          | OK paths =>
              let path_lengths :=
                map (fun path => len path) (filter (fun path => 2 <=? len path) paths) in
              match mapM (path_average_weight graph)
                         (filter (fun path => 2 <=? len path) paths) with
              | Raise e => Fail e graph r
              | OK path_weights =>
                  match select_best_path randbelow graph paths path_lengths path_weights
                                         false true r with
                  | Done graph' r' => out_tips_ends graph' noeud target ends' r'
                  | Fail e graph' r' => Fail e graph' r'
                  end
              end
          end
      end
  end.

(** The loop [for noeud in graph.nodes] of [solve_out_tips].  It runs over
    the node dictionary of the graph object itself: [ns] is what is left of
    the nodes present when the loop began, [size] their number; every
    request for a next node first compares [size] with the present number of
    nodes. *)
Fixpoint out_tips_nodes (size : nat) (graph : DiGraph) (ns ending_nodes : list node)
    (r : rng) : tips_outcome :=
  if negb (length (nodes graph) =? size)%nat then TipsFail RuntimeError graph r
  else
    match ns with
    | [] => TipsDone graph r
    | noeud :: ns' =>
        match successors graph noeud with
        | Raise e => TipsFail (PyExn e) graph r
        | OK liste_successeurs =>
            let liste_successeurs :=
              filter (fun succ => mem succ ending_nodes) liste_successeurs in
            if 1 <? len liste_successeurs then
              match liste_successeurs with
              | [] => TipsFail (PyExn IndexError) graph r
              | target :: _ =>
                  match out_tips_ends graph noeud target ending_nodes r with
                  | Done graph' r' => out_tips_nodes size graph' ns' ending_nodes r'
                  | Fail e graph' r' => TipsFail (PyExn e) graph' r'
                  end
              end
            else out_tips_nodes size graph ns' ending_nodes r
        end
    end.

(** [solve_out_tips] *)
Definition solve_out_tips (graph : DiGraph) (ending_nodes : list node) (r : rng)
    : tips_outcome :=
  out_tips_nodes (length (nodes graph)) graph (nodes graph) ending_nodes r.

(** *** [main]

    The part of [main] between the reading of the file and the writing of
    the contigs: the value is the list handed to [save_contigs], with the
    final graph.  [depth] is the recursion limit of the interpreter. *)
Definition main_contigs (depth : nat) (lines : list str) (kmer_size : Z) (r : rng)
    : run (list (str * Z) * DiGraph) :=
  match build_kmer_dict_of_lines lines kmer_size with
  | Crashed c => Crashed c
  | Returned kmer_dict =>
      let graph := build_graph kmer_dict in
      match simplify_bubbles randbelow set_order depth graph r with
      | Fail e _ _ => Crashed (PyExn e)
      | Done graph r =>
          let starting_nodes := get_starting_nodes graph in
          match solve_entry_tips randbelow set_order graph starting_nodes r with
          | Fail e _ _ => Crashed (PyExn e)
          | Done graph r =>
              let ending_nodes := get_sink_nodes graph in
              match solve_out_tips graph ending_nodes r with
              | TipsFail c _ _ => Crashed c
              | TipsDone graph r =>
                  let starting_nodes := get_starting_nodes graph in
                  let ending_nodes := get_sink_nodes graph in
                  match get_contigs graph starting_nodes ending_nodes with
                  | Raise e => Crashed (PyExn e)
                  | OK contigs => Returned (contigs, graph)
                  end
              end
          end
      end
  end.

End Pipeline.

(** ** Vocabulary of the properties, and sample inputs *)

(** A path [a, b, c] over the edges [a -> b] and [b -> c] of weight 1, in a
    graph that also has the edge [a -> c] of weight 4. *)
Definition chord_graph : DiGraph :=
  add_edge (add_edge (add_edge empty_graph (py "a") (py "b") 1) (py "b") (py "c") 1)
           (py "a") (py "c") 4.

(** A main path [A -> B -> C -> D] of weight 9 and an entry tip
    [T -> U -> C] of weight 1 that merges into it at [C]. *)
Definition tip_graph : DiGraph :=
  fold_left (fun g e => add_edge g (py (fst (fst e))) (py (snd (fst e))) (snd e))
    [("A", "B", 9); ("B", "C", 9); ("C", "D", 9); ("T", "U", 1); ("U", "C", 1)]%string
    empty_graph.

(** A direct edge [a -> c] of weight 1 beside the path [a -> b -> c] of
    weight 5. *)
Definition triangle : DiGraph :=
  fold_left (fun g e => add_edge g (py (fst (fst e))) (py (snd (fst e))) (snd e))
    [("a", "b", 5); ("b", "c", 5); ("a", "c", 1)]%string
    empty_graph.

(** A node [n] is lost to the winner at index [best] when it is a stripped
    node of a path at another index. *)
Definition lost (path_list : list (list node)) (de ds : bool) (best : Z) (n : node) : Prop :=
  exists j p, Z.of_nat j <> best /\ nth_error path_list j = Some p /\ In n (stripped de ds p).

(** [best] is the first index of a largest value of [l]. *)
Definition first_max (l : list Q) (best : nat) : Prop :=
  exists w, nth_error l best = Some w /\
            (forall x, In x l -> (x <= w)%Q) /\
            (forall j x, (j < best)%nat -> nth_error l j = Some x -> (x < w)%Q).

(** [u] is followed by [v] in the list [p]. *)
Definition adjacent (p : list node) (u v : node) : Prop :=
  exists l1 l2, p = l1 ++ u :: v :: l2.

Definition has_edge (g : DiGraph) (u v : node) : Prop :=
  exists w, In (u, v, w) (edges g).

(** The graph is the single linear chain [p]: its nodes are the nodes of
    [p], all different, and its edges join each node of [p] to the next one,
    and nothing else. *)
Definition linear_chain (g : DiGraph) (p : list node) : Prop :=
  NoDup p /\
  (forall n, In n (nodes g) <-> In n p) /\
  (forall u v, has_edge g u v <-> adjacent p u v).

Definition is_linear_chain (g : DiGraph) : Prop := exists p, linear_chain g p.

(** What the graph object guarantees: a node is stored once, and so is an
    edge between two given nodes. *)
Definition simple_graph (g : DiGraph) : Prop :=
  NoDup (nodes g) /\ NoDup (map fst (edges g)).

(** The [w] characters of [s] from position [i]. *)
Definition window (w : nat) (s : str) (i : nat) : str := firstn w (skipn i s).

Fixpoint walk_in (p : list node) (walk : list node) : Prop :=
  match walk with
  | u :: ((v :: _) as walk') => adjacent p u v /\ walk_in p walk'
  | _ => True
  end.

(** The k-mers of the read ["AACCGGTTA"] for [k = 4]. *)
Definition sample_kmers : Counter :=
  [(py "AACC", 1); (py "ACCG", 1); (py "CCGG", 1); (py "CGGT", 1); (py "GGTT", 1);
   (py "GTTA", 1)].

(** Two paths from [a] to [d] that share the interior node [b]. *)
Definition shared_bubble : DiGraph :=
  fold_left (fun g e => add_edge g (py (fst (fst e))) (py (snd (fst e))) (snd e))
    [("a", "b", 5); ("b", "c", 5); ("c", "d", 5); ("b", "e", 1); ("e", "d", 1)]%string
    empty_graph.

Definition shared_paths : list (list node) :=
  [[py "a"; py "b"; py "c"; py "d"]; [py "a"; py "b"; py "e"; py "d"]].

Definition shared_weights : list Q := [5; 5254199565265579 # 2251799813685248]%Q.

(** Two paths from [a] to [d] with nothing in common but their ends. *)
Definition diamond : DiGraph :=
  fold_left (fun g e => add_edge g (py (fst (fst e))) (py (snd (fst e))) (snd e))
    [("a", "b", 5); ("b", "d", 5); ("a", "c", 1); ("c", "d", 1)]%string
    empty_graph.

Definition diamond_paths : list (list node) :=
  [[py "a"; py "b"; py "d"]; [py "a"; py "c"; py "d"]].

(** [c[x]], a missing key counting as 0. *)
Fixpoint count_of (c : Counter) (x : str) : Z :=
  match c with
  | [] => 0
  | (k, v) :: c' => if str_eqb k x then v else count_of c' x
  end.

(** The number of elements of [l] equal to [x]. *)
Definition occurrences (l : list str) (x : str) : Z :=
  len (filter (str_eqb x) l).

(** The edges of the graph join nodes of the graph. *)
Definition closed_graph (g : DiGraph) : Prop :=
  forall e, In e (edges g) -> In (src e) (nodes g) /\ In (dst e) (nodes g).

Definition graph_ok (g : DiGraph) : Prop := simple_graph g /\ closed_graph g.

(** [best] is the first index of a largest number of [l]. *)
Definition first_longest (l : list Z) (best : nat) : Prop :=
  exists w, nth_error l best = Some w /\
            (forall x, In x l -> x <= w) /\
            (forall j x, (j < best)%nat -> nth_error l j = Some x -> x < w).

(** A graph with a cycle and a node of two predecessors. *)
Definition cyclic_graph : DiGraph :=
  fold_left (fun g e => add_edge g (py (fst (fst e))) (py (snd (fst e))) (snd e))
    [("a", "b", 1); ("b", "a", 1); ("c", "a", 1)]%string
    empty_graph.

(** No white space at the start of [s]. *)
Definition starts_clean (s : str) : Prop :=
  match s with
  | [] => True
  | c :: _ => isspace c = false
  end.

(** No white space at either end of [s]. *)
Definition bare (s : str) : Prop := starts_clean s /\ starts_clean (rev s).

(** The four lines of a record of a fastq file whose sequence line is [s]
    followed by the white space [ws] (the end of the line). *)
Definition record_lines (rec : str * str * str * str * str) : list str :=
  let '(header, s, ws, separator, quality) := rec in
  [header; s ++ ws; separator; quality].

Definition record_sequence (rec : str * str * str * str * str) : str :=
  let '(_, s, _, _, _) := rec in s.

Definition record_space (rec : str * str * str * str * str) : str :=
  let '(_, _, ws, _, _) := rec in ws.

(** The two ends of the edge of a k-mer: its prefix and its suffix. *)
Definition ends_of (kmer : str) : node * node := (removelast kmer, tl kmer).

(** [g'] is [g] without some nodes and the edges at those nodes. *)
Definition shrunk (g' g : DiGraph) : Prop :=
  exists removed, g' = remove_nodes_from g removed.

(** The graph object at the end of a call, however it ends. *)
Definition graph_of {rng : Type} (o : @outcome rng) : DiGraph :=
  match o with
  | Done g _ => g
  | Fail _ g _ => g
  end.

(** A node [B] with the two sinks [C] and [D] as successors. *)
Definition fork_graph : DiGraph :=
  fold_left (fun g e => add_edge g (py (fst (fst e))) (py (snd (fst e))) (snd e))
    [("A", "B", 9); ("B", "C", 9); ("B", "D", 1)]%string
    empty_graph.

(** The bubble of [diamond] with a third way into [d], from a node [t]
    that has no ancestor. *)
Definition tipped_diamond : DiGraph :=
  fold_left (fun g e => add_edge g (py (fst (fst e))) (py (snd (fst e))) (snd e))
    [("a", "b", 5); ("b", "d", 5); ("a", "c", 1); ("c", "d", 1); ("t", "d", 1)]%string
    empty_graph.

(** The number of elements of [l] at which [f] takes the value [i]. *)
Definition tally {A : Type} (f : A -> Z) (i : Z) (l : list A) : nat :=
  length (filter (fun s => f s =? i) l).

(** A family of states of the random source over which the draw below [n]
    is uniform: every state draws a number from 0 to [n - 1], and each of
    these numbers is drawn from as many states of the family as any
    other. *)
Definition uniform_below {rng : Type} (randbelow : Z -> rng -> Z * rng)
    (states : list rng) (n : Z) : Prop :=
  (forall s, In s states -> 0 <= fst (randbelow n s) < n) /\
  (forall i j, 0 <= i < n -> 0 <= j < n ->
     tally (fun s => fst (randbelow n s)) i states
     = tally (fun s => fst (randbelow n s)) j states).

(** The index that [select_best_path] chooses among several paths; -1
    stands for an exception. *)
Definition winner_of {rng : Type} (randbelow : Z -> rng -> Z * rng)
    (path_list : list (list node)) (path_length : list Z) (weight_avg_list : list Q)
    (r : rng) : Z :=
  match best_path_index randbelow path_list path_length weight_avg_list r with
  | OK (best, _) => best
  | Raise _ => -1
  end.

(** * Properties *)

(** ** Equality of strings *)

Lemma str_eqb_refl (a : str) : str_eqb a a = true.
Proof.
  induction a as [|x a IH]; simpl; [reflexivity|].
  now rewrite Ascii.eqb_refl, IH.
Qed.

Lemma str_eqb_eq (a b : str) : str_eqb a b = true <-> a = b.
Proof.
  split.
  - revert b; induction a as [|x a IH]; intros [|y b]; simpl; try discriminate; auto.
    intros H. apply andb_true_iff in H as [Hxy Hab].
    apply Ascii.eqb_eq in Hxy. apply IH in Hab. now subst.
  - intros ->. apply str_eqb_refl.
Qed.

Lemma str_eqb_neq (a b : str) : str_eqb a b = false <-> a <> b.
Proof.
  rewrite <- str_eqb_eq. destruct (str_eqb a b); split; congruence.
Qed.

Lemma str_eqb_sym (a b : str) : str_eqb a b = str_eqb b a.
Proof.
  destruct (str_eqb a b) eqn:E.
  - apply str_eqb_eq in E. subst. now rewrite str_eqb_refl.
  - symmetry. apply str_eqb_neq. apply str_eqb_neq in E. congruence.
Qed.

Lemma mem_In (n : node) (l : list node) : mem n l = true <-> In n l.
Proof.
  unfold mem. rewrite existsb_exists. split.
  - intros [x [Hx E]]. apply str_eqb_eq in E. now subst.
  - intros H. exists n. split; [assumption | apply str_eqb_refl].
Qed.

Lemma mem_not_In (n : node) (l : list node) : mem n l = false <-> ~ In n l.
Proof.
  rewrite <- mem_In. destruct (mem n l); split; congruence.
Qed.

(** ** The k-mer counter *)

Lemma range_nonpos (n : Z) : n <= 0 -> range n = [].
Proof.
  intros H. unfold range. replace (Z.to_nat n) with 0%nat by lia. reflexivity.
Qed.

Lemma cut_kmer_short (read : str) (k : Z) : len read < k -> cut_kmer read k = [].
Proof.
  intros H. unfold cut_kmer. rewrite range_nonpos by lia. reflexivity.
Qed.

(** After the loop of [build_kmer_dict], [kmer_count] is the counter of the
    last read, whatever came before. *)
Lemma kmer_count_after_loop (k : Z) (reads : list str) (r : str) (init : option Counter) :
  fold_left (fun _ read => Some (Counter_of (cut_kmer read k))) (reads ++ [r]) init
  = Some (Counter_of (cut_kmer r k)).
Proof.
  now rewrite fold_left_app.
Qed.

Lemma build_kmer_dict_last_read (reads : list str) (r : str) (k : Z) :
  build_kmer_dict (reads ++ [r]) k = build_kmer_dict [r] k.
Proof.
  unfold build_kmer_dict. now rewrite kmer_count_after_loop.
Qed.

(** C1.  The total count of the mapping returned by [build_kmer_dict] should
    be the number of length-[k] windows of all the reads.  The code adds the
    counter of a read to the mapping after the loop over the reads and not
    inside it, so the mapping is that of the last read alone: the reads
    ["AACCGGTT"] and ["ACCGGTTA"] have 10 windows of length 4 and the
    returned mapping has a total count of 5. *)
Theorem build_kmer_dict_counts_last_read_only :
  (forall reads r k, build_kmer_dict (reads ++ [r]) k = build_kmer_dict [r] k) /\
  build_kmer_dict [py "AACCGGTT"; py "ACCGGTTA"] 4
  = OK [(py "ACCG", 1); (py "CCGG", 1); (py "CGGT", 1); (py "GGTT", 1); (py "GTTA", 1)] /\
  total [(py "ACCG", 1); (py "CCGG", 1); (py "CGGT", 1); (py "GGTT", 1); (py "GTTA", 1)] = 5 /\
  windows [py "AACCGGTT"; py "ACCGGTTA"] 4 = 10.
Proof.
  split; [exact build_kmer_dict_last_read|].
  repeat split; reflexivity.
Qed.

(** C10.  With no read at all, [build_kmer_dict] does not return an empty
    mapping: it raises, because [kmer_count] is used after the loop without
    having been assigned.  With at least one read it returns a mapping. *)
Theorem build_kmer_dict_unbound_without_reads :
  (forall k, build_kmer_dict [] k = Raise UnboundLocalError) /\
  (forall read reads k, exists kmer_dict, build_kmer_dict (read :: reads) k = OK kmer_dict).
Proof.
  split; [reflexivity|].
  intros read reads k.
  destruct (exists_last (l := read :: reads)) as [front [r E]]; [discriminate|].
  rewrite E, build_kmer_dict_last_read. unfold build_kmer_dict. simpl. eauto.
Qed.

(** ** Degenerate input *)

(** C9.  A single read shorter than [k] is not an error: the k-mer mapping
    is empty, the graph built from it has no node and no edge, and no contig
    is extracted from it. *)
Theorem short_read_gives_nothing (read : str) (k : Z) :
  len read < k ->
  build_kmer_dict [read] k = OK [] /\
  build_graph [] = empty_graph /\
  nodes (build_graph []) = [] /\
  edges (build_graph []) = [] /\
  get_contigs (build_graph []) (get_starting_nodes (build_graph []))
              (get_sink_nodes (build_graph [])) = OK [].
Proof.
  intros H. unfold build_kmer_dict. simpl.
  rewrite cut_kmer_short by assumption. repeat split; reflexivity.
Qed.

Lemma short_read_gives_nothing_witness :
  len (py "AAC") < 4 /\
  build_kmer_dict [py "AAC"] 4 = OK [] /\
  build_graph [] = empty_graph /\
  nodes (build_graph []) = [] /\
  edges (build_graph []) = [] /\
  get_contigs (build_graph []) (get_starting_nodes (build_graph []))
              (get_sink_nodes (build_graph [])) = OK [].
Proof.
  split; [reflexivity|].
  apply (short_read_gives_nothing (py "AAC") 4). reflexivity.
Defined.

(** ** The path scorer *)

(** C5.  [path_average_weight] should be the mean weight of the consecutive
    edges of the path, whatever other edges join nodes of the path.  The
    code averages over all the edges of the subgraph induced by the nodes of
    the path: on [chord_graph] the path [a, b, c] scores (1 + 1 + 4) / 3 = 2
    and not (1 + 1) / 2 = 1.0, the value that [solve_bubble] computes for
    the same path from [zip(path[:-1], path[1:])]. *)
Theorem path_average_weight_counts_chords :
  (forall u v, In (u, v) [(py "a", py "b"); (py "b", py "c")] ->
               exists w, In (u, v, w) (edges chord_graph)) /\
  path_average_weight chord_graph [py "a"; py "b"; py "c"] = OK 2%Q /\
  consecutive_average chord_graph [py "a"; py "b"; py "c"] = OK 1%Q /\
  ~ (2 == 1)%Q.
Proof.
  split.
  - intros u v [E | [E | []]]; inversion E; subst; exists 1; simpl; auto.
  - repeat split; try reflexivity. intros H. discriminate H.
Qed.

(** ** Tips and bubbles *)

Section AssemblerFacts.

Context {rng : Type}.
Variable randbelow : Z -> rng -> Z * rng.
Variable set_order : list node -> nat.

Lemma set_first_singleton (x : node) : set_first set_order [x] = Some x.
Proof.
  unfold set_first. simpl length. now rewrite Nat.mod_1_r.
Qed.

(** A node without predecessors is skipped by [solve_entry_tips]. *)
Lemma solve_entry_tips_skips (graph : DiGraph) (l : list node) (r : rng) :
  (forall n, In n l -> In n (nodes graph) /\ preds graph n = []) ->
  solve_entry_tips randbelow set_order graph l r = Done graph r.
Proof.
  induction l as [|n l IH]; intros H; simpl; [reflexivity|].
  destruct (H n (or_introl eq_refl)) as [Hn Hp].
  unfold predecessors, has_node.
  apply mem_In in Hn. rewrite Hn, Hp. simpl.
  apply IH. intros m Hm. apply H. now right.
Qed.

Lemma solve_entry_tips_on_starting_nodes (graph : DiGraph) (r : rng) :
  solve_entry_tips randbelow set_order graph (get_starting_nodes graph) r = Done graph r.
Proof.
  apply solve_entry_tips_skips. intros n Hn.
  unfold get_starting_nodes in Hn. apply filter_In in Hn as [Hn Hp].
  split; [assumption|]. now destruct (preds graph n).
Qed.

(** C4.  An entry tip should be removed by [solve_entry_tips] called with
    the nodes that have no predecessor.  The code looks for a node with
    several predecessors among the nodes it is given, and a node without
    predecessors never is one: the call returns every graph as it got it.
    On [tip_graph] the tip [T -> U] is still there afterwards. *)
Theorem solve_entry_tips_leaves_the_tip :
  (forall graph r,
     solve_entry_tips randbelow set_order graph (get_starting_nodes graph) r = Done graph r) /\
  get_starting_nodes tip_graph = [py "A"; py "T"] /\
  (forall r,
     solve_entry_tips randbelow set_order tip_graph (get_starting_nodes tip_graph) r
     = Done tip_graph r) /\
  In (py "T") (nodes tip_graph) /\ In (py "U") (nodes tip_graph).
Proof.
  split; [exact solve_entry_tips_on_starting_nodes|].
  split; [reflexivity|].
  split; [intros r; apply solve_entry_tips_on_starting_nodes|].
  split; vm_compute; tauto.
Qed.

(** On [triangle], the two predecessors [b] and [a] of [c] have the single
    common ancestor [a]. *)
Lemma triangle_lowest_common_ancestor :
  lowest_common_ancestor set_order triangle (py "b") (py "a") = OK (Some (py "a")).
Proof.
  unfold lowest_common_ancestor.
  replace (filter (fun a => mem a (ancestors_or_self triangle (py "a")))
                  (ancestors_or_self triangle (py "b")))
    with [py "a"] by reflexivity.
  rewrite set_first_singleton. reflexivity.
Qed.

Lemma triangle_find_bubble :
  find_bubble set_order triangle (nodes triangle) = OK (Some (py "a", py "c")).
Proof.
  change (nodes triangle) with [py "a"; py "b"; py "c"].
  unfold find_bubble.
  change (preds triangle (py "a")) with (@nil node).
  change (preds triangle (py "b")) with [py "a"].
  change (preds triangle (py "c")) with [py "b"; py "a"].
  cbn -[lowest_common_ancestor triangle py].
  now rewrite triangle_lowest_common_ancestor.
Qed.

Lemma triangle_solve_bubble (r : rng) :
  solve_bubble randbelow triangle (py "a") (py "c") r = Done triangle r.
Proof. reflexivity. Qed.

Lemma triangle_never_returns (depth : nat) (r : rng) :
  simplify_bubbles randbelow set_order depth triangle r = Fail RecursionError triangle r.
Proof.
  induction depth as [|depth IH]; [reflexivity|].
  cbn [simplify_bubbles].
  now rewrite triangle_find_bubble, triangle_solve_bubble.
Qed.

(** C3.  Every round of [simplify_bubbles] that finds a bubble should
    remove a node, so that the rounds end.  On [triangle] the bubble between
    [a] and [c] has the paths [a, b, c] and [a, c]; the direct edge loses and
    has no interior node, so the round removes nothing, the same bubble is
    found again, and the function calls itself until the interpreter raises
    [RecursionError], however deep the recursion limit. *)
Theorem simplify_bubbles_round_without_progress :
  find_bubble set_order triangle (nodes triangle) = OK (Some (py "a", py "c")) /\
  all_simple_paths triangle (py "a") (py "c")
  = OK [[py "a"; py "b"; py "c"]; [py "a"; py "c"]] /\
  (forall r, solve_bubble randbelow triangle (py "a") (py "c") r = Done triangle r) /\
  (forall depth r,
     simplify_bubbles randbelow set_order depth triangle r
     = Fail RecursionError triangle r).
Proof.
  split; [exact triangle_find_bubble|].
  split; [reflexivity|].
  split; [exact triangle_solve_bubble | exact triangle_never_returns].
Qed.

End AssemblerFacts.

(** ** Removal of paths *)

Lemma In_nodes_remove_node (g : DiGraph) (n x : node) :
  In x (nodes (remove_node g n)) <-> In x (nodes g) /\ x <> n.
Proof.
  unfold remove_node; simpl. rewrite filter_In, negb_true_iff, str_eqb_neq. tauto.
Qed.

Lemma In_edges_remove_node (g : DiGraph) (n : node) (e : edge) :
  In e (edges (remove_node g n)) <-> In e (edges g) /\ src e <> n /\ dst e <> n.
Proof.
  unfold remove_node; simpl.
  rewrite filter_In, andb_true_iff, !negb_true_iff, !str_eqb_neq. tauto.
Qed.

Lemma In_nodes_remove_nodes_from (l : list node) (g : DiGraph) (x : node) :
  In x (nodes (remove_nodes_from g l)) <-> In x (nodes g) /\ ~ In x l.
Proof.
  unfold remove_nodes_from. revert g.
  induction l as [|n l IH]; intros g; simpl; [tauto|].
  rewrite IH, In_nodes_remove_node. intuition congruence.
Qed.

Lemma In_edges_remove_nodes_from (l : list node) (g : DiGraph) (e : edge) :
  In e (edges (remove_nodes_from g l)) <->
  In e (edges g) /\ ~ In (src e) l /\ ~ In (dst e) l.
Proof.
  unfold remove_nodes_from. revert g.
  induction l as [|n l IH]; intros g; simpl; [tauto|].
  rewrite IH, In_edges_remove_node. intuition congruence.
Qed.

(** [remove_paths] removes the stripped nodes of the paths, and nothing else. *)
Lemma In_nodes_remove_paths (ps : list (list node)) (de ds : bool) (g : DiGraph) (x : node) :
  In x (nodes (remove_paths g ps de ds)) <->
  In x (nodes g) /\ forall p, In p ps -> ~ In x (stripped de ds p).
Proof.
  unfold remove_paths. revert g.
  induction ps as [|p ps IH]; intros g; simpl; [tauto|].
  rewrite IH, In_nodes_remove_nodes_from. split.
  - intros [[Hg Hp] Hps]. split; [assumption|]. intros q [<- | Hq]; auto.
  - intros [Hg H]. repeat split; auto.
Qed.

Lemma In_edges_remove_paths (ps : list (list node)) (de ds : bool) (g : DiGraph) (e : edge) :
  In e (edges (remove_paths g ps de ds)) <->
  In e (edges g) /\
  forall p, In p ps -> ~ In (src e) (stripped de ds p) /\ ~ In (dst e) (stripped de ds p).
Proof.
  unfold remove_paths. revert g.
  induction ps as [|p ps IH]; intros g; simpl; [tauto|].
  rewrite IH, In_edges_remove_nodes_from. split.
  - intros [[Hg Hp] Hps]. split; [assumption|]. intros q [<- | Hq]; auto.
  - intros [Hg H]. repeat split; auto; apply H; auto.
Qed.

Lemma In_enumerate_from {A : Type} (l : list A) (s : nat) (i : Z) (x : A) :
  In (i, x) (combine (map Z.of_nat (seq s (length l))) l) <->
  exists j, i = Z.of_nat (s + j) /\ nth_error l j = Some x.
Proof.
  revert s. induction l as [|y l IH]; intros s; simpl.
  - split; [tauto|]. intros [[|j] [_ H]]; discriminate.
  - rewrite IH. split.
    + intros [E | [j [Hi Hj]]].
      * inversion E; subst. exists 0%nat. split; [f_equal; lia | reflexivity].
      * exists (S j). split; [subst; f_equal; lia | assumption].
    + intros [[|j] [Hi Hj]]; simpl in Hj.
      * left. inversion Hj; subst. do 2 f_equal. lia.
      * right. exists j. split; [subst; f_equal; lia | assumption].
Qed.

Lemma In_enumerate {A : Type} (l : list A) (i : Z) (x : A) :
  In (i, x) (enumerate l) <-> exists j, i = Z.of_nat j /\ nth_error l j = Some x.
Proof.
  unfold enumerate, range, len. rewrite Nat2Z.id. apply In_enumerate_from.
Qed.

(** The paths that [select_best_path] removes are those at the other
    indices. *)
Lemma In_paths_to_remove (path_list : list (list node)) (best : Z) (p : list node) :
  In p (paths_to_remove path_list best) <->
  exists j, Z.of_nat j <> best /\ nth_error path_list j = Some p.
Proof.
  unfold paths_to_remove. rewrite in_map_iff. split.
  - intros [[i q] [E H]]. simpl in E; subst q.
    apply filter_In in H as [H Hne]. simpl in Hne.
    apply In_enumerate in H as [j [-> Hj]].
    exists j. split; [|assumption].
    apply negb_true_iff, Z.eqb_neq in Hne. assumption.
  - intros [j [Hne Hj]]. exists (Z.of_nat j, p). split; [reflexivity|].
    apply filter_In. split.
    + apply In_enumerate. eauto.
    + simpl. now apply negb_true_iff, Z.eqb_neq.
Qed.

Lemma remove_losers_nodes (g : DiGraph) (path_list : list (list node)) (de ds : bool)
    (best : Z) (n : node) :
  In n (nodes (remove_paths g (paths_to_remove path_list best) de ds)) <->
  In n (nodes g) /\ ~ lost path_list de ds best n.
Proof.
  rewrite In_nodes_remove_paths. unfold lost. split; intros [Hg H]; split; auto.
  - intros [j [p [Hj [Hp Hn]]]]. apply (H p); [|assumption].
    apply In_paths_to_remove. eauto.
  - intros p Hp Hn. apply In_paths_to_remove in Hp as [j [Hj Hp]].
    apply H. eauto.
Qed.

Lemma remove_losers_edges (g : DiGraph) (path_list : list (list node)) (de ds : bool)
    (best : Z) (e : edge) :
  In e (edges (remove_paths g (paths_to_remove path_list best) de ds)) <->
  In e (edges g) /\ ~ lost path_list de ds best (src e) /\ ~ lost path_list de ds best (dst e).
Proof.
  rewrite In_edges_remove_paths. unfold lost. split.
  - intros [Hg H]. split; [assumption|].
    split; intros [j [p [Hj [Hp Hn]]]];
      (assert (Hin : In p (paths_to_remove path_list best))
         by (apply In_paths_to_remove; eauto));
      destruct (H p Hin); auto.
  - intros [Hg [Hs Hd]]. split; [assumption|].
    intros p Hp. apply In_paths_to_remove in Hp as [j [Hj Hp]].
    split; intros Hn; [apply Hs | apply Hd]; eauto.
Qed.

(** ** The choice of the winner *)

Lemma Qltb_lt (x y : Q) : Qltb x y = true <-> (x < y)%Q.
Proof.
  unfold Qltb. rewrite negb_true_iff. split.
  - intros H. apply Qnot_le_lt. intros Hle. apply Qle_bool_iff in Hle. congruence.
  - intros H. destruct (Qle_bool y x) eqn:E; [|reflexivity].
    apply Qle_bool_iff in E. exfalso. exact (Qlt_not_le _ _ H E).
Qed.

Lemma Qltb_ge (x y : Q) : Qltb x y = false <-> (y <= x)%Q.
Proof.
  unfold Qltb. rewrite negb_false_iff. apply Qle_bool_iff.
Qed.

(** The running maximum of [max]: an element of the list that bounds all of
    them. *)
Lemma running_max_spec (l : list Q) (x : Q) :
  let m := fold_left (fun m y => if Qltb m y then y else m) l x in
  (x <= m)%Q /\ (forall y, In y l -> (y <= m)%Q) /\ In m (x :: l).
Proof.
  revert x. induction l as [|y l IH]; intros x; simpl.
  - split; [apply Qle_refl|]. split; [tauto | auto].
  - destruct (Qltb x y) eqn:E.
    + apply Qltb_lt in E. destruct (IH y) as [H1 [H2 H3]].
      split; [eapply Qle_trans; [apply Qlt_le_weak; eassumption | assumption]|].
      split; [intros z [<- | Hz]; auto | destruct H3; auto].
    + apply Qltb_ge in E. destruct (IH x) as [H1 [H2 H3]].
      split; [assumption|].
      split; [intros z [<- | Hz]; [eapply Qle_trans; eassumption | auto] | destruct H3; auto].
Qed.

(** [l.index(m)] for an element [m] of [l] is the first position of a value
    equal to [m]. *)
Lemma index_first (l : list Q) (m : Q) :
  In m l ->
  exists i w,
    index Qeq_bool l m = OK (Z.of_nat i) /\ nth_error l i = Some w /\ (w == m)%Q /\
    forall j x, (j < i)%nat -> nth_error l j = Some x -> ~ (x == m)%Q.
Proof.
  induction l as [|y l IH]; intros Hin; [destruct Hin|]. simpl.
  destruct (Qeq_bool y m) eqn:E.
  - exists 0%nat, y. repeat split; auto.
    + now apply Qeq_bool_iff.
    + intros j x Hj. lia.
  - assert (Hl : In m l).
    { destruct Hin as [-> | H]; [|assumption].
      rewrite (proj2 (Qeq_bool_iff m m) (Qeq_refl m)) in E. discriminate. }
    destruct (IH Hl) as [i [w [Hi [Hw [Hwm Hfirst]]]]].
    exists (S i), w. rewrite Hi. simpl. repeat split; auto.
    + f_equal. lia.
    + intros [|j] x Hj Hx; simpl in Hx.
      * inversion Hx; subst. intros Hxm. apply Qeq_bool_iff in Hxm. congruence.
      * apply (Hfirst j x); [lia | assumption].
Qed.

Lemma max_index_first_max (l : list Q) :
  l <> [] ->
  exists best m,
    py_max Qltb l = OK m /\ index Qeq_bool l m = OK (Z.of_nat best) /\ first_max l best.
Proof.
  destruct l as [|x l]; [congruence|]. intros _.
  destruct (running_max_spec l x) as [H1 [H2 H3]].
  set (m := fold_left (fun m y => if Qltb m y then y else m) l x) in *.
  destruct (index_first (x :: l) m H3) as [best [w [Hi [Hw [Hwm Hfirst]]]]].
  exists best, m. split; [reflexivity|]. split; [assumption|].
  exists w. split; [assumption|].
  assert (Hall : forall y, In y (x :: l) -> (y <= w)%Q).
  { intros y Hy. rewrite Hwm. destruct Hy as [<- | Hy]; auto. }
  split; [assumption|].
  intros j y Hj Hy.
  destruct (Qle_lt_or_eq _ _ (Hall y (nth_error_In _ _ Hy))) as [Hlt | Heq];
    [exact Hlt|].
  exfalso. apply (Hfirst j y Hj Hy). now rewrite Heq.
Qed.

Lemma stdev_positive_len (l : list Q) (b : bool) :
  stdev_positive l = OK b -> 2 <= len l.
Proof.
  unfold stdev_positive, stdev, variance.
  destruct (len l <? 2) eqn:E; simpl; [discriminate|].
  intros _. apply Z.ltb_ge in E. assumption.
Qed.

Section SelectorFacts.

Context {rng : Type}.
Variable randbelow : Z -> rng -> Z * rng.

(** C2 (amended).  For a list of at least two paths whose aligned weight
    averages have a positive sample standard deviation, [select_best_path]
    picks the path at the first index of the largest average, and removes
    from the graph exactly the interior nodes of the other paths, with their
    first node when [delete_entry_node] and their last node when
    [delete_sink_node], and the edges at those nodes.  A node of the winning
    path stays in the graph unless it is one of those nodes of another
    path. *)
Theorem select_best_path_by_weight (graph : DiGraph) (path_list : list (list node))
    (path_length : list Z) (weight_avg_list : list Q) (de ds : bool) (r : rng) :
  2 <= len path_list ->
  len weight_avg_list = len path_list ->
  stdev_positive weight_avg_list = OK true ->
  exists best winner graph',
    first_max weight_avg_list best /\
    nth_error path_list best = Some winner /\
    select_best_path randbelow graph path_list path_length weight_avg_list de ds r
    = Done graph' r /\
    (forall n, In n (nodes graph') <->
               In n (nodes graph) /\ ~ lost path_list de ds (Z.of_nat best) n) /\
    (forall e, In e (edges graph') <->
               In e (edges graph) /\ ~ lost path_list de ds (Z.of_nat best) (src e)
               /\ ~ lost path_list de ds (Z.of_nat best) (dst e)) /\
    (forall n, In n winner -> In n (nodes graph) ->
               ~ lost path_list de ds (Z.of_nat best) n -> In n (nodes graph')).
Proof.
  intros Hlen Halign Hsd.
  assert (Hne : weight_avg_list <> []).
  { intros ->. unfold len in *. simpl in Halign. lia. }
  destruct (max_index_first_max weight_avg_list Hne) as [best [m [Hm [Hi Hfm]]]].
  assert (Hbest : (best < length path_list)%nat).
  { destruct Hfm as [w [Hw _]].
    assert (nth_error weight_avg_list best <> None) as Hs by congruence.
    apply nth_error_Some in Hs. unfold len in *. lia. }
  destruct (nth_error path_list best) as [winner|] eqn:Hwin;
    [|apply nth_error_None in Hwin; lia].
  exists best, winner,
    (remove_paths graph (paths_to_remove path_list (Z.of_nat best)) de ds).
  split; [assumption|]. split; [assumption|].
  split.
  - unfold select_best_path, best_path_index.
    replace (len path_list =? 1) with false by (symmetry; apply Z.eqb_neq; lia).
    rewrite Hsd. simpl. rewrite Hm. simpl. rewrite Hi. reflexivity.
  - split; [intros n; apply remove_losers_nodes|].
    split; [intros e; apply remove_losers_edges|].
    intros n _ Hg Hl. apply remove_losers_nodes. auto.
Qed.

(** C7.  When neither the weight averages nor the lengths tell the paths
    apart, the winner is the one number that [random.randint] draws below
    the number of paths.  The choice and the resulting graph depend on the
    random source through that draw alone: two runs whose sources answer
    the draw alike, in particular two runs from the same state, choose the
    same winner and produce equal graphs and equal next states.  The
    winner is uniform among all the candidates when the source is: over a
    family of states from which every number below the number of paths is
    drawn equally often, every path of the list wins equally often. *)
Theorem select_best_path_tie_is_the_draw (graph : DiGraph) (path_list : list (list node))
    (path_length : list Z) (weight_avg_list : list Q) (de ds : bool)
    (states : list rng) :
  len weight_avg_list = len path_list ->
  stdev_positive weight_avg_list = OK false ->
  stdev_positive (map inject_Z path_length) = OK false ->
  uniform_below randbelow states (len path_list) ->
  (forall r,
     let draw := randbelow (len path_list) r in
     best_path_index randbelow path_list path_length weight_avg_list r = OK draw /\
     select_best_path randbelow graph path_list path_length weight_avg_list de ds r
     = Done (remove_paths graph (paths_to_remove path_list (fst draw)) de ds) (snd draw)) /\
  (forall (randbelow' : Z -> rng -> Z * rng) r1 r2,
     randbelow' (len path_list) r2 = randbelow (len path_list) r1 ->
     best_path_index randbelow' path_list path_length weight_avg_list r2
     = best_path_index randbelow path_list path_length weight_avg_list r1 /\
     select_best_path randbelow' graph path_list path_length weight_avg_list de ds r2
     = select_best_path randbelow graph path_list path_length weight_avg_list de ds r1) /\
  (forall r, In r states ->
     exists i winner,
       winner_of randbelow path_list path_length weight_avg_list r = Z.of_nat i /\
       nth_error path_list i = Some winner) /\
  (forall i j winner_i winner_j,
     nth_error path_list i = Some winner_i ->
     nth_error path_list j = Some winner_j ->
     tally (winner_of randbelow path_list path_length weight_avg_list) (Z.of_nat i) states
     = tally (winner_of randbelow path_list path_length weight_avg_list) (Z.of_nat j) states).
Proof.
  intros Halign Hw Hl [Hrange Hunif].
  pose proof (stdev_positive_len _ _ Hw) as Hlen. rewrite Halign in Hlen.
  assert (Hidx : forall (rb : Z -> rng -> Z * rng) r,
             best_path_index rb path_list path_length weight_avg_list r
             = OK (rb (len path_list) r)).
  { intros rb r. unfold best_path_index, randint. rewrite Hw. simpl. rewrite Hl. simpl.
    replace (len path_list - 1 + 1 - 0) with (len path_list) by lia.
    replace (0 <? len path_list) with true by (symmetry; apply Z.ltb_lt; lia).
    destruct (rb (len path_list) r) as [x r']. reflexivity. }
  assert (Hwin : forall r, winner_of randbelow path_list path_length weight_avg_list r
                           = fst (randbelow (len path_list) r)).
  { intros r. unfold winner_of. rewrite Hidx.
    destruct (randbelow (len path_list) r). reflexivity. }
  split; [|split; [|split]].
  - intros r draw. split; [apply Hidx|].
    unfold select_best_path. rewrite Hidx.
    replace (len path_list =? 1) with false by (symmetry; apply Z.eqb_neq; lia).
    subst draw. destruct (randbelow (len path_list) r) as [x r']. reflexivity.
  - intros rb r1 r2 E. unfold select_best_path. rewrite !Hidx, E.
    replace (len path_list =? 1) with false by (symmetry; apply Z.eqb_neq; lia).
    split; reflexivity.
  - intros r Hr. rewrite Hwin. specialize (Hrange r Hr).
    exists (Z.to_nat (fst (randbelow (len path_list) r))).
    destruct (nth_error path_list (Z.to_nat (fst (randbelow (len path_list) r))))
      as [winner|] eqn:E.
    + exists winner. split; [|reflexivity].
      symmetry. apply Z2Nat.id. apply Hrange.
    + apply nth_error_None in E. unfold len in *. lia.
  - intros i j wi wj Hi Hj.
    assert (Hi' : (i < length path_list)%nat) by (apply nth_error_Some; congruence).
    assert (Hj' : (j < length path_list)%nat) by (apply nth_error_Some; congruence).
    unfold tally.
    rewrite (filter_ext _ (fun s => fst (randbelow (len path_list) s) =? Z.of_nat i))
      by (intros s; rewrite Hwin; reflexivity).
    rewrite (filter_ext (fun s => winner_of randbelow path_list path_length weight_avg_list s
                                  =? Z.of_nat j)
                        (fun s => fst (randbelow (len path_list) s) =? Z.of_nat j))
      by (intros s; rewrite Hwin; reflexivity).
    apply Hunif; unfold len; lia.
Qed.

(** C6 (amended).  An invocation of [select_best_path] ends in one of three
    ways, told apart by its inputs.  With exactly one path it returns the
    graph unchanged, and draws nothing.  Otherwise, when the choice of the
    index raises (a statistics error, an overflow, an empty range), the
    exception leaves the function before any removal: the graph is
    unchanged.  Otherwise an index has been chosen and the function returns
    the graph without the interior nodes (and, by the flags, the ends) of
    every path at another index, without the edges at those nodes, and with
    everything else: every path other than the chosen one is removed as a
    whole, and a node of the chosen path stays unless another path has it
    among those nodes.  No outcome leaves a path half removed: an exception
    always leaves the graph as it was. *)
Theorem select_best_path_all_or_nothing (graph : DiGraph) (path_list : list (list node))
    (path_length : list Z) (weight_avg_list : list Q) (de ds : bool) (r : rng) :
  (len path_list = 1 ->
   select_best_path randbelow graph path_list path_length weight_avg_list de ds r
   = Done graph r) /\
  (len path_list <> 1 ->
   forall e,
     best_path_index randbelow path_list path_length weight_avg_list r = Raise e ->
     select_best_path randbelow graph path_list path_length weight_avg_list de ds r
     = Fail e graph r) /\
  (len path_list <> 1 ->
   forall best r',
     best_path_index randbelow path_list path_length weight_avg_list r = OK (best, r') ->
     exists graph',
       select_best_path randbelow graph path_list path_length weight_avg_list de ds r
       = Done graph' r' /\
       (forall n, In n (nodes graph') <->
                  In n (nodes graph) /\ ~ lost path_list de ds best n) /\
       (forall e, In e (edges graph') <->
                  In e (edges graph) /\ ~ lost path_list de ds best (src e)
                  /\ ~ lost path_list de ds best (dst e)) /\
       (forall winner n,
          nth_error path_list (Z.to_nat best) = Some winner -> 0 <= best ->
          In n winner -> In n (nodes graph) ->
          (In n (nodes graph') <-> ~ lost path_list de ds best n))) /\
  (forall e graph' r',
     select_best_path randbelow graph path_list path_length weight_avg_list de ds r
     = Fail e graph' r' ->
     graph' = graph /\ r' = r /\ len path_list <> 1 /\
     best_path_index randbelow path_list path_length weight_avg_list r = Raise e).
Proof.
  unfold select_best_path.
  split; [|split; [|split]].
  - intros H. rewrite H. reflexivity.
  - intros H e He. apply Z.eqb_neq in H. rewrite H, He. reflexivity.
  - intros H best r' Hb. apply Z.eqb_neq in H. rewrite H, Hb.
    exists (remove_paths graph (paths_to_remove path_list best) de ds).
    split; [reflexivity|].
    split; [intros n; apply remove_losers_nodes|].
    split; [intros e; apply remove_losers_edges|].
    intros winner n _ _ _ Hg. rewrite remove_losers_nodes. tauto.
  - intros e graph' r'. destruct (len path_list =? 1) eqn:E1; [discriminate|].
    apply Z.eqb_neq in E1.
    destruct (best_path_index randbelow path_list path_length weight_avg_list r)
      as [[best r'']|e'] eqn:Ei; [discriminate|].
    intros H. inversion H; subst. auto.
Qed.

End SelectorFacts.

(** ** Linear chains *)

Lemma split_unique {A : Type} (x : A) (l1 r1 l2 r2 : list A) :
  NoDup (l1 ++ x :: r1) -> l1 ++ x :: r1 = l2 ++ x :: r2 -> l1 = l2 /\ r1 = r2.
Proof.
  revert l2. induction l1 as [|a l1 IH]; intros l2 Hnd E.
  - destruct l2 as [|b l2]; simpl in *.
    + inversion E. auto.
    + inversion E; subst. inversion Hnd; subst.
      exfalso. apply H1. apply in_or_app. right. now left.
  - destruct l2 as [|b l2]; simpl in *.
    + inversion E; subst. inversion Hnd; subst.
      exfalso. apply H1. apply in_or_app. right. now left.
    + inversion E; subst. inversion Hnd; subst.
      destruct (IH l2 H3 H1) as [-> ->]. auto.
Qed.

Lemma adjacent_next_unique (p : list node) (u v v' : node) :
  NoDup p -> adjacent p u v -> adjacent p u v' -> v = v'.
Proof.
  intros Hnd [l1 [l2 E]] [l1' [l2' E']]. subst p.
  destruct (split_unique _ _ _ _ _ Hnd E') as [_ H]. now inversion H.
Qed.

Lemma adjacent_prev_unique (p : list node) (u u' v : node) :
  NoDup p -> adjacent p u v -> adjacent p u' v -> u = u'.
Proof.
  intros Hnd [l1 [l2 E]] [l1' [l2' E']]. subst p.
  change (l1 ++ u :: v :: l2) with (l1 ++ [u] ++ v :: l2) in *.
  change (l1' ++ u' :: v :: l2') with (l1' ++ [u'] ++ v :: l2') in E'.
  rewrite !app_assoc in *.
  destruct (split_unique _ _ _ _ _ Hnd E') as [H _].
  apply app_inj_tail in H. tauto.
Qed.

Lemma adjacent_last (l : list node) (t v : node) :
  NoDup (l ++ [t]) -> ~ adjacent (l ++ [t]) t v.
Proof.
  intros Hnd [l1 [l2 E]].
  destruct (split_unique _ _ _ _ _ Hnd E) as [_ H]. discriminate.
Qed.

Lemma adjacent_head (h : node) (l : list node) (u : node) :
  NoDup (h :: l) -> ~ adjacent (h :: l) u h.
Proof.
  intros Hnd [l1 [l2 E]].
  change (l1 ++ u :: h :: l2) with (l1 ++ [u] ++ h :: l2) in E.
  rewrite app_assoc in E.
  destruct (split_unique h [] l (l1 ++ [u]) l2 Hnd E) as [H _].
  destruct l1; discriminate.
Qed.

Lemma NoDup_all_equal {A : Type} (a : A) (l : list A) :
  NoDup l -> (forall x, In x l -> x = a) -> l = [] \/ l = [a].
Proof.
  intros Hnd H. destruct l as [|x [|y l]]; auto.
  - right. f_equal. apply H. now left.
  - exfalso. inversion Hnd; subst. apply H2.
    rewrite (H x), (H y); simpl; auto.
Qed.

Lemma NoDup_map_filter {A B : Type} (f : A -> B) (t : A -> bool) (l : list A) :
  NoDup (map f l) -> NoDup (map f (filter t l)).
Proof.
  induction l as [|x l IH]; simpl; intros H; [constructor|].
  inversion H; subst. destruct (t x); simpl; auto.
  constructor; auto. intros Hin. apply H2.
  apply in_map_iff in Hin as [y [E Hy]]. apply filter_In in Hy as [Hy _].
  apply in_map_iff. eauto.
Qed.

Lemma edge_eta (e : edge) : e = (src e, dst e, weight e).
Proof. now destruct e as [[u v] w]. Qed.

Section ChainFacts.

Variable g : DiGraph.
Variable p : list node.
Hypothesis Hsimple : simple_graph g.
Hypothesis Hchain : linear_chain g p.

Lemma chain_succs (u v : node) : adjacent p u v -> succs g u = [v].
Proof.
  intros Hadj. destruct Hchain as [Hnd [_ Hedges]]. destruct Hsimple as [_ Hpairs].
  unfold succs.
  set (F := filter (fun e => str_eqb (src e) u) (edges g)).
  assert (Hall : forall x, In x (map fst F) -> x = (u, v)).
  { intros x Hx. apply in_map_iff in Hx as [e [<- He]].
    apply filter_In in He as [He Hs]. apply str_eqb_eq in Hs.
    assert (Hd : dst e = v).
    { apply (adjacent_next_unique p u); auto. apply Hedges.
      exists (weight e). rewrite <- Hs, <- edge_eta. assumption. }
    rewrite <- Hs, <- Hd. now destruct e as [[a b] w]. }
  destruct (NoDup_all_equal (u, v) (map fst F)) as [E | E]; auto.
  - now apply NoDup_map_filter.
  - exfalso. apply Hedges in Hadj as [w Hw].
    assert (Hin : In (u, v, w) F)
      by (apply filter_In; split; [assumption | apply str_eqb_refl]).
    apply (in_map fst) in Hin. rewrite E in Hin. destruct Hin.
  - destruct F as [|e [|e' F']]; try discriminate.
    simpl in E. injection E as E. unfold dst. simpl. now rewrite E.
Qed.

Lemma chain_preds (u v : node) : adjacent p u v -> preds g v = [u].
Proof.
  intros Hadj. destruct Hchain as [Hnd [_ Hedges]]. destruct Hsimple as [_ Hpairs].
  unfold preds.
  set (F := filter (fun e => str_eqb (dst e) v) (edges g)).
  assert (Hall : forall x, In x (map fst F) -> x = (u, v)).
  { intros x Hx. apply in_map_iff in Hx as [e [<- He]].
    apply filter_In in He as [He Hs]. apply str_eqb_eq in Hs.
    assert (Hd : src e = u).
    { apply (adjacent_prev_unique p _ _ v); auto. apply Hedges.
      exists (weight e). rewrite <- Hs, <- edge_eta. assumption. }
    rewrite <- Hs, <- Hd. now destruct e as [[a b] w]. }
  destruct (NoDup_all_equal (u, v) (map fst F)) as [E | E]; auto.
  - now apply NoDup_map_filter.
  - exfalso. apply Hedges in Hadj as [w Hw].
    assert (Hin : In (u, v, w) F)
      by (apply filter_In; split; [assumption | apply str_eqb_refl]).
    apply (in_map fst) in Hin. rewrite E in Hin. destruct Hin.
  - destruct F as [|e [|e' F']]; try discriminate.
    simpl in E. injection E as E. unfold src. simpl. now rewrite E.
Qed.

Lemma chain_no_succs (u : node) : (forall v, ~ adjacent p u v) -> succs g u = [].
Proof.
  intros H. destruct Hchain as [_ [_ Hedges]]. unfold succs.
  destruct (filter (fun e => str_eqb (src e) u) (edges g)) as [|e F] eqn:E; [reflexivity|].
  exfalso. assert (He : In e (e :: F)) by now left.
  rewrite <- E in He. apply filter_In in He as [He Hs]. apply str_eqb_eq in Hs.
  apply (H (dst e)). apply Hedges. exists (weight e).
  rewrite <- Hs, <- edge_eta. assumption.
Qed.

Lemma chain_no_preds (v : node) : (forall u, ~ adjacent p u v) -> preds g v = [].
Proof.
  intros H. destruct Hchain as [_ [_ Hedges]]. unfold preds.
  destruct (filter (fun e => str_eqb (dst e) v) (edges g)) as [|e F] eqn:E; [reflexivity|].
  exfalso. assert (He : In e (e :: F)) by now left.
  rewrite <- E in He. apply filter_In in He as [He Hs]. apply str_eqb_eq in Hs.
  apply (H (src e)). apply Hedges. exists (weight e).
  rewrite <- Hs, <- edge_eta. assumption.
Qed.

End ChainFacts.

Lemma filter_unique {A : Type} (f : A -> bool) (a : A) (l : list A) :
  NoDup l -> In a l -> (forall x, In x l -> (f x = true <-> x = a)) -> filter f l = [a].
Proof.
  induction l as [|y l IH]; intros Hnd Hin H; [destruct Hin|].
  inversion Hnd; subst. simpl.
  assert (Hnone : forall l', (forall x, In x l' -> f x = false) -> filter f l' = []).
  { induction l' as [|z l' IH']; intros Hf; simpl; [reflexivity|].
    rewrite (Hf z) by now left. apply IH'. intros x Hx. apply Hf. now right. }
  destruct Hin as [-> | Hin].
  - rewrite (proj2 (H a (or_introl eq_refl)) eq_refl). f_equal.
    apply Hnone. intros x Hx. destruct (f x) eqn:E; [|reflexivity].
    apply H in E; [|now right]. subst. contradiction.
  - destruct (f y) eqn:E.
    + apply H in E; [|now left]. subst. contradiction.
    + apply IH; auto. intros x Hx. apply H. now right.
Qed.

Lemma add_new_In (seen : list node) (n x : node) :
  In x (add_new seen n) <-> In x seen \/ x = n.
Proof.
  unfold add_new. destruct (mem n seen) eqn:E.
  - apply mem_In in E. split; [tauto|]. intros [H | ->]; assumption.
  - rewrite in_app_iff. simpl. intuition congruence.
Qed.

Lemma fold_add_new_In (l seen : list node) (x : node) :
  In x (fold_left add_new l seen) <-> In x seen \/ In x l.
Proof.
  revert seen. induction l as [|n l IH]; intros seen; simpl; [tauto|].
  rewrite IH, add_new_In. intuition congruence.
Qed.

Lemma closure_mono (fuel : nat) (next : node -> list node) (seen : list node) (x : node) :
  In x seen -> In x (closure fuel next seen).
Proof.
  revert seen. induction fuel as [|fuel IH]; intros seen H; simpl; [assumption|].
  apply IH. apply fold_add_new_In. now left.
Qed.

Lemma simple_paths_from_O (g : DiGraph) (targets current_path : list node) (next_node : node) :
  simple_paths_from 0 g targets current_path next_node
  = if mem next_node targets then [current_path ++ [next_node]] else [].
Proof. reflexivity. Qed.

Lemma simple_paths_from_S (budget : nat) (g : DiGraph) (targets current_path : list node)
    (next_node : node) :
  simple_paths_from (S budget) g targets current_path next_node
  = if existsb (fun t => negb (mem t current_path) && negb (str_eqb t next_node)) targets
    then (if mem next_node targets then [current_path ++ [next_node]] else []) ++
         flat_map
           (fun w =>
              if mem w (current_path ++ [next_node]) then []
              else simple_paths_from budget g targets (current_path ++ [next_node]) w)
           (succs g next_node)
    else if mem next_node targets then [current_path ++ [next_node]] else [].
Proof. reflexivity. Qed.

Section ChainTraversal.

Variable g : DiGraph.
Variable p : list node.
Variable front : list node.
Variable t : node.
Hypothesis Hsimple : simple_graph g.
Hypothesis Hchain : linear_chain g p.
Hypothesis Hlast : p = front ++ [t].

Lemma chain_NoDup : NoDup p.
Proof. exact (proj1 Hchain). Qed.

(** In a decomposition of the chain, the last node lies in the tail. *)
Lemma chain_tail_last (pre post : list node) (u : node) :
  p = pre ++ u :: post -> exists post', u :: post = post' ++ [t].
Proof.
  intros E.
  destruct (exists_last (l := u :: post)) as [post' [x Hx]]; [discriminate|].
  exists post'. rewrite Hx in E. rewrite Hlast, app_assoc in E.
  apply app_inj_tail in E as [_ ->]. assumption.
Qed.

Lemma chain_inner_not_last (pre post : list node) (u v : node) :
  p = pre ++ u :: v :: post -> u <> t /\ ~ In t pre /\ ~ In v (pre ++ [u]).
Proof.
  intros E. pose proof chain_NoDup as Hnd.
  split; [|split].
  - intros ->. apply (adjacent_last front t v); [now rewrite <- Hlast|].
    rewrite <- Hlast. now exists pre, post.
  - intros Hin. destruct (chain_tail_last pre (v :: post) u E) as [post' Hp].
    rewrite E, Hp in Hnd. rewrite app_assoc in Hnd.
    apply NoDup_remove_2 in Hnd. apply Hnd.
    rewrite app_nil_r. apply in_or_app. now left.
  - intros Hin. rewrite E in Hnd.
    change (pre ++ u :: v :: post) with (pre ++ [u] ++ v :: post) in Hnd.
    rewrite app_assoc in Hnd. apply NoDup_remove_2 in Hnd.
    apply Hnd. apply in_or_app. now left.
Qed.

(** The last node is reached from any node of the chain. *)
Lemma chain_closure (post pre : list node) (u : node) (fuel : nat) (seen : list node) :
  p = pre ++ u :: post -> In u seen -> (length post <= fuel)%nat ->
  In t (closure fuel (succs g) seen).
Proof.
  revert pre u fuel seen.
  induction post as [|v post IH]; intros pre u fuel seen E Hu Hf.
  - rewrite Hlast in E. apply app_inj_tail in E as [_ ->]. now apply closure_mono.
  - destruct fuel as [|fuel]; [simpl in Hf; lia|]. simpl.
    apply (IH (pre ++ [u]) v).
    + rewrite E, <- app_assoc. reflexivity.
    + apply fold_add_new_In. right. apply in_flat_map. exists u. split; [assumption|].
      rewrite (chain_succs g p Hsimple Hchain u v); [now left|]. now exists pre, post.
    + simpl in Hf. lia.
Qed.

(** The depth-first search finds the chain, and nothing else. *)
Lemma chain_simple_paths (post pre : list node) (u : node) (budget : nat) :
  p = pre ++ u :: post -> (length post <= budget)%nat ->
  simple_paths_from budget g [t] pre u = [p].
Proof.
  revert pre u budget.
  induction post as [|v post IH]; intros pre u budget E Hb.
  - assert (u = t) as ->.
    { rewrite Hlast in E. now apply app_inj_tail in E as [_ ->]. }
    assert (Hmem : mem t [t] = true) by (apply mem_In; now left).
    assert (Hgo : existsb (fun t' => negb (mem t' pre) && negb (str_eqb t' t)) [t] = false).
    { simpl. now rewrite str_eqb_refl, andb_false_r. }
    destruct budget as [|budget].
    + rewrite simple_paths_from_O, Hmem, E. reflexivity.
    + rewrite simple_paths_from_S, Hmem, Hgo, E. reflexivity.
  - destruct (chain_inner_not_last pre post u v E) as [Hut [Htpre Hv]].
    destruct budget as [|budget]; [simpl in Hb; lia|].
    assert (Hmem : mem u [t] = false)
      by (apply mem_not_In; intros [H | []]; congruence).
    assert (Hgo : existsb (fun t' => negb (mem t' pre) && negb (str_eqb t' u)) [t] = true).
    { simpl. apply mem_not_In in Htpre. rewrite Htpre.
      replace (str_eqb t u) with false by (symmetry; apply str_eqb_neq; congruence).
      reflexivity. }
    rewrite simple_paths_from_S, Hmem, Hgo.
    rewrite (chain_succs g p Hsimple Hchain u v) by (now exists pre, post).
    simpl flat_map. apply mem_not_In in Hv. rewrite Hv.
    rewrite app_nil_r. simpl. apply IH.
    + rewrite E, <- app_assoc. reflexivity.
    + simpl in Hb. lia.
Qed.

End ChainTraversal.

(** On a linear chain, the only starting node is its first node, the only
    sink its last node, and the only contig is that of the chain. *)
Lemma chain_get_contigs (g : DiGraph) (p rest front : list node) (h t : node)
    (c : str * Z) :
  simple_graph g -> linear_chain g p ->
  p = h :: rest -> p = front ++ [t] -> h <> t ->
  contig_of_path p = OK c ->
  get_starting_nodes g = [h] /\ get_sink_nodes g = [t] /\
  get_contigs g (get_starting_nodes g) (get_sink_nodes g) = OK [c].
Proof.
  intros Hsimple Hchain Hh Ht Hne Hc.
  pose proof Hchain as [Hnd [Hnodes Hedges]]. pose proof Hsimple as [Hndg _].
  assert (Hhp : In h p) by (rewrite Hh; now left).
  assert (Htp : In t p) by (rewrite Ht; apply in_or_app; right; now left).
  assert (Hstart : get_starting_nodes g = [h]).
  { unfold get_starting_nodes. apply filter_unique; [assumption | now apply Hnodes |].
    intros x Hx. apply Hnodes in Hx. split.
    - intros Hp. destruct (list_eq_dec ascii_dec x h) as [E | Hxh]; [assumption|].
      exfalso. apply in_split in Hx as [l1 [l2 E]].
      destruct (exists_last (l := l1)) as [l1' [u Hl1]].
      { intros ->. rewrite Hh in E. simpl in E. congruence. }
      assert (Hadj : adjacent p u x).
      { exists l1', l2. rewrite E, Hl1, <- app_assoc. reflexivity. }
      rewrite (chain_preds g p Hsimple Hchain u x Hadj) in Hp. discriminate.
    - intros ->. rewrite (chain_no_preds g p Hchain h); [reflexivity|].
      intros u. rewrite Hh. apply adjacent_head. now rewrite <- Hh. }
  assert (Hsink : get_sink_nodes g = [t]).
  { unfold get_sink_nodes. apply filter_unique; [assumption | now apply Hnodes |].
    intros x Hx. apply Hnodes in Hx. split.
    - intros Hp. destruct (list_eq_dec ascii_dec x t) as [E | Hxt]; [assumption|].
      exfalso. apply in_split in Hx as [l1 [l2 E]].
      destruct l2 as [|v l2].
      { rewrite Ht in E. apply app_inj_tail in E as [_ E]. congruence. }
      assert (Hadj : adjacent p x v) by (now exists l1, l2).
      rewrite (chain_succs g p Hsimple Hchain x v Hadj) in Hp. discriminate.
    - intros ->. rewrite (chain_no_succs g p Hchain t); [reflexivity|].
      intros v. rewrite Ht. apply adjacent_last. now rewrite <- Ht. }
  split; [assumption|]. split; [assumption|].
  rewrite Hstart, Hsink.
  assert (Hlen : length (nodes g) = length p).
  { apply Permutation_length. apply NoDup_Permutation; assumption. }
  assert (Hhg : has_node g h = true) by (apply mem_In; now apply Hnodes).
  assert (Htg : has_node g t = true) by (apply mem_In; now apply Hnodes).
  assert (Hpath : has_path g h t = OK true).
  { unfold has_path. rewrite Hhg, Htg. simpl. f_equal. apply mem_In.
    unfold reachable.
    apply (chain_closure g p front t Hsimple Hchain Ht rest [] h); [assumption | now left |].
    rewrite Hlen, Hh. simpl. lia. }
  assert (Hpaths : all_simple_paths g h t = OK [p]).
  { unfold all_simple_paths. rewrite Hhg, Htg. simpl. f_equal.
    apply (chain_simple_paths g p front t Hsimple Hchain Ht rest [] h); [assumption|].
    rewrite Hlen, Hh. simpl. lia. }
  unfold get_contigs. simpl mapM. rewrite Hpath. simpl bind.
  rewrite Hpaths. simpl. rewrite Hc. reflexivity.
Qed.

(** ** Windows of a read *)

Lemma slice_window (s : str) (i : nat) (k : Z) :
  0 < k -> Z.of_nat i + k <= len s ->
  slice s (Z.of_nat i) (Z.of_nat i + k) = window (Z.to_nat k) s i.
Proof.
  intros Hk Hik. unfold slice, window, clip, len in *.
  replace (Z.of_nat i <? 0) with false by (symmetry; apply Z.ltb_ge; lia).
  replace (Z.of_nat i + k <? 0) with false by (symmetry; apply Z.ltb_ge; lia).
  rewrite !Z.min_l by lia.
  replace (Z.of_nat i + k - Z.of_nat i) with k by lia.
  now rewrite Nat2Z.id.
Qed.

Lemma cut_kmer_windows (s : str) (k : Z) :
  0 < k -> k <= len s ->
  cut_kmer s k = map (window (Z.to_nat k) s) (seq 0 (length s - Z.to_nat k + 1)).
Proof.
  intros Hk Hks. unfold cut_kmer, range. rewrite map_map.
  replace (Z.to_nat (len s - k + 1)) with (length s - Z.to_nat k + 1)%nat
    by (unfold len in *; lia).
  apply map_ext_in. intros i Hi. apply in_seq in Hi.
  apply slice_window; [assumption | unfold len in *; lia].
Qed.

Lemma skipn_S_tl {A : Type} (i : nat) (l : list A) : skipn (S i) l = tl (skipn i l).
Proof.
  revert l. induction i as [|i IH]; intros [|x l]; try reflexivity.
  change (skipn (S (S i)) (x :: l)) with (skipn (S i) l).
  change (skipn (S i) (x :: l)) with (skipn i l). apply IH.
Qed.

Lemma tl_window (w : nat) (s : str) (i : nat) :
  tl (window (S w) s i) = window w s (S i).
Proof.
  unfold window. rewrite skipn_S_tl.
  destruct (skipn i s); simpl; [now rewrite firstn_nil | reflexivity].
Qed.

Lemma removelast_window (w : nat) (s : str) (i : nat) :
  (i + S w <= length s)%nat -> removelast (window (S w) s i) = window w s i.
Proof.
  intros H. unfold window. apply removelast_firstn. rewrite length_skipn. lia.
Qed.

Lemma firstn_add {A : Type} (a b : nat) (l : list A) :
  firstn (a + b) l = firstn a l ++ firstn b (skipn a l).
Proof.
  revert l. induction a as [|a IH]; intros l; [reflexivity|].
  destruct l as [|x l]; simpl; [now rewrite firstn_nil | now rewrite IH].
Qed.

Lemma firstn_snoc {A : Type} (a : nat) (l : list A) :
  (a < length l)%nat -> exists x, firstn (S a) l = firstn a l ++ [x].
Proof.
  revert l. induction a as [|a IH]; intros [|y l] H; simpl in H; try lia.
  - exists y. reflexivity.
  - destruct (IH l) as [x Hx]; [lia|]. exists x.
    change (firstn (S (S a)) (y :: l)) with (y :: firstn (S a) l). now rewrite Hx.
Qed.

(** The contig of the windows of width [w] of [s] is [s]: each window adds
    its last character. *)
Lemma extend_contig_windows (w : nat) (s : str) (n i : nat) :
  (1 <= w)%nat -> (i + w + n <= length s)%nat ->
  extend_contig (firstn (i + w) s) (map (window w s) (seq (S i) n))
  = OK (firstn (i + w + n) s).
Proof.
  intros Hw. revert i. induction n as [|n IH]; intros i H; simpl.
  - now rewrite Nat.add_0_r.
  - destruct w as [|w]; [lia|].
    destruct (firstn_snoc w (skipn (S i) s)) as [x Hx]; [rewrite length_skipn; lia|].
    unfold window at 1. rewrite Hx, rev_app_distr. simpl.
    assert (E : firstn (i + S w) s ++ [x] = firstn (S i + S w) s).
    { replace (i + S w)%nat with (S i + w)%nat by lia.
      rewrite (firstn_add (S i) w), (firstn_add (S i) (S w)), Hx.
      now rewrite app_assoc. }
    rewrite E, IH by lia. f_equal. f_equal. lia.
Qed.

Lemma contig_of_windows (w : nat) (s : str) (m : nat) :
  (1 <= w)%nat -> (w + m = length s)%nat ->
  contig_of_path (map (window w s) (seq 0 (S m))) = OK (s, len s).
Proof.
  intros Hw H.
  pose proof (extend_contig_windows w s m 0 Hw ltac:(lia)) as E.
  change (0 + w)%nat with w in E. rewrite H, firstn_all in E.
  change (map (window w s) (seq 0 (S m)))
    with (window w s 0 :: map (window w s) (seq 1 m)).
  unfold contig_of_path. change (window w s 0) with (firstn w s).
  rewrite E. reflexivity.
Qed.

(** ** Keys of the counter *)

Lemma counter_add_keys (c : Counter) (k : str) (n : Z) (x : str) :
  In x (map fst (counter_add c k n)) <-> In x (map fst c) \/ x = k.
Proof.
  induction c as [|[k' v] c IH]; simpl.
  - intuition congruence.
  - destruct (str_eqb k' k) eqn:E; simpl.
    + apply str_eqb_eq in E. subst. intuition congruence.
    + rewrite IH. tauto.
Qed.

Lemma counter_add_pos (c : Counter) (k : str) (n : Z) :
  0 < n -> (forall kv, In kv c -> 0 < snd kv) ->
  forall kv, In kv (counter_add c k n) -> 0 < snd kv.
Proof.
  intros Hn. induction c as [|[k' v] c IH]; simpl; intros Hc kv Hkv.
  - destruct Hkv as [<- | []]. assumption.
  - destruct (str_eqb k' k).
    + destruct Hkv as [<- | Hkv]; [|apply Hc; now right].
      simpl. specialize (Hc (k', v) (or_introl eq_refl)). simpl in Hc. lia.
    + destruct Hkv as [<- | Hkv]; [apply Hc; now left|].
      apply IH; [|assumption]. intros kv' H'. apply Hc. now right.
Qed.

Lemma count_all_spec (l : list str) (c : Counter) :
  (forall kv, In kv c -> 0 < snd kv) ->
  (forall kv, In kv (fold_left (fun c k => counter_add c k 1) l c) -> 0 < snd kv) /\
  (forall x, In x (map fst (fold_left (fun c k => counter_add c k 1) l c))
             <-> In x (map fst c) \/ In x l).
Proof.
  revert c. induction l as [|k l IH]; intros c Hc; simpl.
  - split; [assumption | tauto].
  - destruct (IH (counter_add c k 1)) as [Hpos Hkeys].
    { apply counter_add_pos; [lia | assumption]. }
    split; [assumption|]. intros x. rewrite Hkeys, counter_add_keys.
    intuition congruence.
Qed.

Lemma add_all_spec (other self : Counter) :
  (forall kv, In kv self -> 0 < snd kv) ->
  (forall kv, In kv other -> 0 < snd kv) ->
  (forall kv, In kv (fold_left (fun c kv => counter_add c (fst kv) (snd kv)) other self)
              -> 0 < snd kv) /\
  (forall x, In x (map fst (fold_left (fun c kv => counter_add c (fst kv) (snd kv)) other self))
             <-> In x (map fst self) \/ In x (map fst other)).
Proof.
  revert self. induction other as [|[k v] other IH]; intros self Hs Ho; simpl.
  - split; [assumption | tauto].
  - destruct (IH (counter_add self k v)) as [Hpos Hkeys].
    { apply counter_add_pos; [|assumption]. apply (Ho (k, v)). now left. }
    { intros kv H. apply Ho. now right. }
    split; [assumption|]. intros x. rewrite Hkeys, counter_add_keys.
    intuition congruence.
Qed.

Lemma filter_all {A : Type} (f : A -> bool) (l : list A) :
  (forall x, In x l -> f x = true) -> filter f l = l.
Proof.
  induction l as [|x l IH]; intros H; simpl; [reflexivity|].
  rewrite (H x) by now left. f_equal. apply IH. intros y Hy. apply H. now right.
Qed.

(** The keys of the mapping built from one read are its k-mers. *)
Lemma build_kmer_dict_keys (s : str) (k : Z) (kmer_dict : Counter) :
  build_kmer_dict [s] k = OK kmer_dict ->
  forall x, In x (map fst kmer_dict) <-> In x (cut_kmer s k).
Proof.
  unfold build_kmer_dict. simpl. intros E. injection E as <-. intros x.
  destruct (count_all_spec (cut_kmer s k) []) as [Hpos Hkeys]; [intros kv []|].
  destruct (add_all_spec (Counter_of (cut_kmer s k)) []) as [Hpos' Hkeys'];
    [intros kv [] | exact Hpos |].
  unfold Counter_iadd, keep_positive. rewrite filter_all.
  - rewrite Hkeys'. unfold Counter_of. rewrite Hkeys. simpl. tauto.
  - intros kv Hkv. apply Z.ltb_lt. now apply Hpos'.
Qed.

(** ** The graph builder *)

Lemma has_edge_pairs (g : DiGraph) (u v : node) :
  has_edge g u v <-> In (u, v) (map fst (edges g)).
Proof.
  unfold has_edge. rewrite in_map_iff. split.
  - intros [w H]. exists (u, v, w). auto.
  - intros [[[a b] w] [E H]]. simpl in E. inversion E; subst. eauto.
Qed.

Lemma add_node_nodes (g : DiGraph) (n x : node) :
  In x (nodes (add_node g n)) <-> In x (nodes g) \/ x = n.
Proof.
  unfold add_node, has_node. destruct (mem n (nodes g)) eqn:E; simpl.
  - apply mem_In in E. intuition congruence.
  - rewrite in_app_iff. simpl. intuition congruence.
Qed.

Lemma add_node_edges (g : DiGraph) (n : node) : edges (add_node g n) = edges g.
Proof.
  unfold add_node. now destruct (has_node g n).
Qed.

Lemma add_node_NoDup (g : DiGraph) (n : node) :
  NoDup (nodes g) -> NoDup (nodes (add_node g n)).
Proof.
  intros H. unfold add_node, has_node. destruct (mem n (nodes g)) eqn:E; simpl; auto.
  apply mem_not_In in E. apply NoDup_app; auto.
  - constructor; [intros [] | constructor].
  - intros a Ha [<- | []]. contradiction.
Qed.

Lemma same_pair (e : edge) (u v : node) :
  str_eqb (src e) u && str_eqb (dst e) v = true <-> fst e = (u, v).
Proof.
  destruct e as [[a b] w]. unfold src, dst. simpl.
  rewrite andb_true_iff, !str_eqb_eq. intuition congruence.
Qed.

Lemma set_weight_pairs (es : list edge) (u v : node) (w : Z) (x : node * node) :
  In x (map fst (set_weight es u v w)) <-> In x (map fst es) \/ x = (u, v).
Proof.
  induction es as [|e es IH]; simpl.
  - intuition congruence.
  - destruct (str_eqb (src e) u && str_eqb (dst e) v) eqn:E; simpl.
    + apply same_pair in E. rewrite E. intuition congruence.
    + rewrite IH. tauto.
Qed.

Lemma set_weight_NoDup (es : list edge) (u v : node) (w : Z) :
  NoDup (map fst es) -> NoDup (map fst (set_weight es u v w)).
Proof.
  induction es as [|e es IH]; simpl; intros H.
  - constructor; [intros [] | constructor].
  - inversion H; subst.
    destruct (str_eqb (src e) u && str_eqb (dst e) v) eqn:E; simpl.
    + apply same_pair in E. rewrite <- E. assumption.
    + constructor; auto. rewrite set_weight_pairs. intros [Hin | Heq]; [contradiction|].
      apply same_pair in Heq. congruence.
Qed.

Lemma add_edge_nodes (g : DiGraph) (u v : node) (w : Z) (n : node) :
  In n (nodes (add_edge g u v w)) <-> In n (nodes g) \/ n = u \/ n = v.
Proof.
  unfold add_edge. simpl. rewrite !add_node_nodes. tauto.
Qed.

Lemma add_edge_has_edge (g : DiGraph) (u v : node) (w : Z) (a b : node) :
  has_edge (add_edge g u v w) a b <-> has_edge g a b \/ (a = u /\ b = v).
Proof.
  rewrite !has_edge_pairs. unfold add_edge. simpl.
  rewrite set_weight_pairs, !add_node_edges. intuition congruence.
Qed.

Lemma add_edge_simple (g : DiGraph) (u v : node) (w : Z) :
  simple_graph g -> simple_graph (add_edge g u v w).
Proof.
  intros [Hn He]. unfold add_edge. split; simpl.
  - now apply add_node_NoDup, add_node_NoDup.
  - apply set_weight_NoDup. now rewrite !add_node_edges.
Qed.

Lemma build_graph_from (kmer_dict : Counter) (g0 : DiGraph) :
  simple_graph g0 ->
  let g := fold_left
             (fun digraph kv => add_edge digraph (removelast (fst kv)) (tl (fst kv)) (snd kv))
             kmer_dict g0 in
  simple_graph g /\
  (forall n, In n (nodes g) <->
     In n (nodes g0) \/
     exists kmer, In kmer (map fst kmer_dict) /\ (n = removelast kmer \/ n = tl kmer)) /\
  (forall u v, has_edge g u v <->
     has_edge g0 u v \/
     exists kmer, In kmer (map fst kmer_dict) /\ u = removelast kmer /\ v = tl kmer).
Proof.
  revert g0. induction kmer_dict as [|[kmer c] d IH]; intros g0 H0; simpl.
  - split; [assumption|]. split; intros; split; auto; intros [H | [x [[] _]]]; assumption.
  - destruct (IH (add_edge g0 (removelast kmer) (tl kmer) c)) as [Hs [Hn He]].
    { now apply add_edge_simple. }
    split; [assumption|]. split.
    + intros n. rewrite Hn, add_edge_nodes. split.
      * intros [[H | H] | [x [Hx H]]].
        -- now left.
        -- right. exists kmer. split; [now left | tauto].
        -- right. exists x. split; [now right | tauto].
      * intros [H | [x [[E | Hx] H]]].
        -- left. now left.
        -- subst x. left. now right.
        -- right. exists x. split; assumption.
    + intros u v. rewrite He, add_edge_has_edge. split.
      * intros [[H | H] | [x [Hx H]]].
        -- now left.
        -- right. exists kmer. split; [now left | tauto].
        -- right. exists x. split; [now right | tauto].
      * intros [H | [x [[E | Hx] H]]].
        -- left. now left.
        -- subst x. left. now right.
        -- right. exists x. split; assumption.
Qed.

Lemma empty_graph_simple : simple_graph empty_graph.
Proof. split; constructor. Qed.

(** The graph of a mapping: no node or edge stored twice, the nodes are the
    prefixes and suffixes of the k-mers, the edges join the prefix of a k-mer
    to its suffix. *)
Lemma build_graph_spec (kmer_dict : Counter) :
  simple_graph (build_graph kmer_dict) /\
  (forall n, In n (nodes (build_graph kmer_dict)) <->
     exists kmer, In kmer (map fst kmer_dict) /\ (n = removelast kmer \/ n = tl kmer)) /\
  (forall u v, has_edge (build_graph kmer_dict) u v <->
     exists kmer, In kmer (map fst kmer_dict) /\ u = removelast kmer /\ v = tl kmer).
Proof.
  destruct (build_graph_from kmer_dict empty_graph empty_graph_simple) as [Hs [Hn He]].
  split; [exact Hs|]. split.
  - intros n. rewrite (Hn n). simpl. tauto.
  - intros u v. rewrite (He u v). unfold has_edge at 1. simpl.
    split; [intros [[w []] | H]; assumption | auto].
Qed.

(** ** A walk inside a chain *)

Lemma walk_is_segment (p walk : list node) :
  NoDup p -> walk <> [] -> (forall x, In x walk -> In x p) -> walk_in p walk ->
  exists l1 l2, p = l1 ++ walk ++ l2.
Proof.
  intros Hnd. induction walk as [|x walk IH]; intros Hne Hin Hw; [congruence|].
  destruct walk as [|y walk].
  - destruct (in_split x p) as [l1 [l2 E]]; [apply Hin; now left|]. now exists l1, l2.
  - destruct Hw as [[a [b Hadj]] Hw].
    destruct IH as [l1 [l2 E]]; [discriminate | intros z Hz; apply Hin; now right | assumption|].
    assert (H : a ++ [x] = l1 /\ b = walk ++ l2).
    { apply (split_unique y).
      - rewrite <- app_assoc. simpl. now rewrite <- Hadj.
      - rewrite <- app_assoc. simpl. rewrite <- Hadj. exact E. }
    destruct H as [<- ->]. exists a, l2. rewrite Hadj. reflexivity.
Qed.

Lemma segment_is_all (p walk l1 l2 : list node) :
  NoDup p -> p = l1 ++ walk ++ l2 -> (forall x, In x p -> In x walk) -> p = walk.
Proof.
  intros Hnd E Hall.
  assert (H1 : l1 = []).
  { destruct l1 as [|z l1]; [reflexivity|]. exfalso.
    assert (Hz : In z walk) by (apply Hall; rewrite E; now left).
    rewrite E in Hnd. simpl in Hnd. inversion Hnd; subst.
    apply H1. apply in_or_app. right. apply in_or_app. now left. }
  subst l1. simpl in E.
  assert (H2 : l2 = []).
  { destruct l2 as [|z l2]; [reflexivity|]. exfalso.
    assert (Hz : In z walk) by (apply Hall; rewrite E; apply in_or_app; right; now left).
    rewrite E in Hnd. apply NoDup_remove_2 in Hnd. apply Hnd.
    apply in_or_app. now left. }
  subst l2. now rewrite app_nil_r in E.
Qed.

Lemma walk_in_map (p : list node) (f : nat -> node) (n a : nat) :
  (forall i, (a <= i < a + n)%nat -> adjacent p (f i) (f (S i))) ->
  walk_in p (map f (seq a (S n))).
Proof.
  revert a. induction n as [|n IH]; intros a H; [exact I|].
  change (map f (seq a (S (S n)))) with (f a :: map f (seq (S a) (S n))).
  change (map f (seq (S a) (S n))) with (f (S a) :: map f (seq (S (S a)) n)).
  split.
  - apply H. lia.
  - change (f (S a) :: map f (seq (S (S a)) n)) with (map f (seq (S a) (S n))).
    apply IH. intros i Hi. apply H. lia.
Qed.

(** ** Round trip through build and extract *)

Lemma adjacent_irrefl (p : list node) (u : node) : NoDup p -> ~ adjacent p u u.
Proof.
  intros Hnd [l1 [l2 E]]. rewrite E in Hnd. apply NoDup_remove_2 in Hnd.
  apply Hnd. apply in_or_app. right. now left.
Qed.

(** For a size [k <= 0] the last window, at index [len(read) - k], is empty. *)
Lemma cut_kmer_nonpos (read : str) (k : Z) : k <= 0 -> In [] (cut_kmer read k).
Proof.
  intros Hk. unfold cut_kmer. apply in_map_iff. exists (len read - k). split.
  - unfold slice, clip, len.
    replace (Z.of_nat (length read) - k <? 0) with false
      by (symmetry; apply Z.ltb_ge; lia).
    rewrite (Z.min_r (Z.of_nat (length read) - k)) by lia.
    rewrite Nat2Z.id, skipn_all. apply firstn_nil.
  - unfold range.
    replace (len read - k) with (Z.of_nat (Z.to_nat (len read - k)))
      by (unfold len; lia).
    apply in_map. apply in_seq. unfold len. lia.
Qed.

(** C8.  A read [s] of length at least [k] whose graph is a single linear
    chain is given back by [get_contigs], called with the starting and the
    sink nodes of the graph, as the only contig, with its length.  (A size
    [k] below 1 or a repeated window never gives a linear chain.) *)
Theorem contig_of_linear_chain_is_the_read (s : str) (k : Z) (kmer_dict : Counter) :
  k <= len s ->
  build_kmer_dict [s] k = OK kmer_dict ->
  is_linear_chain (build_graph kmer_dict) ->
  get_contigs (build_graph kmer_dict)
              (get_starting_nodes (build_graph kmer_dict))
              (get_sink_nodes (build_graph kmer_dict))
  = OK [(s, len s)].
Proof.
  intros Hks Hdict [p Hchain].
  pose proof Hchain as [Hnd [Hpn Hpe]].
  destruct (build_graph_spec kmer_dict) as [Hsimple [Hn He]].
  pose proof (build_kmer_dict_keys s k kmer_dict Hdict) as Hkeys.
  (* a size [k <= 0] gives an empty k-mer, hence a loop on the empty node *)
  assert (Hk : 0 < k).
  { destruct (Z.lt_ge_cases 0 k) as [H | H]; [exact H | exfalso].
    apply (adjacent_irrefl p []); [assumption|].
    apply Hpe, He. exists []. split; [|split; reflexivity].
    apply Hkeys. apply cut_kmer_nonpos. lia. }
  rewrite (cut_kmer_windows s k Hk Hks) in Hkeys.
  destruct (Z.to_nat k) as [|w] eqn:Ek; [lia|].
  assert (HwL : (S w <= length s)%nat) by (unfold len in Hks; lia).
  set (m := (length s - S w + 1)%nat) in *.
  assert (Hm : (1 <= m)%nat) by (unfold m; lia).
  assert (Hkmer : forall i, (i < m)%nat -> In (window (S w) s i) (map fst kmer_dict)).
  { intros i Hi. apply Hkeys. apply in_map. apply in_seq. lia. }
  assert (Hpre : forall i, (i < m)%nat -> removelast (window (S w) s i) = window w s i).
  { intros i Hi. apply removelast_window. unfold m in Hi. lia. }
  set (walk := map (window w s) (seq 0 (S m))).
  (* the windows of width [k - 1] walk along the edges of the graph *)
  assert (Hedge : forall i, (i < m)%nat ->
                            has_edge (build_graph kmer_dict) (window w s i) (window w s (S i))).
  { intros i Hi. apply He. exists (window (S w) s i).
    split; [now apply Hkmer|]. now rewrite Hpre, tl_window. }
  assert (Hwalk_nodes : forall x, In x walk -> In x p).
  { intros x Hx. apply in_map_iff in Hx as [i [<- Hi]]. apply in_seq in Hi.
    apply Hpn, Hn. destruct (Nat.eq_dec i m) as [-> | Hne].
    - exists (window (S w) s (m - 1)). split; [apply Hkmer; lia|].
      right. rewrite tl_window. f_equal. lia.
    - exists (window (S w) s i). split; [apply Hkmer; lia|].
      left. rewrite Hpre by lia. reflexivity. }
  assert (Hnodes_walk : forall x, In x p -> In x walk).
  { intros x Hx. apply Hpn, Hn in Hx as [kmer [Hkm Hx]].
    apply Hkeys in Hkm. apply in_map_iff in Hkm as [i [<- Hi]]. apply in_seq in Hi.
    unfold walk. apply in_map_iff. destruct Hx as [-> | ->].
    - exists i. split; [rewrite Hpre by lia; reflexivity | apply in_seq; lia].
    - exists (S i). split; [now rewrite tl_window | apply in_seq; lia]. }
  assert (Hwalk : walk_in p walk).
  { apply walk_in_map. intros i Hi. apply Hpe, Hedge. lia. }
  (* so they are the chain *)
  assert (Hp : p = walk).
  { destruct (walk_is_segment p walk Hnd) as [l1 [l2 E]]; auto; [discriminate|].
    exact (segment_is_all p walk l1 l2 Hnd E Hnodes_walk). }
  subst p.
  (* the nodes are not empty *)
  assert (Hw : (1 <= w)%nat).
  { destruct w as [|w]; [exfalso | lia].
    destruct m as [|m']; [lia|].
    change walk with (window 0 s 0 :: window 0 s 1 :: map (window 0 s) (seq 2 m')) in Hnd.
    inversion Hnd; subst. apply H1. now left. }
  assert (Hfront : walk = map (window w s) (seq 0 m) ++ [window w s m]).
  { unfold walk. rewrite seq_S, map_app. reflexivity. }
  assert (Hne : window w s 0 <> window w s m).
  { intros E. change walk with (window w s 0 :: map (window w s) (seq 1 m)) in Hnd.
    inversion Hnd; subst. apply H1. rewrite E. apply in_map. apply in_seq. lia. }
  destruct (chain_get_contigs (build_graph kmer_dict) walk
              (map (window w s) (seq 1 m)) (map (window w s) (seq 0 m))
              (window w s 0) (window w s m) (s, len s))
    as [_ [_ H]]; auto.
  apply contig_of_windows; [assumption | unfold m; lia].
Qed.

Lemma adjacent_pairs (p : list node) (u v : node) :
  adjacent p u v <-> In (u, v) (combine p (tl p)).
Proof.
  split.
  - intros [l1 [l2 ->]]. induction l1 as [|a l1 IH]; simpl; [now left|].
    destruct (l1 ++ u :: v :: l2) as [|b q] eqn:E; [destruct l1; discriminate|].
    right. exact IH.
  - induction p as [|a q IH]; simpl; [tauto|].
    destruct q as [|b q]; simpl; [tauto|].
    intros [E | H].
    + inversion E; subst. now exists [], q.
    + destruct (IH H) as [l1 [l2 E]]. exists (a :: l1), l2. simpl. now rewrite E.
Qed.

Lemma sample_chain : is_linear_chain (build_graph sample_kmers).
Proof.
  exists [py "AAC"; py "ACC"; py "CCG"; py "CGG"; py "GGT"; py "GTT"; py "TTA"].
  split; [|split].
  - repeat constructor; simpl; intuition discriminate.
  - intros n. change (nodes (build_graph sample_kmers))
      with [py "AAC"; py "ACC"; py "CCG"; py "CGG"; py "GGT"; py "GTT"; py "TTA"].
    tauto.
  - intros u v. rewrite has_edge_pairs, adjacent_pairs. apply iff_refl.
Qed.

Lemma contig_of_linear_chain_is_the_read_witness :
  (4 <= len (py "AACCGGTTA") /\
   build_kmer_dict [py "AACCGGTTA"] 4 = OK sample_kmers /\
   is_linear_chain (build_graph sample_kmers)) /\
  get_contigs (build_graph sample_kmers)
              (get_starting_nodes (build_graph sample_kmers))
              (get_sink_nodes (build_graph sample_kmers))
  = OK [(py "AACCGGTTA", len (py "AACCGGTTA"))].
Proof.
  split.
  - split; [intros H; discriminate H|]. split; [reflexivity | exact sample_chain].
  - apply (contig_of_linear_chain_is_the_read (py "AACCGGTTA") 4 sample_kmers).
    + intros H; discriminate H.
    + reflexivity.
    + exact sample_chain.
Defined.

(** ** The selector on sample inputs *)

Lemma sample_randbelow_range (n : Z) (s : Sample.rng) :
  0 < n -> 0 <= fst (Sample.randbelow n s) < n.
Proof.
  intros H. unfold Sample.randbelow. simpl. apply Z.mod_pos_bound. assumption.
Qed.

(** C2, as stated, fails on [shared_bubble]: the paths are the two simple
    paths from [a] to [d], their averages 5.0 and 2.3333333333333335 (the
    float of 7/3) differ, the winner is the first path [a, b, c, d], and its
    node [b], an interior node of the loser too, is removed from the
    graph. *)
Lemma select_best_path_removes_shared_node :
  all_simple_paths shared_bubble (py "a") (py "d") = OK shared_paths /\
  mapM (consecutive_average shared_bubble) shared_paths = OK shared_weights /\
  stdev_positive shared_weights = OK true /\
  best_path_index Sample.randbelow shared_paths [4; 4] shared_weights Sample.seed
  = OK (0, Sample.seed) /\
  select_best_path Sample.randbelow shared_bubble shared_paths [4; 4] shared_weights
                   false false Sample.seed
  = Done (mkDiGraph [py "a"; py "c"; py "d"] [(py "c", py "d", 5)]) Sample.seed /\
  In (py "b") [py "a"; py "b"; py "c"; py "d"] /\
  In (py "b") (nodes shared_bubble) /\
  ~ In (py "b") [py "a"; py "c"; py "d"].
Proof.
  do 5 (split; [reflexivity|]).
  split; [simpl; tauto|].
  split; [vm_compute; tauto|].
  simpl. intuition discriminate.
Qed.

Lemma select_best_path_by_weight_witness :
  (2 <= len shared_paths /\ len shared_weights = len shared_paths /\
   stdev_positive shared_weights = OK true) /\
  exists best winner graph',
    first_max shared_weights best /\
    nth_error shared_paths best = Some winner /\
    select_best_path Sample.randbelow shared_bubble shared_paths [4; 4] shared_weights
                     false false Sample.seed
    = Done graph' Sample.seed /\
    (forall n, In n (nodes graph') <->
               In n (nodes shared_bubble) /\ ~ lost shared_paths false false (Z.of_nat best) n) /\
    (forall e, In e (edges graph') <->
               In e (edges shared_bubble)
               /\ ~ lost shared_paths false false (Z.of_nat best) (src e)
               /\ ~ lost shared_paths false false (Z.of_nat best) (dst e)) /\
    (forall n, In n winner -> In n (nodes shared_bubble) ->
               ~ lost shared_paths false false (Z.of_nat best) n -> In n (nodes graph')).
Proof.
  split.
  - split; [intros H; discriminate H|]. split; reflexivity.
  - apply (select_best_path_by_weight Sample.randbelow shared_bubble shared_paths [4; 4]
             shared_weights false false Sample.seed).
    + intros H; discriminate H.
    + reflexivity.
    + reflexivity.
Defined.

(** C6, as stated, fails on [diamond] with the flags of [solve_entry_tips]:
    the call changes the graph, and the first node [a] of the winning path
    [a, b, d], which is the first node of the loser too, is removed. *)
Lemma select_best_path_removes_winner_entry :
  all_simple_paths diamond (py "a") (py "d") = OK diamond_paths /\
  best_path_index Sample.randbelow diamond_paths [3; 3] [10 # 1; 2 # 1]%Q Sample.seed
  = OK (0, Sample.seed) /\
  select_best_path Sample.randbelow diamond diamond_paths [3; 3] [10 # 1; 2 # 1]%Q
                   true false Sample.seed
  = Done (mkDiGraph [py "b"; py "d"] [(py "b", py "d", 5)]) Sample.seed /\
  mkDiGraph [py "b"; py "d"] [(py "b", py "d", 5)] <> diamond /\
  In (py "a") [py "a"; py "b"; py "d"] /\
  In (py "a") (nodes diamond) /\
  ~ In (py "a") [py "b"; py "d"].
Proof.
  do 3 (split; [reflexivity|]).
  split; [intros H; discriminate H|].
  split; [simpl; tauto|].
  split; [vm_compute; tauto|].
  simpl. intuition discriminate.
Qed.

Lemma select_best_path_tie_is_the_draw_witness :
  (len [5 # 1; 5 # 1]%Q = len diamond_paths /\
   stdev_positive [5 # 1; 5 # 1]%Q = OK false /\
   stdev_positive (map inject_Z [3; 3]) = OK false /\
   uniform_below Sample.randbelow [9000; 9001] (len diamond_paths)) /\
  tally (winner_of Sample.randbelow diamond_paths [3; 3] [5 # 1; 5 # 1]%Q) 0 [9000; 9001]
  = 1%nat /\
  tally (winner_of Sample.randbelow diamond_paths [3; 3] [5 # 1; 5 # 1]%Q) 1 [9000; 9001]
  = 1%nat /\
  select_best_path Sample.randbelow diamond diamond_paths [3; 3] [5 # 1; 5 # 1]%Q
                   false false Sample.seed
  = Done (mkDiGraph [py "a"; py "d"; py "c"] [(py "a", py "c", 1); (py "c", py "d", 1)])
         (snd (Sample.randbelow 2 Sample.seed)) /\
  (forall r,
     let draw := Sample.randbelow (len diamond_paths) r in
     best_path_index Sample.randbelow diamond_paths [3; 3] [5 # 1; 5 # 1]%Q r = OK draw /\
     select_best_path Sample.randbelow diamond diamond_paths [3; 3] [5 # 1; 5 # 1]%Q
                      false false r
     = Done (remove_paths diamond (paths_to_remove diamond_paths (fst draw)) false false)
            (snd draw)).
Proof.
  assert (U : uniform_below Sample.randbelow [9000; 9001] (len diamond_paths)).
  { split.
    - intros s _. apply sample_randbelow_range. reflexivity.
    - intros i j Hi Hj. change (len diamond_paths) with 2 in *.
      assert (Ei : i = 0 \/ i = 1) by lia. assert (Ej : j = 0 \/ j = 1) by lia.
      destruct Ei as [-> | ->], Ej as [-> | ->]; reflexivity. }
  split; [do 3 (split; [reflexivity|]); exact U|].
  do 3 (split; [reflexivity|]).
  apply (select_best_path_tie_is_the_draw Sample.randbelow diamond diamond_paths [3; 3]
           [5 # 1; 5 # 1]%Q false false [9000; 9001]).
  - reflexivity.
  - reflexivity.
  - reflexivity.
  - exact U.
Defined.

(** * Further properties of the program *)

(** ** The reader *)

Lemma lstrip_spaces (ws t : str) :
  (forall c, In c ws -> isspace c = true) -> lstrip (ws ++ t) = lstrip t.
Proof.
  induction ws as [|c ws IH]; intros H; simpl; [reflexivity|].
  rewrite (H c) by now left. apply IH. intros c' Hc'. apply H. now right.
Qed.

Lemma lstrip_clean (s : str) : starts_clean s -> lstrip s = s.
Proof.
  destruct s as [|c s]; simpl; [reflexivity|]. now intros ->.
Qed.

Lemma starts_clean_app (s t : str) : s <> [] -> starts_clean s -> starts_clean (s ++ t).
Proof.
  destruct s as [|c s]; [congruence|]. simpl. auto.
Qed.

(** [strip] removes the white space that ends a line and leaves a bare
    sequence as it is. *)
Lemma strip_line (s ws : str) :
  bare s -> (forall c, In c ws -> isspace c = true) -> strip (s ++ ws) = s.
Proof.
  intros [Hs Hr] Hws. unfold strip.
  destruct s as [|c s].
  - simpl. rewrite <- (app_nil_r ws), lstrip_spaces by assumption. reflexivity.
  - rewrite (lstrip_clean ((c :: s) ++ ws)) by (apply starts_clean_app; [discriminate | assumption]).
    rewrite rev_app_distr, lstrip_spaces.
    + rewrite (lstrip_clean _ Hr). apply rev_involutive.
    + intros c' Hc'. apply Hws. now apply in_rev.
Qed.

Lemma read_fastq_step (a b c d : str) (l : list str) :
  read_fastq (a :: b :: c :: d :: l)
  = (strip b :: fst (read_fastq l), snd (read_fastq l)).
Proof.
  simpl. now destruct (read_fastq l).
Qed.

(** X1.  A file made of whole records is read without error, and the reads
    are the sequences of the records, in order, without the white space that
    ends their lines. *)
Theorem read_fastq_whole_records (recs : list (str * str * str * str * str)) :
  (forall rec, In rec recs ->
     bare (record_sequence rec) /\
     forall c, In c (record_space rec) -> isspace c = true) ->
  read_fastq (flat_map record_lines recs) = (map record_sequence recs, None).
Proof.
  induction recs as [|[[[[h s] ws] p] q] recs IH]; intros H; [reflexivity|].
  change (flat_map record_lines ((h, s, ws, p, q) :: recs))
    with (h :: (s ++ ws) :: p :: q :: flat_map record_lines recs).
  rewrite read_fastq_step, IH by (intros rec Hrec; apply H; now right).
  destruct (H (h, s, ws, p, q) (or_introl eq_refl)) as [Hb Hw].
  simpl in Hb, Hw. rewrite strip_line by assumption. reflexivity.
Qed.

Lemma read_fastq_whole_records_witness :
  (forall rec, In rec [(py "@r1", py "ACGT", ["010"%char], py "+", py "IIII")] ->
     bare (record_sequence rec) /\
     forall c, In c (record_space rec) -> isspace c = true) /\
  read_fastq (flat_map record_lines [(py "@r1", py "ACGT", ["010"%char], py "+", py "IIII")])
  = (map record_sequence [(py "@r1", py "ACGT", ["010"%char], py "+", py "IIII")], None).
Proof.
  assert (H : forall rec, In rec [(py "@r1", py "ACGT", ["010"%char], py "+", py "IIII")] ->
     bare (record_sequence rec) /\
     forall c, In c (record_space rec) -> isspace c = true).
  { intros rec [<- | []]. split; [split; reflexivity|].
    intros c [<- | []]. reflexivity. }
  split; [exact H|].
  exact (read_fastq_whole_records _ H).
Defined.

Lemma list_ind4 {A : Type} (P : list A -> Prop) :
  P [] -> (forall a, P [a]) -> (forall a b, P [a; b]) -> (forall a b c, P [a; b; c]) ->
  (forall a b c d l, P l -> P (a :: b :: c :: d :: l)) ->
  forall l, P l.
Proof.
  intros H0 H1 H2 H3 H4 l.
  assert (H : P l /\ (forall a, P (a :: l)) /\ (forall a b, P (a :: b :: l))
              /\ (forall a b c, P (a :: b :: c :: l))).
  { induction l as [|x l [Ha [Hb [Hc Hd]]]]; [auto|].
    repeat split; auto. }
  tauto.
Qed.

(** X2.  The reader ends without error exactly when the number of lines is
    a multiple of four; otherwise a [next(lines)] of the loop body fails and
    the generator raises [RuntimeError], which [build_kmer_dict] lets
    through. *)
Theorem read_fastq_needs_whole_records (lines : list str) (kmer_size : Z) :
  (snd (read_fastq lines) = None <-> (length lines mod 4 = 0)%nat) /\
  ((length lines mod 4 <> 0)%nat ->
   snd (read_fastq lines) = Some RuntimeError /\
   build_kmer_dict_of_lines lines kmer_size = Crashed RuntimeError).
Proof.
  assert (H : (length lines mod 4 = 0)%nat /\ snd (read_fastq lines) = None \/
              (length lines mod 4 <> 0)%nat /\ snd (read_fastq lines) = Some RuntimeError).
  { induction lines as [| a | a b | a b c | a b c d l IH] using list_ind4;
      try (right; split; [simpl; discriminate | reflexivity]).
    - left. split; reflexivity.
    - change (length (a :: b :: c :: d :: l)) with (4 + length l)%nat.
      replace ((4 + length l) mod 4)%nat with (length l mod 4)%nat
        by (rewrite <- (Nat.Div0.add_mod_idemp_l 4 (length l) 4); reflexivity).
      rewrite read_fastq_step. exact IH. }
  split.
  - destruct H as [[H1 H2] | [H1 H2]]; [tauto|]. rewrite H2. split; [discriminate | tauto].
  - intros Hn. destruct H as [[H1 H2] | [H1 H2]]; [contradiction|].
    split; [assumption|]. unfold build_kmer_dict_of_lines.
    destruct (read_fastq lines) as [reads ending]. simpl in H2. now rewrite H2.
Qed.

(** ** The k-mer counter, again *)

Lemma window_length (w : nat) (s : str) (i : nat) :
  (i + w <= length s)%nat -> length (window w s i) = w.
Proof.
  intros H. unfold window. rewrite length_firstn, length_skipn. lia.
Qed.

Lemma cut_kmer_number_and_size_aux (read : str) (k : Z) :
  0 < k -> len (cut_kmer read k) = Z.max 0 (len read - k + 1).
Proof.
  intros Hk. destruct (Z.lt_ge_cases (len read) k) as [Hshort | Hlong].
  - rewrite cut_kmer_short by assumption. unfold len in *. simpl. lia.
  - rewrite cut_kmer_windows by lia.
    unfold len in *. rewrite length_map, length_seq. lia.
Qed.

(** X3.  For a positive size [k], [cut_kmer] yields one k-mer per window of
    the read, each of length [k], and none for a read shorter than [k]. *)
Theorem cut_kmer_number_and_size (read : str) (k : Z) :
  0 < k ->
  len (cut_kmer read k) = Z.max 0 (len read - k + 1) /\
  forall kmer, In kmer (cut_kmer read k) -> len kmer = k.
Proof.
  intros Hk. destruct (Z.lt_ge_cases (len read) k) as [Hshort | Hlong].
  - rewrite cut_kmer_short by assumption.
    split; [unfold len in *; simpl; lia | intros kmer []].
  - rewrite cut_kmer_windows by lia. split.
    + unfold len in *. rewrite length_map, length_seq. lia.
    + intros kmer Hin. apply in_map_iff in Hin as [i [<- Hi]]. apply in_seq in Hi.
      unfold len in *. rewrite window_length; lia.
Qed.

Lemma cut_kmer_number_and_size_witness :
  0 < 4 /\
  len (cut_kmer (py "AACCGGTT") 4) = Z.max 0 (len (py "AACCGGTT") - 4 + 1) /\
  forall kmer, In kmer (cut_kmer (py "AACCGGTT") 4) -> len kmer = 4.
Proof.
  split; [reflexivity|].
  apply (cut_kmer_number_and_size (py "AACCGGTT") 4). reflexivity.
Defined.

Lemma counter_add_fresh (c : Counter) (k : str) (n : Z) :
  ~ In k (map fst c) -> counter_add c k n = c ++ [(k, n)].
Proof.
  induction c as [|[k' v] c IH]; simpl; intros H; [reflexivity|].
  replace (str_eqb k' k) with false
    by (symmetry; apply str_eqb_neq; intros ->; apply H; now left).
  rewrite IH; [reflexivity|]. intros Hin. apply H. now right.
Qed.

Lemma counter_add_NoDup (c : Counter) (k : str) (n : Z) :
  NoDup (map fst c) -> NoDup (map fst (counter_add c k n)).
Proof.
  induction c as [|[k' v] c IH]; simpl; intros H.
  - constructor; [intros [] | constructor].
  - inversion H; subst. destruct (str_eqb k' k) eqn:E; simpl.
    + constructor; assumption.
    + constructor; [|auto]. rewrite counter_add_keys. intros [Hin | ->]; [contradiction|].
      rewrite str_eqb_refl in E. discriminate.
Qed.

Lemma Counter_of_NoDup (l : list str) : NoDup (map fst (Counter_of l)).
Proof.
  unfold Counter_of.
  assert (H : forall c, NoDup (map fst c) ->
                        NoDup (map fst (fold_left (fun c k => counter_add c k 1) l c))).
  { induction l as [|k l IH]; intros c Hc; simpl; [assumption|].
    apply IH. now apply counter_add_NoDup. }
  apply H. constructor.
Qed.

(** Adding a counter with unique keys to the empty counter gives it back. *)
Lemma add_all_fresh (other self : Counter) :
  NoDup (map fst other) ->
  (forall k, In k (map fst other) -> ~ In k (map fst self)) ->
  fold_left (fun c kv => counter_add c (fst kv) (snd kv)) other self = self ++ other.
Proof.
  revert self. induction other as [|[k v] other IH]; intros self Hnd Hdis; simpl.
  - now rewrite app_nil_r.
  - inversion Hnd; subst. rewrite counter_add_fresh by (apply Hdis; now left).
    rewrite IH; [now rewrite <- app_assoc | assumption |].
    intros k' Hk'. rewrite map_app, in_app_iff. simpl. intros [Hin | [<- | []]].
    + apply (Hdis k'); [now right | assumption].
    + contradiction.
Qed.

Lemma Counter_iadd_empty (l : list str) : Counter_iadd [] (Counter_of l) = Counter_of l.
Proof.
  unfold Counter_iadd. rewrite add_all_fresh; [| apply Counter_of_NoDup | intros k _ []].
  simpl. unfold keep_positive. apply filter_all. intros kv Hkv. apply Z.ltb_lt.
  destruct (count_all_spec l []) as [Hpos _]; [intros kv' []|]. now apply Hpos.
Qed.

Lemma count_of_counter_add (c : Counter) (k : str) (n : Z) (x : str) :
  count_of (counter_add c k n) x = count_of c x + (if str_eqb k x then n else 0).
Proof.
  induction c as [|[k' v] c IH]; simpl.
  - destruct (str_eqb k x); lia.
  - destruct (str_eqb k' k) eqn:E; simpl.
    + apply str_eqb_eq in E. subst k'. destruct (str_eqb k x); lia.
    + destruct (str_eqb k' x) eqn:E'; [|exact IH].
      apply str_eqb_eq in E'. subst k'. rewrite str_eqb_sym, E. lia.
Qed.

Lemma count_of_Counter_of (l : list str) (x : str) :
  count_of (Counter_of l) x = occurrences l x.
Proof.
  unfold Counter_of.
  assert (H : forall c, count_of (fold_left (fun c k => counter_add c k 1) l c) x
                        = count_of c x + occurrences l x).
  { induction l as [|k l IH]; intros c; simpl.
    - unfold occurrences, len. simpl. lia.
    - rewrite IH, count_of_counter_add. unfold occurrences, len. simpl.
      rewrite (str_eqb_sym x k). destruct (str_eqb k x); simpl length; lia. }
  rewrite H. reflexivity.
Qed.

Lemma total_counter_add (c : Counter) (k : str) (n : Z) :
  total (counter_add c k n) = total c + n.
Proof.
  unfold total. induction c as [|[k' v] c IH]; simpl; [lia|].
  destruct (str_eqb k' k); simpl; lia.
Qed.

Lemma total_Counter_of (l : list str) : total (Counter_of l) = len l.
Proof.
  unfold Counter_of.
  assert (H : forall c, total (fold_left (fun c k => counter_add c k 1) l c)
                        = total c + len l).
  { induction l as [|k l IH]; intros c; simpl.
    - unfold len. simpl. lia.
    - rewrite IH, total_counter_add. unfold len. simpl length. lia. }
  rewrite H. reflexivity.
Qed.

Lemma build_kmer_dict_is_last_counter (reads : list str) (r : str) (k : Z) :
  build_kmer_dict (reads ++ [r]) k = OK (Counter_of (cut_kmer r k)).
Proof.
  rewrite build_kmer_dict_last_read. unfold build_kmer_dict. simpl.
  now rewrite Counter_iadd_empty.
Qed.

(** X4.  The mapping returned for a sequence of reads is the counter of the
    k-mers of its last read: every key occurs once, and the value of a
    string is the number of windows of the last read that hold it (0 for a
    string that is no key). *)
Theorem build_kmer_dict_counts_occurrences (reads : list str) (r : str) (k : Z) :
  exists kmer_dict,
    build_kmer_dict (reads ++ [r]) k = OK kmer_dict /\
    NoDup (map fst kmer_dict) /\
    (forall kv, In kv kmer_dict -> 1 <= snd kv) /\
    (forall x, count_of kmer_dict x = occurrences (cut_kmer r k) x) /\
    (forall x, In x (map fst kmer_dict) <-> In x (cut_kmer r k)).
Proof.
  exists (Counter_of (cut_kmer r k)).
  split; [apply build_kmer_dict_is_last_counter|].
  split; [apply Counter_of_NoDup|].
  destruct (count_all_spec (cut_kmer r k) []) as [Hpos Hkeys]; [intros kv []|].
  split; [intros kv Hkv; apply Hpos in Hkv; lia|].
  split; [apply count_of_Counter_of|].
  intros x. unfold Counter_of. rewrite Hkeys. simpl. tauto.
Qed.

(** X5.  For a positive size [k], the counts of the returned mapping add up
    to the number of windows of the last read. *)
Theorem build_kmer_dict_total_of_last_read (reads : list str) (r : str) (k : Z) :
  0 < k ->
  exists kmer_dict,
    build_kmer_dict (reads ++ [r]) k = OK kmer_dict /\
    total kmer_dict = Z.max 0 (len r - k + 1).
Proof.
  intros Hk. exists (Counter_of (cut_kmer r k)).
  split; [apply build_kmer_dict_is_last_counter|].
  rewrite total_Counter_of. now apply cut_kmer_number_and_size_aux.
Qed.

Lemma build_kmer_dict_total_of_last_read_witness :
  0 < 4 /\
  exists kmer_dict,
    build_kmer_dict ([py "AACCGGTT"] ++ [py "ACCGGTTA"]) 4 = OK kmer_dict /\
    total kmer_dict = Z.max 0 (len (py "ACCGGTTA") - 4 + 1).
Proof.
  split; [reflexivity|].
  apply (build_kmer_dict_total_of_last_read [py "AACCGGTT"] (py "ACCGGTTA") 4). reflexivity.
Defined.

(** ** The graph builder, again *)

Lemma set_weight_origin (es : list edge) (u v : node) (w : Z) (e : edge) :
  In e (set_weight es u v w) -> In e es \/ e = (u, v, w).
Proof.
  induction es as [|e' es IH]; simpl.
  - intros [<- | []]. now right.
  - destruct (str_eqb (src e') u && str_eqb (dst e') v).
    + intros [<- | H]; auto.
    + intros [<- | H]; auto. destruct (IH H); auto.
Qed.

Lemma add_edge_closed (g : DiGraph) (u v : node) (w : Z) :
  closed_graph g -> closed_graph (add_edge g u v w).
Proof.
  intros Hc e He. unfold add_edge in He. simpl in He.
  rewrite !add_node_edges in He. rewrite !add_edge_nodes.
  destruct (set_weight_origin _ _ _ _ _ He) as [H | ->].
  - destruct (Hc e H). tauto.
  - unfold src, dst. simpl. tauto.
Qed.

Lemma add_edge_ok (g : DiGraph) (u v : node) (w : Z) :
  graph_ok g -> graph_ok (add_edge g u v w).
Proof.
  intros [Hs Hc]. split; [now apply add_edge_simple | now apply add_edge_closed].
Qed.

Lemma build_graph_ok_from (kmer_dict : Counter) (g0 : DiGraph) :
  graph_ok g0 ->
  graph_ok (fold_left
              (fun digraph kv => add_edge digraph (removelast (fst kv)) (tl (fst kv)) (snd kv))
              kmer_dict g0).
Proof.
  revert g0. induction kmer_dict as [|kv d IH]; intros g0 H; simpl; [assumption|].
  apply IH. now apply add_edge_ok.
Qed.

Lemma empty_graph_ok : graph_ok empty_graph.
Proof.
  split; [apply empty_graph_simple | intros e []].
Qed.

(** X6.  The graph built from a mapping stores no node and no edge twice,
    its edges join nodes of the graph, its nodes are the prefixes and the
    suffixes of the k-mers, every node lies on an edge, and no node is both
    a starting node and a sink. *)
Theorem build_graph_well_formed (kmer_dict : Counter) :
  graph_ok (build_graph kmer_dict) /\
  (forall n, In n (nodes (build_graph kmer_dict)) <->
     exists kmer, In kmer (map fst kmer_dict) /\ (n = removelast kmer \/ n = tl kmer)) /\
  (forall n, In n (nodes (build_graph kmer_dict)) ->
     exists m, has_edge (build_graph kmer_dict) n m \/ has_edge (build_graph kmer_dict) m n) /\
  (forall n, In n (get_starting_nodes (build_graph kmer_dict)) ->
             ~ In n (get_sink_nodes (build_graph kmer_dict))).
Proof.
  destruct (build_graph_spec kmer_dict) as [Hs [Hn He]].
  assert (Hon : forall n, In n (nodes (build_graph kmer_dict)) ->
     exists m, has_edge (build_graph kmer_dict) n m \/ has_edge (build_graph kmer_dict) m n).
  { intros n Hin. apply Hn in Hin as [kmer [Hk [-> | ->]]].
    - exists (tl kmer). left. apply He. eauto.
    - exists (removelast kmer). right. apply He. eauto. }
  split; [exact (build_graph_ok_from kmer_dict empty_graph empty_graph_ok)|].
  split; [exact Hn|]. split; [exact Hon|].
  intros n Hstart Hsink.
  apply filter_In in Hstart as [Hin Hp]. apply filter_In in Hsink as [_ Hsu].
  destruct (Hon n Hin) as [m [[w Hw] | [w Hw]]].
  - assert (H : In m (succs (build_graph kmer_dict) n)).
    { unfold succs. apply in_map_iff. exists (n, m, w). split; [reflexivity|].
      apply filter_In. split; [assumption | apply str_eqb_refl]. }
    destruct (succs (build_graph kmer_dict) n); [destruct H | discriminate].
  - assert (H : In m (preds (build_graph kmer_dict) n)).
    { unfold preds. apply in_map_iff. exists (m, n, w). split; [reflexivity|].
      apply filter_In. split; [assumption | apply str_eqb_refl]. }
    destruct (preds (build_graph kmer_dict) n); [destruct H | discriminate].
Qed.

Lemma set_weight_In (es : list edge) (u v : node) (w : Z) (a b : node) (w' : Z) :
  NoDup (map fst es) ->
  (In (a, b, w') (set_weight es u v w) <->
   ((a, b) = (u, v) /\ w' = w) \/ ((a, b) <> (u, v) /\ In (a, b, w') es)).
Proof.
  induction es as [|e es IH]; simpl; intros Hnd.
  - split.
    + intros [E | []]. inversion E. auto.
    + intros [[E ->] | [_ []]]. inversion E. auto.
  - inversion Hnd; subst.
    destruct (str_eqb (src e) u && str_eqb (dst e) v) eqn:E; simpl.
    + apply same_pair in E. split.
      * intros [H | H]; [inversion H; auto|].
        right. split; [|now right]. intros Hab. apply H1. rewrite E, <- Hab.
        apply (in_map fst) in H. exact H.
      * intros [[Hab ->] | [Hab [H | H]]].
        -- left. inversion Hab. reflexivity.
        -- exfalso. apply Hab. rewrite <- E, H. reflexivity.
        -- now right.
    + assert (Hne : fst e <> (u, v)).
      { intros H. apply same_pair in H. congruence. }
      rewrite (IH H2). split.
      * intros [H | [H | [Hab H]]]; auto.
        right. split; [|now left]. intros Hab. apply Hne. rewrite H. exact Hab.
      * intros [H | [Hab [H | H]]]; auto.
Qed.

Lemma build_edges_from (kmer_dict : Counter) (g0 : DiGraph) :
  NoDup (map fst (edges g0)) ->
  NoDup (map (fun kv => ends_of (fst kv)) kmer_dict) ->
  forall a b w,
    In (a, b, w)
       (edges (fold_left
                 (fun digraph kv => add_edge digraph (removelast (fst kv)) (tl (fst kv)) (snd kv))
                 kmer_dict g0)) <->
    (exists kmer, In (kmer, w) kmer_dict /\ ends_of kmer = (a, b)) \/
    (In (a, b, w) (edges g0) /\
     ~ In (a, b) (map (fun kv => ends_of (fst kv)) kmer_dict)).
Proof.
  revert g0. induction kmer_dict as [|[kmer c] d IH]; intros g0 H0 Hnd a b w; simpl.
  - split; [intros H; right; tauto | intros [[x [[] _]] | [H _]]; exact H].
  - simpl in Hnd. apply NoDup_cons_iff in Hnd as [H1 Hnd].
    rewrite IH; [| simpl; apply set_weight_NoDup; now rewrite !add_node_edges | assumption].
    simpl edges. rewrite !add_node_edges, set_weight_In by assumption.
    change (removelast kmer, tl kmer) with (ends_of kmer).
    split.
    + intros [[x [Hx E]] | [[[Hab ->] | [Hab Hin]] Hn]].
      * left. exists x. split; [now right | assumption].
      * left. exists kmer. split; [now left | now symmetry].
      * right. split; [assumption|]. intros [E | Hd]; [|contradiction].
        apply Hab. now symmetry.
    + intros [[x [[E | Hx] Hab]] | [Hin Hn]].
      * inversion E; subst. right. split.
        -- left. split; [now symmetry | reflexivity].
        -- intros Hd. apply H1. now rewrite Hab.
      * left. eauto.
      * right. split.
        -- right. split; [|assumption]. intros E. apply Hn. left. now symmetry.
        -- intros Hd. apply Hn. now right.
Qed.

Lemma set_weight_fresh (es : list edge) (u v : node) (w : Z) :
  ~ In (u, v) (map fst es) -> set_weight es u v w = es ++ [(u, v, w)].
Proof.
  induction es as [|e es IH]; simpl; intros H; [reflexivity|].
  destruct (str_eqb (src e) u && str_eqb (dst e) v) eqn:E.
  - apply same_pair in E. exfalso. apply H. now left.
  - rewrite IH; [reflexivity|]. intros Hin. apply H. now right.
Qed.

Lemma build_edges_length (kmer_dict : Counter) (g0 : DiGraph) :
  NoDup (map (fun kv => ends_of (fst kv)) kmer_dict) ->
  (forall x, In x (map (fun kv => ends_of (fst kv)) kmer_dict) ->
             ~ In x (map fst (edges g0))) ->
  length (edges (fold_left
                   (fun digraph kv => add_edge digraph (removelast (fst kv)) (tl (fst kv)) (snd kv))
                   kmer_dict g0))
  = (length (edges g0) + length kmer_dict)%nat.
Proof.
  revert g0. induction kmer_dict as [|[kmer c] d IH]; intros g0 Hnd Hdis; simpl; [lia|].
  simpl in Hnd. apply NoDup_cons_iff in Hnd as [H1 Hnd].
  assert (Hfresh : ~ In (removelast kmer, tl kmer) (map fst (edges g0)))
    by (apply Hdis; now left).
  rewrite IH; [| assumption |].
  - simpl edges. rewrite !add_node_edges, set_weight_fresh by assumption.
    rewrite length_app. simpl. lia.
  - intros x Hx. simpl edges.
    rewrite !add_node_edges, set_weight_fresh, map_app, in_app_iff by assumption.
    simpl. intros [Hin | [E | []]].
    + apply (Hdis x); [now right | assumption].
    + apply H1. simpl in E. subst x. exact Hx.
Qed.

(** A k-mer of two characters or more is known by its prefix and suffix. *)
Lemma ends_of_inj (a b : str) : 2 <= len a -> ends_of a = ends_of b -> a = b.
Proof.
  unfold ends_of, len. intros Ha E. inversion E as [[Hr Ht]]. clear E.
  destruct a as [|x [|y a]]; simpl in Ha; try lia.
  destruct b as [|x' [|y' b]]; simpl in Ht; try discriminate.
  injection Ht as -> ->.
  change (x :: removelast (y' :: b) = x' :: removelast (y' :: b)) in Hr.
  now injection Hr as ->.
Qed.

Lemma NoDup_ends (kmer_dict : Counter) :
  NoDup (map fst kmer_dict) ->
  (forall kmer, In kmer (map fst kmer_dict) -> 2 <= len kmer) ->
  NoDup (map (fun kv => ends_of (fst kv)) kmer_dict).
Proof.
  induction kmer_dict as [|[kmer c] d IH]; simpl; intros Hnd Hlen; [constructor|].
  inversion Hnd; subst. constructor.
  - intros Hin. apply in_map_iff in Hin as [[kmer' c'] [E Hin]]. simpl in E.
    apply H1. apply ends_of_inj in E.
    + subst. apply (in_map fst) in Hin. exact Hin.
    + apply Hlen. right. apply (in_map fst) in Hin. exact Hin.
  - apply IH; auto.
Qed.

Lemma find_edge (es : list edge) (u v : node) (w : Z) :
  NoDup (map fst es) -> In (u, v, w) es ->
  find (fun e => str_eqb (src e) u && str_eqb (dst e) v) es = Some (u, v, w).
Proof.
  induction es as [|e es IH]; simpl; intros Hnd Hin; [destruct Hin|].
  inversion Hnd; subst.
  destruct (str_eqb (src e) u && str_eqb (dst e) v) eqn:E.
  - destruct Hin as [-> | Hin]; [reflexivity|].
    apply same_pair in E. exfalso. apply H1. rewrite E.
    apply (in_map fst) in Hin. exact Hin.
  - destruct Hin as [-> | Hin]; [|now apply IH].
    unfold src, dst in E. simpl in E. now rewrite !str_eqb_refl in E.
Qed.

(** X7.  For a mapping with unique keys of two characters or more, the graph
    has exactly one edge per k-mer, from its prefix to its suffix, and the
    weight of that edge is the count of the k-mer. *)
Theorem build_graph_one_edge_per_kmer (kmer_dict : Counter) :
  NoDup (map fst kmer_dict) ->
  (forall kmer, In kmer (map fst kmer_dict) -> 2 <= len kmer) ->
  (forall u v w, In (u, v, w) (edges (build_graph kmer_dict)) <->
     exists kmer, In (kmer, w) kmer_dict /\ u = removelast kmer /\ v = tl kmer) /\
  (forall kmer w, In (kmer, w) kmer_dict ->
     edge_weight (build_graph kmer_dict) (removelast kmer) (tl kmer) = OK w) /\
  length (edges (build_graph kmer_dict)) = length kmer_dict.
Proof.
  intros Hnd Hlen. pose proof (NoDup_ends kmer_dict Hnd Hlen) as Hends.
  assert (Hedges : forall u v w, In (u, v, w) (edges (build_graph kmer_dict)) <->
     exists kmer, In (kmer, w) kmer_dict /\ u = removelast kmer /\ v = tl kmer).
  { intros u v w. unfold build_graph.
    rewrite (build_edges_from kmer_dict empty_graph); [| constructor | assumption].
    split.
    - intros [[kmer [Hin E]] | [[] _]]. exists kmer. inversion E. auto.
    - intros [kmer [Hin [-> ->]]]. left. exists kmer. auto. }
  split; [exact Hedges|]. split.
  - intros kmer w Hin. unfold edge_weight.
    rewrite (find_edge _ _ _ w); [reflexivity | |].
    + apply (build_graph_spec kmer_dict).
    + apply Hedges. eauto.
  - unfold build_graph. rewrite build_edges_length; [reflexivity | assumption |].
    intros x _ [].
Qed.

Lemma build_graph_one_edge_per_kmer_witness :
  (NoDup (map fst sample_kmers) /\
   (forall kmer, In kmer (map fst sample_kmers) -> 2 <= len kmer)) /\
  (forall u v w, In (u, v, w) (edges (build_graph sample_kmers)) <->
     exists kmer, In (kmer, w) sample_kmers /\ u = removelast kmer /\ v = tl kmer) /\
  (forall kmer w, In (kmer, w) sample_kmers ->
     edge_weight (build_graph sample_kmers) (removelast kmer) (tl kmer) = OK w) /\
  length (edges (build_graph sample_kmers)) = length sample_kmers.
Proof.
  assert (H1 : NoDup (map fst sample_kmers))
    by (repeat constructor; simpl; intuition discriminate).
  assert (H2 : forall kmer, In kmer (map fst sample_kmers) -> 2 <= len kmer).
  { intros kmer Hin. simpl in Hin.
    repeat (destruct Hin as [<- | Hin]; [intros H; discriminate H|]). destruct Hin. }
  split; [split; assumption|].
  exact (build_graph_one_edge_per_kmer sample_kmers H1 H2).
Defined.

(** ** What the simplification does to the graph *)

Lemma remove_nodes_from_app (g : DiGraph) (l1 l2 : list node) :
  remove_nodes_from g (l1 ++ l2) = remove_nodes_from (remove_nodes_from g l1) l2.
Proof.
  unfold remove_nodes_from. apply fold_left_app.
Qed.

Lemma shrunk_refl (g : DiGraph) : shrunk g g.
Proof. now exists []. Qed.

Lemma shrunk_trans (g1 g2 g3 : DiGraph) : shrunk g1 g2 -> shrunk g2 g3 -> shrunk g1 g3.
Proof.
  intros [l1 ->] [l2 ->]. exists (l2 ++ l1). now rewrite remove_nodes_from_app.
Qed.

Lemma remove_paths_shrunk (ps : list (list node)) (de ds : bool) (g : DiGraph) :
  shrunk (remove_paths g ps de ds) g.
Proof.
  unfold remove_paths. revert g. induction ps as [|p ps IH]; intros g; simpl.
  - apply shrunk_refl.
  - eapply shrunk_trans; [apply IH|]. now exists (stripped de ds p).
Qed.

Lemma shrunk_nodes (g' g : DiGraph) (n : node) :
  shrunk g' g -> In n (nodes g') -> In n (nodes g).
Proof.
  intros [l ->] H. apply In_nodes_remove_nodes_from in H. tauto.
Qed.

Lemma shrunk_edges (g' g : DiGraph) (e : edge) :
  shrunk g' g -> In e (edges g') -> In e (edges g).
Proof.
  intros [l ->] H. apply In_edges_remove_nodes_from in H. tauto.
Qed.

Lemma remove_node_ok (g : DiGraph) (n : node) : graph_ok g -> graph_ok (remove_node g n).
Proof.
  intros [[Hn He] Hc]. split; [split|].
  - simpl. now apply NoDup_filter.
  - simpl. now apply NoDup_map_filter.
  - intros e H. apply In_edges_remove_node in H as [H [Hs Hd]].
    rewrite !In_nodes_remove_node. destruct (Hc e H). tauto.
Qed.

Lemma shrunk_ok (g' g : DiGraph) : shrunk g' g -> graph_ok g -> graph_ok g'.
Proof.
  intros [l ->]. unfold remove_nodes_from. revert g.
  induction l as [|n l IH]; intros g H; simpl; [assumption|].
  apply IH. now apply remove_node_ok.
Qed.

Section SimplificationFacts.

Context {rng : Type}.
Variable randbelow : Z -> rng -> Z * rng.
Variable set_order : list node -> nat.

Lemma select_best_path_shrunk (graph : DiGraph) (path_list : list (list node))
    (path_length : list Z) (weight_avg_list : list Q) (de ds : bool) (r : rng) :
  shrunk (graph_of (select_best_path randbelow graph path_list path_length
                                     weight_avg_list de ds r)) graph.
Proof.
  unfold select_best_path. destruct (len path_list =? 1); [apply shrunk_refl|].
  destruct (best_path_index randbelow path_list path_length weight_avg_list r)
    as [[best r']|e]; simpl; [apply remove_paths_shrunk | apply shrunk_refl].
Qed.

Lemma solve_bubble_shrunk (graph : DiGraph) (a d : node) (r : rng) :
  shrunk (graph_of (solve_bubble randbelow graph a d r)) graph.
Proof.
  unfold solve_bubble. destruct (all_simple_paths graph a d); [|apply shrunk_refl].
  destruct (mapM (consecutive_average graph) a0); [|apply shrunk_refl].
  apply select_best_path_shrunk.
Qed.

Lemma simplify_bubbles_shrunk (depth : nat) (graph : DiGraph) (r : rng) :
  shrunk (graph_of (simplify_bubbles randbelow set_order depth graph r)) graph.
Proof.
  revert graph r. induction depth as [|depth IH]; intros graph r; simpl;
    [apply shrunk_refl|].
  destruct (find_bubble set_order graph (nodes graph)) as [[[a d]|]|e];
    try apply shrunk_refl.
  pose proof (solve_bubble_shrunk graph a d r) as H.
  destruct (solve_bubble randbelow graph a d r) as [g' r'|e g' r']; simpl in *.
  - eapply shrunk_trans; [apply IH | exact H].
  - exact H.
Qed.

(** X8.  Whatever the way it ends, [simplify_bubbles] leaves the graph
    object with some of its nodes removed, together with their edges, and
    nothing else changed: no node or edge is added, no weight is changed,
    and a well-formed graph stays well-formed. *)
Theorem simplify_bubbles_only_removes (depth : nat) (graph : DiGraph) (r : rng) :
  shrunk (graph_of (simplify_bubbles randbelow set_order depth graph r)) graph /\
  (forall n, In n (nodes (graph_of (simplify_bubbles randbelow set_order depth graph r))) ->
             In n (nodes graph)) /\
  (forall e, In e (edges (graph_of (simplify_bubbles randbelow set_order depth graph r))) ->
             In e (edges graph)) /\
  (graph_ok graph ->
   graph_ok (graph_of (simplify_bubbles randbelow set_order depth graph r))).
Proof.
  pose proof (simplify_bubbles_shrunk depth graph r) as H.
  split; [exact H|]. split; [intros n; now apply shrunk_nodes|].
  split; [intros e; now apply shrunk_edges | now apply shrunk_ok].
Qed.

Lemma entry_tips_pairs_shrunk (pairs : list (node * node)) (graph : DiGraph) (n : node)
    (r : rng) :
  shrunk (graph_of (entry_tips_pairs randbelow set_order graph n pairs r)) graph.
Proof.
  revert graph r. induction pairs as [|[p1 p2] pairs IH]; intros graph r; simpl;
    [apply shrunk_refl|].
  destruct (lowest_common_ancestor set_order graph p1 p2) as [ca|e]; [|apply shrunk_refl].
  destruct (truthy ca) as [a|]; [|apply IH].
  destruct (all_simple_paths graph a n) as [paths|e]; [|apply shrunk_refl].
  destruct (1 <? len paths); [|apply IH].
  match goal with
  | |- context [select_best_path randbelow graph paths ?pl ?pw true false r] =>
      pose proof (select_best_path_shrunk graph paths pl pw true false r) as H;
      destruct (select_best_path randbelow graph paths pl pw true false r)
        as [g' r'|e g' r']
  end; simpl in *.
  - eapply shrunk_trans; [apply IH | exact H].
  - exact H.
Qed.

Lemma solve_entry_tips_shrunk (starting_nodes : list node) (graph : DiGraph) (r : rng) :
  shrunk (graph_of (solve_entry_tips randbelow set_order graph starting_nodes r)) graph.
Proof.
  revert graph r. induction starting_nodes as [|n ns IH]; intros graph r; simpl;
    [apply shrunk_refl|].
  destruct (predecessors graph n) as [ps|e]; [|apply shrunk_refl].
  destruct (1 <? len ps); [|apply IH].
  pose proof (entry_tips_pairs_shrunk (combinations2 ps) graph n r) as H.
  destruct (entry_tips_pairs randbelow set_order graph n (combinations2 ps) r)
    as [g' r'|e g' r']; simpl in *.
  - eapply shrunk_trans; [apply IH | exact H].
  - exact H.
Qed.

(** X9.  For any list of nodes it is given, and whatever the way it ends,
    [solve_entry_tips] leaves the graph object with some of its nodes removed,
    together with their edges, and nothing else changed. *)
Theorem solve_entry_tips_only_removes (graph : DiGraph) (starting_nodes : list node)
    (r : rng) :
  shrunk (graph_of (solve_entry_tips randbelow set_order graph starting_nodes r)) graph /\
  (forall n, In n (nodes (graph_of (solve_entry_tips randbelow set_order graph
                                                      starting_nodes r))) ->
             In n (nodes graph)) /\
  (forall e, In e (edges (graph_of (solve_entry_tips randbelow set_order graph
                                                      starting_nodes r))) ->
             In e (edges graph)) /\
  (graph_ok graph ->
   graph_ok (graph_of (solve_entry_tips randbelow set_order graph starting_nodes r))).
Proof.
  pose proof (solve_entry_tips_shrunk starting_nodes graph r) as H.
  split; [exact H|]. split; [intros n; now apply shrunk_nodes|].
  split; [intros e; now apply shrunk_edges | now apply shrunk_ok].
Qed.

Lemma set_first_none (l : list node) : set_first set_order l = None -> l = [].
Proof.
  unfold set_first. intros H. apply nth_error_None in H.
  destruct l as [|x l]; [reflexivity|].
  pose proof (Nat.mod_upper_bound (set_order (x :: l)) (length (x :: l))
                ltac:(discriminate)).
  lia.
Qed.

(** What the answer [None] of [nx.lowest_common_ancestor] means. *)
Lemma lowest_common_ancestor_none (g : DiGraph) (p1 p2 : node) :
  lowest_common_ancestor set_order g p1 p2 = OK None ->
  is_directed_acyclic_graph g = true /\
  forall a, In a (ancestors_or_self g p1) -> ~ In a (ancestors_or_self g p2).
Proof.
  unfold lowest_common_ancestor.
  destruct (is_directed_acyclic_graph g); simpl; [|discriminate].
  destruct (len (nodes g) =? 0); [discriminate|].
  destruct (has_node g p1 && has_node g p2); simpl; [|discriminate].
  destruct (set_first set_order
              (filter (fun a => mem a (ancestors_or_self g p2)) (ancestors_or_self g p1)))
    as [a|] eqn:E; [discriminate|].
  intros _. split; [reflexivity|].
  apply set_first_none in E. intros a H1 H2.
  assert (H : In a (filter (fun a => mem a (ancestors_or_self g p2))
                           (ancestors_or_self g p1))).
  { apply filter_In. split; [assumption | now apply mem_In]. }
  rewrite E in H. destruct H.
Qed.

Lemma first_ancestor_none (g : DiGraph) (pairs : list (node * node)) :
  first_ancestor set_order g pairs = OK None ->
  forall p1 p2, In (p1, p2) pairs -> lowest_common_ancestor set_order g p1 p2 = OK None.
Proof.
  induction pairs as [|[q1 q2] pairs IH]; simpl; intros H p1 p2 Hin; [destruct Hin|].
  destruct (lowest_common_ancestor set_order g q1 q2) as [[a|]|e] eqn:E;
    simpl in H; try discriminate.
  destruct Hin as [Heq | Hin]; [inversion Heq; subst; exact E | now apply IH].
Qed.

Lemma combinations2_short {A : Type} (l : list A) :
  len l <= 1 -> combinations2 l = [].
Proof.
  destruct l as [|x [|y l]]; intros H; try reflexivity.
  unfold len in H. simpl in H. lia.
Qed.

Lemma find_bubble_none (g : DiGraph) (ns : list node) :
  find_bubble set_order g ns = OK None ->
  forall n p1 p2, In n ns -> In (p1, p2) (combinations2 (preds g n)) ->
    lowest_common_ancestor set_order g p1 p2 = OK None.
Proof.
  induction ns as [|m ns IH]; simpl; intros H n p1 p2 Hn Hp; [destruct Hn|].
  destruct (1 <? len (preds g m)) eqn:E.
  - destruct (first_ancestor set_order g (combinations2 (preds g m))) as [[a|]|e] eqn:Ea;
      simpl in H; try discriminate.
    destruct Hn as [<- | Hn]; [|now apply (IH H n)].
    now apply (first_ancestor_none _ _ Ea).
  - destruct Hn as [<- | Hn]; [|now apply (IH H n)].
    apply Z.ltb_ge in E. rewrite (combinations2_short _ E) in Hp. destruct Hp.
Qed.

Lemma simplify_bubbles_done (depth : nat) (graph graph' : DiGraph) (r r' : rng) :
  simplify_bubbles randbelow set_order depth graph r = Done graph' r' ->
  find_bubble set_order graph' (nodes graph') = OK None.
Proof.
  revert graph r. induction depth as [|depth IH]; intros graph r; simpl; [discriminate|].
  destruct (find_bubble set_order graph (nodes graph)) as [[[a d]|]|e] eqn:E;
    try discriminate.
  - destruct (solve_bubble randbelow graph a d r) as [g1 r1|e g1 r1]; [apply IH | discriminate].
  - intros H. injection H as <- <-. exact E.
Qed.

(** X10.  When [simplify_bubbles] returns, the graph it returns has no
    bubble left: whatever node of it is taken and whatever two of its
    predecessors (a pair [(i, j)], [i < j], of [graph.predecessors]),
    [nx.lowest_common_ancestor] answers [None] for the two, which is to say
    that no node is an ancestor (or the node itself) of both; and a returned
    graph in which some node has two predecessors is acyclic. *)
Theorem simplify_bubbles_leaves_no_bubble (depth : nat) (graph graph' : DiGraph)
    (r r' : rng) :
  simplify_bubbles randbelow set_order depth graph r = Done graph' r' ->
  forall n p1 p2,
    In n (nodes graph') -> In (p1, p2) (combinations2 (preds graph' n)) ->
    lowest_common_ancestor set_order graph' p1 p2 = OK None /\
    is_directed_acyclic_graph graph' = true /\
    (forall a, In a (ancestors_or_self graph' p1) -> ~ In a (ancestors_or_self graph' p2)).
Proof.
  intros H n p1 p2 Hn Hp.
  pose proof (find_bubble_none _ _ (simplify_bubbles_done _ _ _ _ _ H) n p1 p2 Hn Hp) as E.
  split; [exact E|]. now apply lowest_common_ancestor_none.
Qed.

Lemma find_bubble_no_convergence (graph : DiGraph) (ns : list node) :
  (forall n, In n ns -> len (preds graph n) <= 1) ->
  find_bubble set_order graph ns = OK None.
Proof.
  induction ns as [|n ns IH]; intros H; simpl; [reflexivity|].
  replace (1 <? len (preds graph n)) with false
    by (symmetry; apply Z.ltb_ge; apply H; now left).
  apply IH. intros m Hm. apply H. now right.
Qed.

(** X11.  A graph in which no node has two predecessors has no bubble:
    [simplify_bubbles] returns it unchanged, without a draw. *)
Theorem simplify_bubbles_without_convergence (depth : nat) (graph : DiGraph) (r : rng) :
  (forall n, In n (nodes graph) -> len (preds graph n) <= 1) ->
  simplify_bubbles randbelow set_order (S depth) graph r = Done graph r.
Proof.
  intros H. simpl. now rewrite find_bubble_no_convergence.
Qed.

Lemma combinations2_two {A : Type} (x y : A) (l : list A) :
  exists rest, combinations2 (x :: y :: l) = (x, y) :: rest.
Proof.
  simpl. eauto.
Qed.

Lemma find_bubble_cyclic (graph : DiGraph) (ns : list node) :
  is_directed_acyclic_graph graph = false ->
  (exists n, In n ns /\ 1 < len (preds graph n)) ->
  find_bubble set_order graph ns = Raise NetworkXError.
Proof.
  intros Hcyc. induction ns as [|n ns IH]; intros [m [Hin Hm]]; [destruct Hin|].
  cbn [find_bubble].
  destruct (1 <? len (preds graph n)) eqn:E.
  - apply Z.ltb_lt in E. destruct (preds graph n) as [|x [|y l]];
      try (unfold len in E; simpl in E; lia).
    destruct (combinations2_two x y l) as [rest ->].
    cbn [first_ancestor]. unfold lowest_common_ancestor. rewrite Hcyc. reflexivity.
  - apply IH. destruct Hin as [-> | Hin]; [|eauto].
    apply Z.ltb_ge in E. lia.
Qed.

(** X12.  On a graph with a cycle, [simplify_bubbles] raises as soon as it
    meets a node with two predecessors: the lowest common ancestor is only
    defined on acyclic graphs.  The graph is left as it was. *)
Theorem simplify_bubbles_raises_on_cycle (depth : nat) (graph : DiGraph) (r : rng) :
  is_directed_acyclic_graph graph = false ->
  (exists n, In n (nodes graph) /\ 1 < len (preds graph n)) ->
  simplify_bubbles randbelow set_order (S depth) graph r = Fail NetworkXError graph r.
Proof.
  intros Hcyc Hn. simpl. now rewrite find_bubble_cyclic.
Qed.

(** X13.  A round of [simplify_bubbles] that finds a bubble and removes
    nothing is repeated for ever: if resolving the bubble found in a graph
    returns the graph as it was, then [simplify_bubbles] ends in
    [RecursionError] whatever the recursion limit. *)
Theorem simplify_bubbles_stuck_round (graph : DiGraph) (a d : node) :
  find_bubble set_order graph (nodes graph) = OK (Some (a, d)) ->
  (forall r, exists r', solve_bubble randbelow graph a d r = Done graph r') ->
  forall depth r, exists r',
    simplify_bubbles randbelow set_order depth graph r = Fail RecursionError graph r'.
Proof.
  intros Hfind Hround depth. induction depth as [|depth IH]; intros r.
  - exists r. reflexivity.
  - cbn [simplify_bubbles]. rewrite Hfind.
    destruct (Hround r) as [r1 ->]. apply IH.
Qed.

End SimplificationFacts.

Lemma simplify_bubbles_leaves_no_bubble_witness :
  let graph' :=
    mkDiGraph [py "a"; py "b"; py "d"; py "t"]
              [(py "a", py "b", 5); (py "b", py "d", 5); (py "t", py "d", 1)] in
  simplify_bubbles Sample.randbelow Sample.set_order 5 tipped_diamond Sample.seed
  = Done graph' Sample.seed /\
  In (py "d") (nodes graph') /\
  In (py "b", py "t") (combinations2 (preds graph' (py "d"))) /\
  lowest_common_ancestor Sample.set_order graph' (py "b") (py "t") = OK None /\
  is_directed_acyclic_graph graph' = true /\
  (forall a, In a (ancestors_or_self graph' (py "b")) ->
             ~ In a (ancestors_or_self graph' (py "t"))).
Proof.
  intros graph'.
  assert (H : simplify_bubbles Sample.randbelow Sample.set_order 5 tipped_diamond Sample.seed
              = Done graph' Sample.seed) by reflexivity.
  split; [exact H|].
  split; [vm_compute; tauto|].
  split; [vm_compute; tauto|].
  apply (simplify_bubbles_leaves_no_bubble Sample.randbelow Sample.set_order 5
           tipped_diamond graph' Sample.seed Sample.seed H (py "d") (py "b") (py "t")).
  - vm_compute; tauto.
  - vm_compute; tauto.
Defined.

Lemma simplify_bubbles_without_convergence_witness :
  (forall n, In n (nodes (build_graph sample_kmers)) ->
             len (preds (build_graph sample_kmers) n) <= 1) /\
  simplify_bubbles Sample.randbelow Sample.set_order 1 (build_graph sample_kmers) Sample.seed
  = Done (build_graph sample_kmers) Sample.seed.
Proof.
  assert (H : forall n, In n (nodes (build_graph sample_kmers)) ->
                        len (preds (build_graph sample_kmers) n) <= 1).
  { intros n Hin. vm_compute in Hin.
    repeat (destruct Hin as [<- | Hin]; [intros H; discriminate H|]). destruct Hin. }
  split; [exact H|].
  exact (simplify_bubbles_without_convergence Sample.randbelow Sample.set_order 0
           (build_graph sample_kmers) Sample.seed H).
Defined.

Lemma simplify_bubbles_raises_on_cycle_witness :
  (is_directed_acyclic_graph cyclic_graph = false /\
   exists n, In n (nodes cyclic_graph) /\ 1 < len (preds cyclic_graph n)) /\
  simplify_bubbles Sample.randbelow Sample.set_order 1 cyclic_graph Sample.seed
  = Fail NetworkXError cyclic_graph Sample.seed.
Proof.
  assert (H1 : is_directed_acyclic_graph cyclic_graph = false) by reflexivity.
  assert (H2 : exists n, In n (nodes cyclic_graph) /\ 1 < len (preds cyclic_graph n)).
  { exists (py "a"). split; [now left | reflexivity]. }
  split; [split; assumption|].
  exact (simplify_bubbles_raises_on_cycle Sample.randbelow Sample.set_order 0
           cyclic_graph Sample.seed H1 H2).
Defined.

Lemma simplify_bubbles_stuck_round_witness :
  (find_bubble Sample.set_order triangle (nodes triangle) = OK (Some (py "a", py "c")) /\
   forall r, exists r', solve_bubble Sample.randbelow triangle (py "a") (py "c") r
                        = Done triangle r') /\
  forall depth r, exists r',
    simplify_bubbles Sample.randbelow Sample.set_order depth triangle r
    = Fail RecursionError triangle r'.
Proof.
  assert (H1 : find_bubble Sample.set_order triangle (nodes triangle)
               = OK (Some (py "a", py "c"))) by reflexivity.
  assert (H2 : forall r, exists r', solve_bubble Sample.randbelow triangle (py "a") (py "c") r
                                    = Done triangle r').
  { intros r. exists r. reflexivity. }
  split; [split; assumption|].
  exact (simplify_bubbles_stuck_round Sample.randbelow Sample.set_order triangle
           (py "a") (py "c") H1 H2).
Defined.

(** ** The exit tips *)

Lemma remove_node_absent (g : DiGraph) (n : node) :
  closed_graph g -> ~ In n (nodes g) -> remove_node g n = g.
Proof.
  intros Hc Hn. unfold remove_node. destruct g as [ns es]. simpl in *. f_equal.
  - apply filter_all. intros x Hx. apply negb_true_iff, str_eqb_neq.
    intros ->. contradiction.
  - apply filter_all. intros e He. destruct (Hc e He) as [Hs Hd].
    apply andb_true_iff.
    split; apply negb_true_iff, str_eqb_neq; intros E; rewrite E in *; contradiction.
Qed.

Lemma filter_length_lt {A : Type} (f : A -> bool) (l : list A) (x : A) :
  In x l -> f x = false -> (length (filter f l) < length l)%nat.
Proof.
  induction l as [|y l IH]; intros Hin Hf; [destruct Hin|]. simpl.
  pose proof (filter_length_le f l) as Hle.
  destruct Hin as [-> | Hin].
  - rewrite Hf. lia.
  - specialize (IH Hin Hf). destruct (f y); simpl; lia.
Qed.

Lemma remove_nodes_from_length (l : list node) (g : DiGraph) :
  (length (nodes (remove_nodes_from g l)) <= length (nodes g))%nat.
Proof.
  unfold remove_nodes_from. revert g. induction l as [|n l IH]; intros g; simpl; [lia|].
  etransitivity; [apply IH|]. simpl. apply filter_length_le.
Qed.

(** Removing nodes without changing the number of nodes changes nothing. *)
Lemma remove_nodes_from_same_size (l : list node) (g : DiGraph) :
  closed_graph g ->
  length (nodes (remove_nodes_from g l)) = length (nodes g) ->
  remove_nodes_from g l = g.
Proof.
  revert g. induction l as [|n l IH]; intros g Hc Hlen; [reflexivity|].
  change (remove_nodes_from g (n :: l)) with (remove_nodes_from (remove_node g n) l) in *.
  pose proof (remove_nodes_from_length l (remove_node g n)) as Hle.
  destruct (mem n (nodes g)) eqn:E.
  - exfalso. apply mem_In in E.
    assert (length (nodes (remove_node g n)) < length (nodes g))%nat; [|lia].
    simpl. apply (filter_length_lt _ _ n E). now rewrite str_eqb_refl.
  - apply mem_not_In in E. rewrite (remove_node_absent g n Hc E) in *. now apply IH.
Qed.

Lemma chain_degrees (g : DiGraph) (p : list node) (n : node) :
  simple_graph g -> linear_chain g p -> In n (nodes g) ->
  (length (preds g n) <= 1)%nat /\ (length (succs g n) <= 1)%nat.
Proof.
  intros Hs Hc Hn. pose proof Hc as [Hnd [Hnodes _]].
  apply Hnodes in Hn. apply in_split in Hn as [l1 [l2 E]]. split.
  - destruct l1 as [|x l1].
    + rewrite (chain_no_preds g p Hc n); [simpl; lia|].
      intros u. rewrite E. apply adjacent_head. simpl in E. now rewrite <- E.
    + destruct (exists_last (l := x :: l1)) as [l1' [u Hl]]; [discriminate|].
      rewrite Hl in E.
      rewrite (chain_preds g p Hs Hc u n); [simpl; lia|].
      exists l1', l2. now rewrite E, <- app_assoc.
  - destruct l2 as [|v l2].
    + rewrite (chain_no_succs g p Hc n); [simpl; lia|].
      intros v. rewrite E. apply adjacent_last. now rewrite <- E.
    + rewrite (chain_succs g p Hs Hc n v); [simpl; lia|]. now exists l1, l2.
Qed.

Section TipFacts.

Context {rng : Type}.
Variable randbelow : Z -> rng -> Z * rng.
Variable set_order : list node -> nat.

Lemma out_tips_ends_shrunk (ends : list node) (graph : DiGraph) (noeud target : node)
    (r : rng) :
  shrunk (graph_of (out_tips_ends randbelow graph noeud target ends r)) graph.
Proof.
  revert graph r. induction ends as [|end_node ends IH]; intros graph r; simpl;
    [apply shrunk_refl|].
  destruct (has_path graph noeud end_node) as [[|]|e]; [| apply IH | apply shrunk_refl].
  destruct (all_simple_paths graph noeud target) as [paths|e]; [|apply shrunk_refl].
  destruct (mapM (path_average_weight graph) (filter (fun path => 2 <=? len path) paths))
    as [path_weights|e]; [|apply shrunk_refl].
  match goal with
  | |- context [select_best_path randbelow graph paths ?pl path_weights false true r] =>
      pose proof (select_best_path_shrunk randbelow graph paths pl path_weights
                    false true r) as H;
      destruct (select_best_path randbelow graph paths pl path_weights false true r)
        as [g' r'|e g' r']
  end; simpl in *.
  - eapply shrunk_trans; [apply IH | exact H].
  - exact H.
Qed.

Lemma out_tips_nodes_unchanged (g0 : DiGraph) (ending_nodes : list node) :
  closed_graph g0 ->
  forall ns graph r graph' r',
    shrunk graph g0 ->
    out_tips_nodes randbelow (length (nodes g0)) graph ns ending_nodes r
    = TipsDone graph' r' ->
    graph' = g0.
Proof.
  intros Hc. induction ns as [|noeud ns IH]; intros graph r graph' r' [l ->] H.
  - cbn [out_tips_nodes] in H.
    destruct (length (nodes (remove_nodes_from g0 l)) =? length (nodes g0))%nat eqn:E;
      simpl in H; [|discriminate].
    apply Nat.eqb_eq in E. rewrite (remove_nodes_from_same_size l g0 Hc E) in H.
    now injection H as <- _.
  - cbn [out_tips_nodes] in H.
    destruct (length (nodes (remove_nodes_from g0 l)) =? length (nodes g0))%nat eqn:E;
      simpl in H; [|discriminate].
    apply Nat.eqb_eq in E. rewrite (remove_nodes_from_same_size l g0 Hc E) in H.
    destruct (successors g0 noeud) as [ss|e]; [|discriminate].
    destruct (1 <? len (filter (fun succ => mem succ ending_nodes) ss)).
    + destruct (filter (fun succ => mem succ ending_nodes) ss) as [|target rest];
        [discriminate|].
      pose proof (out_tips_ends_shrunk ending_nodes g0 noeud target r) as Hs.
      destruct (out_tips_ends randbelow g0 noeud target ending_nodes r)
        as [g1 r1|e g1 r1]; [|discriminate].
      simpl in Hs. exact (IH g1 r1 graph' r' Hs H).
    + exact (IH g0 r graph' r' (shrunk_refl g0) H).
Qed.

(** X14.  [solve_out_tips] never returns a graph that differs from the one
    it was given: its loop runs over the nodes of the graph object itself,
    so the first removal of a node makes the request for the next node
    raise. *)
Theorem solve_out_tips_returns_the_graph (graph graph' : DiGraph)
    (ending_nodes : list node) (r r' : rng) :
  closed_graph graph ->
  solve_out_tips randbelow graph ending_nodes r = TipsDone graph' r' ->
  graph' = graph.
Proof.
  intros Hc H. unfold solve_out_tips in H.
  exact (out_tips_nodes_unchanged graph ending_nodes Hc (nodes graph) graph r graph' r'
           (shrunk_refl graph) H).
Qed.

Lemma out_tips_nodes_skips (graph : DiGraph) (ending_nodes ns : list node) (r : rng) :
  (forall n, In n ns ->
     In n (nodes graph) /\
     len (filter (fun succ => mem succ ending_nodes) (succs graph n)) <= 1) ->
  out_tips_nodes randbelow (length (nodes graph)) graph ns ending_nodes r
  = TipsDone graph r.
Proof.
  induction ns as [|n ns IH]; intros H; cbn [out_tips_nodes];
    rewrite Nat.eqb_refl; simpl negb; cbv iota; [reflexivity|].
  destruct (H n (or_introl eq_refl)) as [Hn Hs].
  unfold successors, has_node. apply mem_In in Hn. rewrite Hn.
  replace (1 <? len (filter (fun succ => mem succ ending_nodes) (succs graph n)))
    with false by (symmetry; apply Z.ltb_ge; exact Hs).
  apply IH. intros m Hm. apply H. now right.
Qed.

(** X15.  When no node has two successors among the ending nodes,
    [solve_out_tips] returns the graph unchanged, without a draw. *)
Theorem solve_out_tips_without_fork (graph : DiGraph) (ending_nodes : list node) (r : rng) :
  (forall n, In n (nodes graph) ->
     len (filter (fun succ => mem succ ending_nodes) (succs graph n)) <= 1) ->
  solve_out_tips randbelow graph ending_nodes r = TipsDone graph r.
Proof.
  intros H. unfold solve_out_tips. apply out_tips_nodes_skips.
  intros n Hn. split; [assumption | now apply H].
Qed.

End TipFacts.

Lemma fork_graph_closed : closed_graph fork_graph.
Proof.
  intros e He. vm_compute in He.
  repeat (destruct He as [<- | He]; [vm_compute; tauto|]). destruct He.
Qed.

Lemma solve_out_tips_returns_the_graph_witness :
  (closed_graph fork_graph /\
   solve_out_tips Sample.randbelow fork_graph (get_sink_nodes fork_graph) Sample.seed
   = TipsDone fork_graph Sample.seed) /\
  fork_graph = fork_graph.
Proof.
  split; [split; [exact fork_graph_closed | reflexivity]|].
  apply (solve_out_tips_returns_the_graph Sample.randbelow fork_graph fork_graph
           (get_sink_nodes fork_graph) Sample.seed Sample.seed).
  - exact fork_graph_closed.
  - reflexivity.
Defined.

Lemma solve_out_tips_without_fork_witness :
  (forall n, In n (nodes (build_graph sample_kmers)) ->
     len (filter (fun succ => mem succ (get_sink_nodes (build_graph sample_kmers)))
                 (succs (build_graph sample_kmers) n)) <= 1) /\
  solve_out_tips Sample.randbelow (build_graph sample_kmers)
                 (get_sink_nodes (build_graph sample_kmers)) Sample.seed
  = TipsDone (build_graph sample_kmers) Sample.seed.
Proof.
  assert (H : forall n, In n (nodes (build_graph sample_kmers)) ->
     len (filter (fun succ => mem succ (get_sink_nodes (build_graph sample_kmers)))
                 (succs (build_graph sample_kmers) n)) <= 1).
  { intros n Hin. vm_compute in Hin.
    repeat (destruct Hin as [<- | Hin]; [intros H; discriminate H|]). destruct Hin. }
  split; [exact H|].
  exact (solve_out_tips_without_fork Sample.randbelow (build_graph sample_kmers)
           (get_sink_nodes (build_graph sample_kmers)) Sample.seed H).
Defined.

(** ** From the file to the contigs *)

Lemma read_chain_contigs (s : str) (k : Z) (kmer_dict : Counter) :
  k <= len s ->
  build_kmer_dict [s] k = OK kmer_dict ->
  is_linear_chain (build_graph kmer_dict) ->
  get_contigs (build_graph kmer_dict)
              (get_starting_nodes (build_graph kmer_dict))
              (get_sink_nodes (build_graph kmer_dict))
  = OK [(s, len s)].
Proof.
  intros Hks Hdict [p Hchain].
  pose proof Hchain as [Hnd [Hpn Hpe]].
  destruct (build_graph_spec kmer_dict) as [Hsimple [Hn He]].
  pose proof (build_kmer_dict_keys s k kmer_dict Hdict) as Hkeys.
  (* a size [k <= 0] gives an empty k-mer, hence a loop on the empty node *)
  assert (Hk : 0 < k).
  { destruct (Z.lt_ge_cases 0 k) as [H | H]; [exact H | exfalso].
    apply (adjacent_irrefl p []); [assumption|].
    apply Hpe, He. exists []. split; [|split; reflexivity].
    apply Hkeys. apply cut_kmer_nonpos. lia. }
  rewrite (cut_kmer_windows s k Hk Hks) in Hkeys.
  destruct (Z.to_nat k) as [|w] eqn:Ek; [lia|].
  assert (HwL : (S w <= length s)%nat) by (unfold len in Hks; lia).
  set (m := (length s - S w + 1)%nat) in *.
  assert (Hm : (1 <= m)%nat) by (unfold m; lia).
  assert (Hkmer : forall i, (i < m)%nat -> In (window (S w) s i) (map fst kmer_dict)).
  { intros i Hi. apply Hkeys. apply in_map. apply in_seq. lia. }
  assert (Hpre : forall i, (i < m)%nat -> removelast (window (S w) s i) = window w s i).
  { intros i Hi. apply removelast_window. unfold m in Hi. lia. }
  set (walk := map (window w s) (seq 0 (S m))).
  (* the windows of width [k - 1] walk along the edges of the graph *)
  assert (Hedge : forall i, (i < m)%nat ->
                            has_edge (build_graph kmer_dict) (window w s i) (window w s (S i))).
  { intros i Hi. apply He. exists (window (S w) s i).
    split; [now apply Hkmer|]. now rewrite Hpre, tl_window. }
  assert (Hwalk_nodes : forall x, In x walk -> In x p).
  { intros x Hx. apply in_map_iff in Hx as [i [<- Hi]]. apply in_seq in Hi.
    apply Hpn, Hn. destruct (Nat.eq_dec i m) as [-> | Hne].
    - exists (window (S w) s (m - 1)). split; [apply Hkmer; lia|].
      right. rewrite tl_window. f_equal. lia.
    - exists (window (S w) s i). split; [apply Hkmer; lia|].
      left. rewrite Hpre by lia. reflexivity. }
  assert (Hnodes_walk : forall x, In x p -> In x walk).
  { intros x Hx. apply Hpn, Hn in Hx as [kmer [Hkm Hx]].
    apply Hkeys in Hkm. apply in_map_iff in Hkm as [i [<- Hi]]. apply in_seq in Hi.
    unfold walk. apply in_map_iff. destruct Hx as [-> | ->].
    - exists i. split; [rewrite Hpre by lia; reflexivity | apply in_seq; lia].
    - exists (S i). split; [now rewrite tl_window | apply in_seq; lia]. }
  assert (Hwalk : walk_in p walk).
  { apply walk_in_map. intros i Hi. apply Hpe, Hedge. lia. }
  (* so they are the chain *)
  assert (Hp : p = walk).
  { destruct (walk_is_segment p walk Hnd) as [l1 [l2 E]]; auto; [discriminate|].
    exact (segment_is_all p walk l1 l2 Hnd E Hnodes_walk). }
  subst p.
  (* the nodes are not empty *)
  assert (Hw : (1 <= w)%nat).
  { destruct w as [|w]; [exfalso | lia].
    destruct m as [|m']; [lia|].
    change walk with (window 0 s 0 :: window 0 s 1 :: map (window 0 s) (seq 2 m')) in Hnd.
    inversion Hnd; subst. apply H1. now left. }
  assert (Hfront : walk = map (window w s) (seq 0 m) ++ [window w s m]).
  { unfold walk. rewrite seq_S, map_app. reflexivity. }
  assert (Hne : window w s 0 <> window w s m).
  { intros E. change walk with (window w s 0 :: map (window w s) (seq 1 m)) in Hnd.
    inversion Hnd; subst. apply H1. rewrite E. apply in_map. apply in_seq. lia. }
  destruct (chain_get_contigs (build_graph kmer_dict) walk
              (map (window w s) (seq 1 m)) (map (window w s) (seq 0 m))
              (window w s 0) (window w s m) (s, len s))
    as [_ [_ H]]; auto.
  apply contig_of_windows; [assumption | unfold m; lia].
Qed.

Section PipelineFacts.

Context {rng : Type}.
Variable randbelow : Z -> rng -> Z * rng.
Variable set_order : list node -> nat.

(** X16.  When the graph of the last read of the file is a single linear
    chain, no stage of the simplification touches it and [main] hands to
    [save_contigs] that read, with its length, as the only contig. *)
Theorem main_contigs_of_linear_chain (lines reads : list str) (s : str) (k : Z)
    (depth : nat) (r : rng) :
  read_fastq lines = (reads ++ [s], None) ->
  k <= len s ->
  is_linear_chain (build_graph (Counter_of (cut_kmer s k))) ->
  main_contigs randbelow set_order (S depth) lines k r
  = Returned ([(s, len s)], build_graph (Counter_of (cut_kmer s k))).
Proof.
  intros Hread Hk Hchain.
  set (g := build_graph (Counter_of (cut_kmer s k))) in *.
  assert (Hdict : build_kmer_dict [s] k = OK (Counter_of (cut_kmer s k)))
    by (apply (build_kmer_dict_is_last_counter [] s k)).
  pose proof (read_chain_contigs s k _ Hk Hdict Hchain) as Hcontigs. fold g in Hcontigs.
  destruct (build_graph_spec (Counter_of (cut_kmer s k))) as [Hsimple _]. fold g in Hsimple.
  destruct Hchain as [p Hp].
  unfold main_contigs, build_kmer_dict_of_lines.
  rewrite Hread, build_kmer_dict_is_last_counter. fold g.
  cbn [simplify_bubbles]. rewrite find_bubble_no_convergence.
  - rewrite solve_entry_tips_on_starting_nodes.
    unfold solve_out_tips. rewrite out_tips_nodes_skips.
    + now rewrite Hcontigs.
    + intros n Hn. split; [assumption|].
      destruct (chain_degrees g p n Hsimple Hp Hn) as [_ H].
      pose proof (filter_length_le
                    (fun succ => mem succ (get_sink_nodes g)) (succs g n)) as Hle.
      unfold len. lia.
  - intros n Hn. destruct (chain_degrees g p n Hsimple Hp Hn) as [H _].
    unfold len. lia.
Qed.

(** X17.  When the last read of the file is shorter than [k], the graph is
    empty, every stage returns it as it is and [main] hands an empty list of
    contigs to [save_contigs]. *)
Theorem main_contigs_of_short_read (lines reads : list str) (s : str) (k : Z)
    (depth : nat) (r : rng) :
  read_fastq lines = (reads ++ [s], None) ->
  len s < k ->
  main_contigs randbelow set_order (S depth) lines k r = Returned ([], empty_graph).
Proof.
  intros Hread Hk.
  unfold main_contigs, build_kmer_dict_of_lines.
  rewrite Hread, build_kmer_dict_is_last_counter, cut_kmer_short by assumption.
  reflexivity.
Qed.

End PipelineFacts.

Lemma main_contigs_of_linear_chain_witness :
  (read_fastq [py "@r1"; py "AACCGGTTA" ++ ["010"%char]; py "+"; py "IIIIIIIII"]
   = ([] ++ [py "AACCGGTTA"], None) /\
   4 <= len (py "AACCGGTTA") /\
   is_linear_chain (build_graph (Counter_of (cut_kmer (py "AACCGGTTA") 4)))) /\
  main_contigs Sample.randbelow Sample.set_order 1
    [py "@r1"; py "AACCGGTTA" ++ ["010"%char]; py "+"; py "IIIIIIIII"] 4 Sample.seed
  = Returned ([(py "AACCGGTTA", len (py "AACCGGTTA"))],
              build_graph (Counter_of (cut_kmer (py "AACCGGTTA") 4))).
Proof.
  assert (H1 : read_fastq [py "@r1"; py "AACCGGTTA" ++ ["010"%char]; py "+"; py "IIIIIIIII"]
               = ([] ++ [py "AACCGGTTA"], None)) by reflexivity.
  assert (H2 : 4 <= len (py "AACCGGTTA")) by (intros H; discriminate H).
  assert (H3 : is_linear_chain (build_graph (Counter_of (cut_kmer (py "AACCGGTTA") 4))))
    by exact sample_chain.
  split; [repeat split; assumption|].
  exact (main_contigs_of_linear_chain Sample.randbelow Sample.set_order _ [] _ 4 0
           Sample.seed H1 H2 H3).
Defined.

Lemma main_contigs_of_short_read_witness :
  (read_fastq [py "@r1"; py "AAC" ++ ["010"%char]; py "+"; py "III"]
   = ([] ++ [py "AAC"], None) /\
   len (py "AAC") < 4) /\
  main_contigs Sample.randbelow Sample.set_order 1
    [py "@r1"; py "AAC" ++ ["010"%char]; py "+"; py "III"] 4 Sample.seed
  = Returned ([], empty_graph).
Proof.
  assert (H1 : read_fastq [py "@r1"; py "AAC" ++ ["010"%char]; py "+"; py "III"]
               = ([] ++ [py "AAC"], None)) by reflexivity.
  assert (H2 : len (py "AAC") < 4) by reflexivity.
  split; [split; assumption|].
  exact (main_contigs_of_short_read Sample.randbelow Sample.set_order _ [] _ 4 0
           Sample.seed H1 H2).
Defined.

(** ** The selector, again *)

Lemma running_longest_spec (l : list Z) (x : Z) :
  let m := fold_left (fun m y => if m <? y then y else m) l x in
  x <= m /\ (forall y, In y l -> y <= m) /\ In m (x :: l).
Proof.
  revert x. induction l as [|y l IH]; intros x; simpl.
  - split; [lia|]. split; [tauto | auto].
  - destruct (x <? y) eqn:E.
    + apply Z.ltb_lt in E. destruct (IH y) as [H1 [H2 H3]].
      split; [lia|]. split; [intros z [<- | Hz]; auto | destruct H3; auto].
    + apply Z.ltb_ge in E. destruct (IH x) as [H1 [H2 H3]].
      split; [assumption|].
      split; [intros z [<- | Hz]; [lia | auto] | destruct H3; auto].
Qed.

Lemma index_first_Z (l : list Z) (m : Z) :
  In m l ->
  exists i,
    index Z.eqb l m = OK (Z.of_nat i) /\ nth_error l i = Some m /\
    forall j x, (j < i)%nat -> nth_error l j = Some x -> x <> m.
Proof.
  induction l as [|y l IH]; intros Hin; [destruct Hin|]. simpl.
  destruct (y =? m) eqn:E.
  - apply Z.eqb_eq in E. subst. exists 0%nat. repeat split; auto. intros j x Hj. lia.
  - apply Z.eqb_neq in E. destruct Hin as [-> | Hl]; [congruence|].
    destruct (IH Hl) as [i [Hi [Hm Hfirst]]].
    exists (S i). rewrite Hi. simpl. repeat split; auto.
    + f_equal. lia.
    + intros [|j] x Hj Hx; simpl in Hx.
      * inversion Hx; subst. assumption.
      * apply (Hfirst j x); [lia | assumption].
Qed.

Lemma max_index_first_longest (l : list Z) :
  l <> [] ->
  exists best m,
    py_max Z.ltb l = OK m /\ index Z.eqb l m = OK (Z.of_nat best) /\ first_longest l best.
Proof.
  destruct l as [|x l]; [congruence|]. intros _.
  destruct (running_longest_spec l x) as [H1 [H2 H3]].
  set (m := fold_left (fun m y => if m <? y then y else m) l x) in *.
  destruct (index_first_Z (x :: l) m H3) as [best [Hi [Hm Hfirst]]].
  exists best, m. split; [reflexivity|]. split; [assumption|].
  exists m. split; [assumption|].
  assert (Hall : forall y, In y (x :: l) -> y <= m).
  { intros y [<- | Hy]; auto. }
  split; [assumption|].
  intros j y Hj Hy.
  pose proof (Hall y (nth_error_In _ _ Hy)). pose proof (Hfirst j y Hj Hy). lia.
Qed.

Section SelectorMoreFacts.

Context {rng : Type}.
Variable randbelow : Z -> rng -> Z * rng.

(** X18.  When the weight averages do not tell the paths apart and the
    lengths do, [select_best_path] keeps the first of the longest paths and
    removes the stripped nodes of all the other paths. *)
Theorem select_best_path_by_length (graph : DiGraph) (path_list : list (list node))
    (path_length : list Z) (weight_avg_list : list Q) (de ds : bool) (r : rng) :
  len path_length = len path_list ->
  stdev_positive weight_avg_list = OK false ->
  stdev_positive (map inject_Z path_length) = OK true ->
  exists best winner,
    first_longest path_length best /\
    nth_error path_list best = Some winner /\
    select_best_path randbelow graph path_list path_length weight_avg_list de ds r
    = Done (remove_paths graph (paths_to_remove path_list (Z.of_nat best)) de ds) r /\
    (forall n,
       In n (nodes (remove_paths graph (paths_to_remove path_list (Z.of_nat best)) de ds)) <->
       In n (nodes graph) /\ ~ lost path_list de ds (Z.of_nat best) n).
Proof.
  intros Halign Hw Hl.
  pose proof (stdev_positive_len _ _ Hl) as Hlen.
  unfold len in Hlen, Halign. rewrite length_map in Hlen.
  assert (Hne : path_length <> []).
  { intros ->. simpl in Hlen. lia. }
  destruct (max_index_first_longest path_length Hne) as [best [m [Hm [Hi Hfm]]]].
  assert (Hbest : (best < length path_list)%nat).
  { destruct Hfm as [w [Hw' _]].
    assert (nth_error path_length best <> None) as Hs by congruence.
    apply nth_error_Some in Hs. lia. }
  destruct (nth_error path_list best) as [winner|] eqn:Hwin;
    [|apply nth_error_None in Hwin; lia].
  exists best, winner. split; [assumption|]. split; [assumption|]. split.
  - unfold select_best_path, best_path_index.
    replace (len path_list =? 1) with false
      by (symmetry; apply Z.eqb_neq; unfold len; lia).
    rewrite Hw. simpl. rewrite Hl. simpl. rewrite Hm. simpl. rewrite Hi. reflexivity.
  - intros n. apply remove_losers_nodes.
Qed.

(** X19.  With a number of paths other than one and fewer than two weight
    averages (no path at all, for one), [select_best_path] raises
    [StatisticsError] and leaves the graph as it was. *)
Theorem select_best_path_needs_two_weights (graph : DiGraph) (path_list : list (list node))
    (path_length : list Z) (weight_avg_list : list Q) (de ds : bool) (r : rng) :
  len path_list <> 1 ->
  len weight_avg_list < 2 ->
  select_best_path randbelow graph path_list path_length weight_avg_list de ds r
  = Fail StatisticsError graph r.
Proof.
  intros H1 H2. unfold select_best_path, best_path_index, stdev_positive, stdev, variance.
  replace (len path_list =? 1) with false by (symmetry; now apply Z.eqb_neq).
  replace (len weight_avg_list <? 2) with true by (symmetry; now apply Z.ltb_lt).
  reflexivity.
Qed.

End SelectorMoreFacts.

Lemma select_best_path_by_length_witness :
  (len [3; 4] = len [[py "a"; py "c"; py "d"]; [py "a"; py "b"; py "c"; py "d"]] /\
   stdev_positive [5 # 1; 5 # 1]%Q = OK false /\
   stdev_positive (map inject_Z [3; 4]) = OK true) /\
  exists best winner,
    first_longest [3; 4] best /\
    nth_error [[py "a"; py "c"; py "d"]; [py "a"; py "b"; py "c"; py "d"]] best
    = Some winner /\
    select_best_path Sample.randbelow diamond
      [[py "a"; py "c"; py "d"]; [py "a"; py "b"; py "c"; py "d"]] [3; 4]
      [5 # 1; 5 # 1]%Q false false Sample.seed
    = Done (remove_paths diamond
              (paths_to_remove [[py "a"; py "c"; py "d"]; [py "a"; py "b"; py "c"; py "d"]]
                               (Z.of_nat best)) false false) Sample.seed /\
    (forall n,
       In n (nodes (remove_paths diamond
              (paths_to_remove [[py "a"; py "c"; py "d"]; [py "a"; py "b"; py "c"; py "d"]]
                               (Z.of_nat best)) false false)) <->
       In n (nodes diamond) /\
       ~ lost [[py "a"; py "c"; py "d"]; [py "a"; py "b"; py "c"; py "d"]] false false
              (Z.of_nat best) n).
Proof.
  split; [repeat split; reflexivity|].
  apply (select_best_path_by_length Sample.randbelow diamond
           [[py "a"; py "c"; py "d"]; [py "a"; py "b"; py "c"; py "d"]] [3; 4]
           [5 # 1; 5 # 1]%Q false false Sample.seed); reflexivity.
Defined.

Lemma select_best_path_needs_two_weights_witness :
  (len (@nil (list node)) <> 1 /\ len (@nil Q) < 2) /\
  select_best_path Sample.randbelow diamond [] [] [] false true Sample.seed
  = Fail StatisticsError diamond Sample.seed.
Proof.
  split; [split; [intros H; discriminate H | reflexivity]|].
  apply (select_best_path_needs_two_weights Sample.randbelow diamond [] [] [] false true
           Sample.seed); [intros H; discriminate H | reflexivity].
Defined.

(** ** The contigs, again *)

Lemma rev_last (n : str) (d : ascii) :
  n <> [] -> exists x, rev n = last n d :: x.
Proof.
  intros H. destruct (exists_last H) as [l [a ->]].
  rewrite rev_app_distr, last_last. simpl. eauto.
Qed.

Lemma extend_contig_spec (rest : list node) (contig : str) (d : ascii) :
  (forall n, In n rest -> n <> []) ->
  extend_contig contig rest = OK (contig ++ map (fun n => last n d) rest).
Proof.
  revert contig. induction rest as [|n rest IH]; intros contig H; simpl.
  - now rewrite app_nil_r.
  - destruct (rev_last n d) as [x ->]; [apply H; now left|].
    rewrite IH by (intros m Hm; apply H; now right).
    now rewrite <- app_assoc.
Qed.

Lemma extend_contig_empty_node (rest : list node) (contig : str) :
  In [] rest -> extend_contig contig rest = Raise IndexError.
Proof.
  revert contig. induction rest as [|n rest IH]; intros contig H; [destruct H|]. simpl.
  destruct (rev n) as [|c x] eqn:E; [reflexivity|].
  apply IH. destruct H as [-> | H]; [discriminate | assumption].
Qed.

(** X20.  The contig of a path is its first node followed by the last
    character of each of the other nodes, and its length is the length of the
    first node plus the number of the other nodes; an empty node after the
    first, or an empty path, is an [IndexError]. *)
Theorem contig_of_path_spec (first : node) (rest : list node) (d : ascii) :
  contig_of_path [] = Raise IndexError /\
  ((forall n, In n rest -> n <> []) ->
   contig_of_path (first :: rest)
   = OK (first ++ map (fun n => last n d) rest, len first + len rest)) /\
  (In [] rest -> contig_of_path (first :: rest) = Raise IndexError).
Proof.
  split; [reflexivity|]. split.
  - intros H. unfold contig_of_path. rewrite (extend_contig_spec rest first d H).
    simpl bind.
    replace (len (first ++ map (fun n => last n d) rest)) with (len first + len rest)
      by (unfold len; rewrite length_app, length_map; rewrite Nat2Z.inj_add; reflexivity).
    reflexivity.
  - intros H. unfold contig_of_path. now rewrite extend_contig_empty_node.
Qed.

Lemma mapM_all_nil {A B : Type} (f : A -> result (list B)) (l : list A) :
  (forall x, In x l -> f x = OK []) -> exists ys, mapM f l = OK ys /\ concat ys = [].
Proof.
  induction l as [|x l IH]; intros H; simpl; [now exists []|].
  rewrite (H x) by now left. simpl.
  destruct IH as [ys [-> Hys]]; [intros y Hy; apply H; now right|].
  simpl. exists ([] :: ys). auto.
Qed.

(** X21.  When no ending node can be reached from a starting node,
    [get_contigs] returns the empty list; that is not an error. *)
Theorem get_contigs_without_path (graph : DiGraph) (starting_nodes ending_nodes : list node) :
  (forall s e, In s starting_nodes -> In e ending_nodes -> has_path graph s e = OK false) ->
  get_contigs graph starting_nodes ending_nodes = OK [].
Proof.
  intros H. unfold get_contigs.
  match goal with
  | |- bind (mapM ?f starting_nodes) _ = _ =>
      destruct (mapM_all_nil f starting_nodes) as [ys [-> Hys]]
  end.
  - intros s Hs.
    match goal with
    | |- bind (mapM ?f ending_nodes) _ = _ =>
        destruct (mapM_all_nil f ending_nodes) as [zs [-> Hzs]]
    end.
    + intros e He. now rewrite (H s e Hs He).
    + simpl. now rewrite Hzs.
  - simpl. now rewrite Hys.
Qed.

Lemma get_contigs_without_path_witness :
  (forall s e, In s [py "C"] -> In e [py "D"] -> has_path fork_graph s e = OK false) /\
  get_contigs fork_graph [py "C"] [py "D"] = OK [].
Proof.
  assert (H : forall s e, In s [py "C"] -> In e [py "D"] ->
                          has_path fork_graph s e = OK false).
  { intros s e [<- | []] [<- | []]. reflexivity. }
  split; [exact H|].
  exact (get_contigs_without_path fork_graph [py "C"] [py "D"] H).
Defined.

(** ** Ties, in terms of the data *)

Lemma Qsq_nonneg (a : Q) : (0 <= a * a)%Q.
Proof.
  unfold Qle, Qmult. simpl. rewrite Z.mul_1_r. apply Z.square_nonneg.
Qed.

Lemma Qsum_nonneg (l : list Q) : (forall x, In x l -> 0 <= x)%Q -> (0 <= Qsum l)%Q.
Proof.
  induction l as [|a l IH]; simpl; intros H; [apply Qle_refl|].
  assert (0 <= a)%Q by (apply H; now left).
  assert (0 <= Qsum l)%Q by (apply IH; intros x Hx; apply H; now right).
  lra.
Qed.

Lemma Qsum_zero (l : list Q) :
  (forall x, In x l -> 0 <= x)%Q -> (Qsum l == 0)%Q -> forall x, In x l -> (x == 0)%Q.
Proof.
  induction l as [|a l IH]; simpl; intros H Hsum x Hin; [destruct Hin|].
  assert (0 <= a)%Q by (apply H; now left).
  assert (0 <= Qsum l)%Q by (apply Qsum_nonneg; intros y Hy; apply H; now right).
  destruct Hin as [<- | Hin]; [lra|].
  apply IH; auto. lra.
Qed.

Lemma Qsum_all_zero (l : list Q) : (forall x, In x l -> x == 0)%Q -> (Qsum l == 0)%Q.
Proof.
  induction l as [|a l IH]; simpl; intros H; [reflexivity|].
  assert (a == 0)%Q by (apply H; now left).
  assert (Qsum l == 0)%Q by (apply IH; intros x Hx; apply H; now right).
  lra.
Qed.

Lemma Qsum_const (l : list Q) (c : Q) :
  (forall x, In x l -> x == c)%Q -> (Qsum l == inject_Z (len l) * c)%Q.
Proof.
  induction l as [|a l IH]; intros H.
  - unfold len. simpl. ring.
  - assert (Ha : (a == c)%Q) by (apply H; now left).
    assert (Hl : (Qsum l == inject_Z (len l) * c)%Q)
      by (apply IH; intros x Hx; apply H; now right).
    replace (len (a :: l)) with (len l + 1) by (unfold len; simpl length; lia).
    rewrite inject_Z_plus. simpl Qsum. rewrite Ha, Hl.
    change (inject_Z 1) with 1%Q. ring.
Qed.

Lemma inject_Z_nonzero (z : Z) : z <> 0 -> ~ (inject_Z z == 0)%Q.
Proof.
  intros Hz H. unfold Qeq in H. simpl in H. lia.
Qed.

(** The sum of the squared deviations is zero exactly when all the values
    are equal. *)
Lemma deviations_zero (l : list Q) :
  1 <= len l ->
  let m := (Qsum l / inject_Z (len l))%Q in
  (Qsum (map (fun x => (x - m) * (x - m)) l) == 0)%Q <->
  (forall x y, In x l -> In y l -> x == y)%Q.
Proof.
  intros Hlen m.
  assert (Hsq : forall y, In y (map (fun x => (x - m) * (x - m))%Q l) -> (0 <= y)%Q).
  { intros y Hy. apply in_map_iff in Hy as [x [<- _]]. apply Qsq_nonneg. }
  split.
  - intros H x y Hx Hy.
    assert (Hm : forall z, In z l -> (z == m)%Q).
    { intros z Hz.
      assert (E : ((z - m) * (z - m) == 0)%Q).
      { apply (Qsum_zero _ Hsq H). apply in_map_iff. eauto. }
      apply Qmult_integral in E. destruct E; lra. }
    rewrite (Hm x Hx), (Hm y Hy). reflexivity.
  - intros H. apply Qsum_all_zero. intros y Hy.
    apply in_map_iff in Hy as [x [<- Hx]].
    destruct l as [|c l]; [destruct Hx|].
    assert (Hc : forall z, In z (c :: l) -> (z == c)%Q).
    { intros z Hz. apply H; [assumption | now left]. }
    assert (Hmc : (m == c)%Q).
    { unfold m. rewrite (Qsum_const (c :: l) c Hc). field.
      apply inject_Z_nonzero. lia. }
    rewrite (Hc x Hx), Hmc. ring.
Qed.

Lemma variance_value (l : list Q) :
  2 <= len l ->
  variance l
  = OK (Qsum (map (fun x => (x - Qsum l / inject_Z (len l))
                            * (x - Qsum l / inject_Z (len l))) l)
        / inject_Z (len l - 1))%Q.
Proof.
  intros H. unfold variance.
  replace (len l <? 2) with false by (symmetry; now apply Z.ltb_ge). reflexivity.
Qed.

Lemma stdev_value (l : list Q) (v : Q) :
  variance l = OK v ->
  stdev l = float_sqrt_of_frac (Qnum (Qred v)) (Zpos (Qden (Qred v))).
Proof.
  intros H. unfold stdev. rewrite H. reflexivity.
Qed.

(** The standard deviation of equal values is [0.0]. *)
Lemma stdev_all_equal (l : list Q) :
  2 <= len l -> (forall x y, In x l -> In y l -> x == y)%Q -> stdev l = OK 0%Q.
Proof.
  intros Hlen H. rewrite (stdev_value l _ (variance_value l Hlen)).
  apply (proj2 (deviations_zero l ltac:(lia))) in H.
  match goal with
  | |- float_sqrt_of_frac (Qnum (Qred ?v)) _ = _ =>
      assert (E : (v == 0)%Q)
        by (rewrite H; unfold Qdiv; rewrite Qmult_0_l; reflexivity);
      rewrite (Qred_complete v 0 E)
  end.
  reflexivity.
Qed.

Section TieFacts.

Context {rng : Type}.
Variable randbelow : Z -> rng -> Z * rng.

(** X22.  Among two paths or more whose weight averages are all equal and
    whose lengths are all equal, both standard deviations are [0.0], and the
    winner is the path whose index the random source draws below the number
    of paths; the other paths are removed. *)
Theorem best_path_index_tie (graph : DiGraph) (path_list : list (list node))
    (path_length : list Z) (weight_avg_list : list Q) (de ds : bool) (r : rng) :
  2 <= len path_list ->
  len weight_avg_list = len path_list ->
  len path_length = len path_list ->
  (forall x y, In x weight_avg_list -> In y weight_avg_list -> x == y)%Q ->
  (forall x y, In x path_length -> In y path_length -> x = y) ->
  stdev weight_avg_list = OK 0%Q /\
  stdev (map inject_Z path_length) = OK 0%Q /\
  best_path_index randbelow path_list path_length weight_avg_list r
  = OK (randbelow (len path_list) r) /\
  select_best_path randbelow graph path_list path_length weight_avg_list de ds r
  = Done (remove_paths graph
            (paths_to_remove path_list (fst (randbelow (len path_list) r))) de ds)
         (snd (randbelow (len path_list) r)).
Proof.
  intros Hlen Hw Hl He Hle.
  assert (Hlw : 2 <= len weight_avg_list) by lia.
  assert (Hll : 2 <= len (map inject_Z path_length))
    by (unfold len in *; rewrite length_map; lia).
  assert (Hsw : stdev weight_avg_list = OK 0%Q) by (apply stdev_all_equal; assumption).
  assert (Hsl : stdev (map inject_Z path_length) = OK 0%Q).
  { apply stdev_all_equal; [assumption|]. intros x y Hx Hy.
    apply in_map_iff in Hx as [x' [<- Hx]]. apply in_map_iff in Hy as [y' [<- Hy]].
    rewrite (Hle x' y' Hx Hy). reflexivity. }
  assert (Hidx : best_path_index randbelow path_list path_length weight_avg_list r
                 = OK (randbelow (len path_list) r)).
  { unfold best_path_index, stdev_positive. rewrite Hsw. simpl. rewrite Hsl. simpl.
    unfold randint.
    replace (len path_list - 1 + 1 - 0) with (len path_list) by lia.
    replace (0 <? len path_list) with true by (symmetry; apply Z.ltb_lt; lia).
    destruct (randbelow (len path_list) r) as [i r']. reflexivity. }
  do 3 (split; [assumption|]).
  unfold select_best_path. rewrite Hidx.
  replace (len path_list =? 1) with false by (symmetry; apply Z.eqb_neq; lia).
  destruct (randbelow (len path_list) r) as [i r']. reflexivity.
Qed.

End TieFacts.

Lemma best_path_index_tie_witness :
  (2 <= len diamond_paths /\ len [5 # 1; 5 # 1]%Q = len diamond_paths /\
   len [3; 3] = len diamond_paths /\
   (forall x y, In x [5 # 1; 5 # 1] -> In y [5 # 1; 5 # 1] -> x == y)%Q /\
   (forall x y, In x [3; 3] -> In y [3; 3] -> x = y)) /\
  stdev [5 # 1; 5 # 1]%Q = OK 0%Q /\
  stdev (map inject_Z [3; 3]) = OK 0%Q /\
  best_path_index Sample.randbelow diamond_paths [3; 3] [5 # 1; 5 # 1]%Q Sample.seed
  = OK (Sample.randbelow (len diamond_paths) Sample.seed) /\
  select_best_path Sample.randbelow diamond diamond_paths [3; 3] [5 # 1; 5 # 1]%Q
                   false false Sample.seed
  = Done (remove_paths diamond
            (paths_to_remove diamond_paths
               (fst (Sample.randbelow (len diamond_paths) Sample.seed))) false false)
         (snd (Sample.randbelow (len diamond_paths) Sample.seed)).
Proof.
  assert (Hw : (forall x y, In x [5 # 1; 5 # 1] -> In y [5 # 1; 5 # 1] -> x == y)%Q).
  { intros x y [<- | [<- | []]] [<- | [<- | []]]; reflexivity. }
  assert (Hl : forall x y, In x [3; 3] -> In y [3; 3] -> x = y).
  { intros x y [<- | [<- | []]] [<- | [<- | []]]; reflexivity. }
  split; [split; [intros H; discriminate H|]; do 2 (split; [reflexivity|]);
          split; assumption|].
  apply (best_path_index_tie Sample.randbelow diamond diamond_paths [3; 3]
           [5 # 1; 5 # 1]%Q false false Sample.seed);
    [intros H; discriminate H | reflexivity | reflexivity | exact Hw | exact Hl].
Defined.

(** ** The path scorer on paths without chords *)

Lemma combine_removelast_tl {A : Type} (l : list A) :
  combine (removelast l) (tl l) = combine l (tl l).
Proof.
  induction l as [|a q IH]; [reflexivity|].
  destruct q as [|b q]; [reflexivity|].
  change (removelast (a :: b :: q)) with (a :: removelast (b :: q)).
  change (tl (a :: b :: q)) with (b :: q).
  change (tl (b :: q)) with q in IH.
  change (combine (a :: removelast (b :: q)) (b :: q))
    with ((a, b) :: combine (removelast (b :: q)) q).
  change (combine (a :: b :: q) (b :: q)) with ((a, b) :: combine (b :: q) q).
  now rewrite IH.
Qed.

Lemma NoDup_combine {A B : Type} (l : list A) (l' : list B) :
  NoDup l -> NoDup (combine l l').
Proof.
  revert l'. induction l as [|a l IH]; intros l' H; [constructor|].
  destruct l' as [|b l']; [constructor|]. simpl. inversion H; subst.
  constructor; [|now apply IH]. intros Hin. apply in_combine_l in Hin. contradiction.
Qed.

Lemma same_pair_same_edge (es : list edge) (e e' : edge) :
  NoDup (map fst es) -> In e es -> In e' es -> fst e = fst e' -> e = e'.
Proof.
  induction es as [|x es IH]; intros Hnd He He' E; [destruct He|].
  inversion Hnd; subst.
  destruct He as [-> | He], He' as [-> | He']; auto.
  - exfalso. apply H1. rewrite E. now apply in_map.
  - exfalso. apply H1. rewrite <- E. now apply in_map.
Qed.

(** The weights of the edges along a list of pairs that are edges. *)
Lemma weights_along (g : DiGraph) (pairs : list (node * node)) :
  NoDup (map fst (edges g)) ->
  (forall uv, In uv pairs -> has_edge g (fst uv) (snd uv)) ->
  exists es,
    mapM (fun uv => edge_weight g (fst uv) (snd uv)) pairs = OK (map weight es) /\
    map fst es = pairs /\ forall e, In e es -> In e (edges g).
Proof.
  intros Hnd. induction pairs as [|[u v] pairs IH]; intros H.
  - exists []. repeat split. intros e [].
  - destruct (H (u, v) (or_introl eq_refl)) as [w Hw]. simpl in Hw.
    destruct IH as [es [Hes [Hfst Hin]]]; [intros uv Huv; apply H; now right|].
    exists ((u, v, w) :: es). split; [|split].
    + simpl. unfold edge_weight at 1. rewrite (find_edge _ u v w Hnd Hw).
      simpl. rewrite Hes. reflexivity.
    + simpl. now rewrite Hfst.
    + intros e [<- | He]; auto.
Qed.

Lemma Zsum_Permutation (l l' : list Z) :
  Permutation l l' -> fold_right Z.add 0 l = fold_right Z.add 0 l'.
Proof.
  induction 1; simpl; lia.
Qed.

(** X23.  On a path of distinct nodes that follows edges of the graph and
    has no chord (no edge of the graph joins two of its nodes other than a
    node and the next one), the edges of [graph.subgraph(path)], whose
    weights [path_average_weight] averages, are the consecutive edges of the
    path, whose weights [solve_bubble] sums: the same edges up to their
    order, one less than the path has nodes.  The average of [solve_bubble]
    is the float quotient of their total weight by their number, and
    [path_average_weight] returns the same float, unless the number divides
    the total: then it returns the quotient as an [int]. *)
Theorem path_average_weight_without_chords (g : DiGraph) (path : list node) :
  NoDup (map fst (edges g)) ->
  NoDup path ->
  2 <= len path ->
  (forall u v, adjacent path u v -> has_edge g u v) ->
  (forall e, In e (edges g) -> In (src e) path -> In (dst e) path ->
             adjacent path (src e) (dst e)) ->
  exists es,
    map fst es = combine (removelast path) (tl path) /\
    (forall e, In e es -> In e (edges g)) /\
    Permutation (subgraph_edges g path) es /\
    len (subgraph_edges g path) = len path - 1 /\
    let total := fold_right Z.add 0 (map weight es) in
    consecutive_average g path = true_divide total (len path - 1) /\
    path_average_weight g path
    = if total mod (len path - 1) =? 0 then OK (inject_Z (total / (len path - 1)))
      else true_divide total (len path - 1).
Proof.
  intros Hnd Hpath Hlen Hwalk Hchord.
  set (pairs := combine (removelast path) (tl path)).
  assert (Hpairs : forall u v, In (u, v) pairs <-> adjacent path u v).
  { intros u v. unfold pairs. rewrite combine_removelast_tl. symmetry. apply adjacent_pairs. }
  destruct (weights_along g pairs Hnd) as [es [Hes [Hfst Hin]]].
  { intros [u v] Huv. apply Hwalk, Hpairs. exact Huv. }
  assert (Hperm : Permutation (subgraph_edges g path) es).
  { apply NoDup_Permutation.
    - unfold subgraph_edges. apply NoDup_filter. now apply NoDup_map_inv in Hnd.
    - apply (NoDup_map_inv fst). rewrite Hfst. unfold pairs.
      rewrite combine_removelast_tl. now apply NoDup_combine.
    - intros e. unfold subgraph_edges. rewrite filter_In, andb_true_iff, !mem_In. split.
      + intros [He [Hs Hd]].
        assert (Hp : In (fst e) (map fst es)).
        { rewrite Hfst. destruct e as [[u v] w]. apply Hpairs.
          exact (Hchord (u, v, w) He Hs Hd). }
        apply in_map_iff in Hp as [e' [E He']].
        rewrite <- (same_pair_same_edge (edges g) e' e Hnd (Hin e' He') He E).
        exact He'.
      + intros He. split; [now apply Hin|].
        assert (Hp : In (fst e) pairs) by (rewrite <- Hfst; now apply in_map).
        destruct e as [[u v] w]. apply Hpairs in Hp as [l1 [l2 ->]].
        unfold src, dst. simpl. split; apply in_or_app; right; simpl; auto. }
  assert (Hcount : len es = len path - 1).
  { assert (E : length es = length pairs)
      by (rewrite <- Hfst; symmetry; apply length_map).
    unfold len. rewrite E. unfold pairs.
    rewrite combine_removelast_tl, length_combine.
    destruct path as [|a q]; [unfold len in Hlen; simpl in Hlen; lia|].
    simpl length. lia. }
  assert (Hne : es <> []).
  { intros ->. unfold len in Hcount, Hlen. simpl in Hcount. lia. }
  exists es.
  split; [exact Hfst|]. split; [exact Hin|]. split; [exact Hperm|].
  assert (Hcount' : len (subgraph_edges g path) = len path - 1)
    by (unfold len; rewrite (Permutation_length Hperm); exact Hcount).
  split; [exact Hcount'|].
  cbv zeta. split.
  - unfold consecutive_average. fold pairs. rewrite Hes. simpl bind.
    rewrite <- Hcount.
    destruct es as [|e1 es']; [contradiction|].
    replace (len (map weight (e1 :: es'))) with (len (e1 :: es'))
      by (unfold len; now rewrite length_map).
    reflexivity.
  - unfold path_average_weight, mean.
    rewrite <- (Zsum_Permutation _ _ (Permutation_map weight Hperm)), <- Hcount'.
    replace (len (map weight (subgraph_edges g path))) with (len (subgraph_edges g path))
      by (unfold len; now rewrite length_map).
    destruct (subgraph_edges g path) as [|e1 E1] eqn:E; [|reflexivity].
    apply Permutation_nil in Hperm. contradiction.
Qed.

Lemma path_average_weight_without_chords_witness :
  (NoDup (map fst (edges diamond)) /\
   NoDup [py "a"; py "b"; py "d"] /\
   2 <= len [py "a"; py "b"; py "d"] /\
   (forall u v, adjacent [py "a"; py "b"; py "d"] u v -> has_edge diamond u v) /\
   (forall e, In e (edges diamond) ->
      In (src e) [py "a"; py "b"; py "d"] -> In (dst e) [py "a"; py "b"; py "d"] ->
      adjacent [py "a"; py "b"; py "d"] (src e) (dst e))) /\
  subgraph_edges diamond [py "a"; py "b"; py "d"]
  = [(py "a", py "b", 5); (py "b", py "d", 5)] /\
  consecutive_average diamond [py "a"; py "b"; py "d"] = OK 5%Q /\
  path_average_weight diamond [py "a"; py "b"; py "d"] = OK 5%Q /\
  exists es,
    map fst es = combine (removelast [py "a"; py "b"; py "d"]) (tl [py "a"; py "b"; py "d"]) /\
    (forall e, In e es -> In e (edges diamond)) /\
    Permutation (subgraph_edges diamond [py "a"; py "b"; py "d"]) es /\
    len (subgraph_edges diamond [py "a"; py "b"; py "d"]) = len [py "a"; py "b"; py "d"] - 1 /\
    let total := fold_right Z.add 0 (map weight es) in
    consecutive_average diamond [py "a"; py "b"; py "d"]
    = true_divide total (len [py "a"; py "b"; py "d"] - 1) /\
    path_average_weight diamond [py "a"; py "b"; py "d"]
    = if total mod (len [py "a"; py "b"; py "d"] - 1) =? 0
      then OK (inject_Z (total / (len [py "a"; py "b"; py "d"] - 1)))
      else true_divide total (len [py "a"; py "b"; py "d"] - 1).
Proof.
  assert (H1 : NoDup (map fst (edges diamond)))
    by (vm_compute; repeat constructor; simpl; intuition discriminate).
  assert (H2 : NoDup [py "a"; py "b"; py "d"])
    by (repeat constructor; simpl; intuition discriminate).
  assert (H3 : 2 <= len [py "a"; py "b"; py "d"]) by (intros H; discriminate H).
  assert (H4 : forall u v, adjacent [py "a"; py "b"; py "d"] u v -> has_edge diamond u v).
  { intros u v H. apply adjacent_pairs in H. apply has_edge_pairs.
    vm_compute in H |- *. tauto. }
  assert (H5 : forall e, In e (edges diamond) ->
      In (src e) [py "a"; py "b"; py "d"] -> In (dst e) [py "a"; py "b"; py "d"] ->
      adjacent [py "a"; py "b"; py "d"] (src e) (dst e)).
  { intros e He Hs Hd. apply adjacent_pairs. vm_compute in He.
    destruct He as [<- | [<- | [<- | [<- | []]]]]; vm_compute in Hs, Hd |- *;
      try tauto; exfalso; intuition discriminate. }
  split; [repeat split; assumption|].
  do 3 (split; [reflexivity|]).
  exact (path_average_weight_without_chords diamond [py "a"; py "b"; py "d"]
           H1 H2 H3 H4 H5).
Defined.

(** ** Removal and windows *)

Lemma filter_twice {A : Type} (f h : A -> bool) (l : list A) :
  filter f (filter h l) = filter (fun x => h x && f x) l.
Proof.
  induction l as [|x l IH]; simpl; [reflexivity|].
  destruct (h x); simpl; [destruct (f x); now rewrite IH | exact IH].
Qed.

Lemma nodes_remove_nodes_from (l : list node) (g : DiGraph) :
  nodes (remove_nodes_from g l) = filter (fun x => negb (mem x l)) (nodes g).
Proof.
  unfold remove_nodes_from. revert g. induction l as [|n l IH]; intros g; simpl.
  - symmetry. apply filter_all. reflexivity.
  - rewrite IH. simpl. rewrite filter_twice. apply filter_ext. intros x.
    now rewrite negb_orb.
Qed.

Lemma edges_remove_nodes_from (l : list node) (g : DiGraph) :
  edges (remove_nodes_from g l)
  = filter (fun e => negb (mem (src e) l) && negb (mem (dst e) l)) (edges g).
Proof.
  unfold remove_nodes_from. revert g. induction l as [|n l IH]; intros g; simpl.
  - symmetry. apply filter_all. reflexivity.
  - rewrite IH. simpl. rewrite filter_twice. apply filter_ext. intros e.
    rewrite !negb_orb.
    destruct (str_eqb (src e) n), (str_eqb (dst e) n), (mem (src e) l), (mem (dst e) l);
      reflexivity.
Qed.

Lemma remove_paths_flat (ps : list (list node)) (de ds : bool) (g : DiGraph) :
  remove_paths g ps de ds = remove_nodes_from g (flat_map (stripped de ds) ps).
Proof.
  unfold remove_paths. revert g. induction ps as [|p ps IH]; intros g; simpl.
  - reflexivity.
  - rewrite IH, remove_nodes_from_app. reflexivity.
Qed.

Lemma remove_nodes_from_same_set (l l' : list node) (g : DiGraph) :
  (forall n, In n l <-> In n l') -> remove_nodes_from g l = remove_nodes_from g l'.
Proof.
  intros H.
  assert (Hm : forall x, mem x l = mem x l').
  { intros x. destruct (mem x l) eqn:E, (mem x l') eqn:E'; try reflexivity.
    - apply mem_In, H, mem_In in E. congruence.
    - apply mem_In, H, mem_In in E'. congruence. }
  pose proof (nodes_remove_nodes_from l g) as Hn.
  pose proof (edges_remove_nodes_from l g) as He.
  pose proof (nodes_remove_nodes_from l' g) as Hn'.
  pose proof (edges_remove_nodes_from l' g) as He'.
  destruct (remove_nodes_from g l) as [ns es], (remove_nodes_from g l') as [ns' es'].
  simpl in *. subst. f_equal; apply filter_ext; intros x; now rewrite !Hm.
Qed.

(** X24.  [remove_paths] depends on the set of the nodes to remove only:
    the order of the paths and a path given twice make no difference, and
    removing the same paths again changes nothing (an absent node is skipped
    silently). *)
Theorem remove_paths_is_set_removal (graph : DiGraph) (ps ps' : list (list node))
    (de ds : bool) :
  ((forall n, In n (flat_map (stripped de ds) ps) <-> In n (flat_map (stripped de ds) ps')) ->
   remove_paths graph ps de ds = remove_paths graph ps' de ds) /\
  remove_paths (remove_paths graph ps de ds) ps de ds = remove_paths graph ps de ds.
Proof.
  split.
  - intros H. rewrite !remove_paths_flat. now apply remove_nodes_from_same_set.
  - rewrite !remove_paths_flat, <- remove_nodes_from_app.
    apply remove_nodes_from_same_set. intros n. rewrite in_app_iff. tauto.
Qed.

(** X25.  The k-mers of a read overlap: for a positive size [k], the suffix
    [kmer[1:]] of a k-mer of the read is the prefix [kmer[:-1]] of the
    k-mer that follows it, so that the edges of a read form a walk in the
    graph. *)
Theorem cut_kmer_overlap (read : str) (k : Z) (i : nat) (kmer next : str) :
  0 < k ->
  nth_error (cut_kmer read k) i = Some kmer ->
  nth_error (cut_kmer read k) (S i) = Some next ->
  tl kmer = removelast next.
Proof.
  intros Hk Hi Hn.
  destruct (Z.lt_ge_cases (len read) k) as [Hshort | Hlong].
  - rewrite cut_kmer_short in Hi by assumption. destruct i; discriminate.
  - rewrite cut_kmer_windows in Hi, Hn by lia.
    destruct (Z.to_nat k) as [|w] eqn:Ek; [lia|].
    assert (Hlt : (S i < length read - S w + 1)%nat).
    { assert (nth_error (map (window (S w) read) (seq 0 (length read - S w + 1))) (S i)
              <> None) as H by congruence.
      apply nth_error_Some in H. now rewrite length_map, length_seq in H. }
    rewrite nth_error_map, nth_error_seq in Hi, Hn.
    replace (i <? length read - S w + 1)%nat with true in Hi
      by (symmetry; apply Nat.ltb_lt; lia).
    replace (S i <? length read - S w + 1)%nat with true in Hn
      by (symmetry; apply Nat.ltb_lt; lia).
    simpl in Hi, Hn. injection Hi as <-. injection Hn as <-.
    rewrite tl_window, removelast_window by lia. reflexivity.
Qed.

Lemma cut_kmer_overlap_witness :
  (0 < 4 /\
   nth_error (cut_kmer (py "AACCGGTT") 4) 1 = Some (py "ACCG") /\
   nth_error (cut_kmer (py "AACCGGTT") 4) 2 = Some (py "CCGG")) /\
  tl (py "ACCG") = removelast (py "CCGG").
Proof.
  split; [repeat split; reflexivity|].
  apply (cut_kmer_overlap (py "AACCGGTT") 4 1 (py "ACCG") (py "CCGG")); reflexivity.
Defined.
